(** * Integer-point sampling (isl_sample.c) and schedule constraints
      (isl_schedule_constraints.c)

    A shallow embedding of the sampling core of isl: the dispatcher
    [basic_set_sample], the fast paths [zero_sample] and [interval_sample],
    the equality reducer [sample_eq], the bounded sampler [sample_bounded],
    the depth-first tableau search [isl_tab_sample], the unbounded sampler
    [isl_basic_set_sample_with_cone] with [round_up_in_cone] and
    [shift_cone], the initial basis along a recession cone
    [isl_tab_set_initial_basis_with_cone] with [tab_shift_cone],
    [isl_basic_set_from_vec], and the samplers of maps
    [isl_basic_map_sample] and [isl_map_sample]; and of the constructors,
    setters, getters and [isl_schedule_constraints_apply] of
    isl_schedule_constraints.c.

    Conventions.
    - [isl_int] is an arbitrary-precision integer: [Z].
    - An [isl_vec] is the list of its elements; element 0 is the denominator.
    - A C pointer that may be NULL is an [option]; a function that returns
      NULL on failure returns [Null] in the result type [res].
    - Allocation ([isl_vec_alloc], [isl_mat_alloc], [isl_alloc_array],
      [isl_basic_set_alloc]) is taken to succeed.
    - The collaborators that live outside the two files (tableau engine,
      matrix layer, basic-set layer, map layer, union maps) are the methods
      of classes; every definition and theorem is stated for arbitrary
      instances.  Collaborators follow the library's convention of returning
      NULL when handed NULL.
    - The policy block [ctx->opt] is global mutable state; it is threaded
      explicitly through every function that can reach [isl_tab_sample]. *)

From stdpp Require Import base list.
From Stdlib Require Import ZArith Lia Bool.

Local Open Scope Z_scope.

(** ** Results *)

(** What a call can end in: a value, a NULL return (the error signal of the
    library), a dereference of NULL by the source itself ([Fault]), or an
    exhausted iteration budget of the model ([OutOfFuel]). *)
Inductive res (A : Type) : Type :=
| Ok (a : A)
| Null
| Fault
| OutOfFuel.
Arguments Ok {A} a.
Arguments Null {A}.
Arguments Fault {A}.
Arguments OutOfFuel {A}.

Definition res_bind {A B : Type} (r : res A) (k : A -> res B) : res B :=
  match r with
  | Ok a => k a
  | Null => Null
  | Fault => Fault
  | OutOfFuel => OutOfFuel
  end.

(** A collaborator's NULL becomes the caller's NULL. *)
Definition of_option {A : Type} (o : option A) : res A :=
  match o with Some a => Ok a | None => Null end.

(** The call came back to its caller (with a value or with NULL). *)
Definition returned {A : Type} (r : res A) : Prop :=
  match r with Ok _ | Null => True | Fault | OutOfFuel => False end.

Declare Scope res_scope.
Delimit Scope res_scope with res.
Notation "'do' x <- e ; k" := (res_bind e (fun x => k))
  (at level 10, x name, e at level 100, k at level 200) : res_scope.
Notation "'do' ' p <- e ; k" := (res_bind e (fun x => match x with p => k end))
  (at level 10, p pattern, e at level 100, k at level 200) : res_scope.

(** ** Policy block of the context *)

Inductive gbr_mode : Type := ISL_GBR_NEVER | ISL_GBR_ONCE | ISL_GBR_ALWAYS.
Inductive ilp_solver_kind : Type := ISL_ILP_GBR | ISL_ILP_PIP.

Record isl_options : Type := mk_options {
  gbr : gbr_mode;
  gbr_only_first : Z;
  ilp_solver : ilp_solver_kind
}.

Definition gbr_mode_eqb (a b : gbr_mode) : bool :=
  match a, b with
  | ISL_GBR_NEVER, ISL_GBR_NEVER => true
  | ISL_GBR_ONCE, ISL_GBR_ONCE => true
  | ISL_GBR_ALWAYS, ISL_GBR_ALWAYS => true
  | _, _ => false
  end.

Definition set_gbr (g : gbr_mode) (o : isl_options) : isl_options :=
  mk_options g (gbr_only_first o) (ilp_solver o).

Definition set_gbr_only_first (v : Z) (o : isl_options) : isl_options :=
  mk_options (gbr o) v (ilp_solver o).

(** Computations that read or write the policy block. *)
Definition St (A : Type) : Type := isl_options -> res A * isl_options.

Definition st_ret {A : Type} (r : res A) : St A := fun o => (r, o).

Definition st_bind {A B : Type} (m : St A) (k : A -> St B) : St B :=
  fun o =>
    match m o with
    | (Ok a, o') => k a o'
    | (Null, o') => (Null, o')
    | (Fault, o') => (Fault, o')
    | (OutOfFuel, o') => (OutOfFuel, o')
    end.

(** ** Vectors, sequences, matrices *)

Definition isl_vec : Type := list Z.

(** [v->el[i]]. *)
Definition el (v : list Z) (i : nat) : Z := nth i v 0.
Arguments el : simpl never.

(** Unsigned subtraction as the C code performs it on [unsigned]. *)
Definition usub (a b : nat) : nat :=
  Z.to_nat ((Z.of_nat a - Z.of_nat b) mod 2 ^ 32).

(** Modelled from the spec: isl_seq_inner_product of the vector layer
    (isl_seq.c is not part of src): the inner product of the first [len]
    elements of two sequences. *)
Fixpoint isl_seq_inner_product (p1 p2 : list Z) (len : nat) : Z :=
  match len with
  | O => 0
  | S len' => el p1 0 * el p2 0 + isl_seq_inner_product (tl p1) (tl p2) len'
  end.

(** Modelled from the spec: isl_seq_first_non_zero of the vector layer: the
    position of the first non-zero among the first [len] elements, or -1. *)
Fixpoint isl_seq_first_non_zero (p : list Z) (len : nat) : Z :=
  match len with
  | O => -1
  | S len' =>
      if el p 0 =? 0
      then
        let r := isl_seq_first_non_zero (tl p) len' in
        if r <? 0 then -1 else 1 + r
      else 0
  end.

(** Modelled from the spec: isl_seq_neg of the vector layer ("negate range"),
    applied to the [len] elements that start at position [first]. *)
Definition seq_neg_range (p : list Z) (first len : nat) : list Z :=
  take first p ++ map Z.opp (take len (drop first p)) ++ drop (first + len) p.

(** Modelled from the spec: isl_int_cdiv_q of the integer layer: division
    rounding toward positive infinity. *)
Definition isl_int_cdiv_q (n d : Z) : Z := - ((- n) / d).

Record isl_mat : Type := mk_mat {
  mat_n_row : nat;
  mat_n_col : nat;
  mat_row : list (list Z)
}.

(** [mat->row[i]], for a row within the matrix (see [row_in_range]). *)
Definition mrow (m : isl_mat) (i : nat) : list Z := nth i (mat_row m) [].

(** Whether [m->row[i]] with its elements 0, ..., [dim] lies within the
    matrix: the matrix has a row [i], of at least 1 + [dim] elements.  The
    sampler reads [mrow] only where this holds. *)
Definition row_in_range (dim : nat) (m : isl_mat) (i : nat) : bool :=
  match mat_row m !! i with
  | Some r => Nat.leb (1 + dim) (length r)
  | None => false
  end.

Definition set_mrow (m : isl_mat) (i : nat) (r : list Z) : isl_mat :=
  mk_mat (mat_n_row m) (mat_n_col m) (<[i := r]> (mat_row m)).

(** ** Basic sets *)

(** A conjunction of equalities [e . (1,x) = 0] and inequalities
    [i . (1,x) >= 0]; every constraint has 1 + total_dim entries, the
    constant first.  [n_eq] and [n_ineq] are the lengths of the two lists. *)
Record isl_basic_set : Type := mk_bset {
  bset_nparam : nat;
  bset_dim : nat;
  bset_n_div : nat;
  bset_eq : list (list Z);
  bset_ineq : list (list Z);
  bset_flag_empty : bool;        (* ISL_BASIC_SET_EMPTY *)
  bset_flag_no_implicit : bool;  (* ISL_BASIC_SET_NO_IMPLICIT *)
  bset_sample : option isl_vec
}.

Definition n_eq (b : isl_basic_set) : nat := length (bset_eq b).
Definition n_ineq (b : isl_basic_set) : nat := length (bset_ineq b).

Definition isl_basic_set_n_param (b : isl_basic_set) : nat := bset_nparam b.
Definition isl_basic_set_n_dim (b : isl_basic_set) : nat := bset_dim b.
Definition isl_basic_set_total_dim (b : isl_basic_set) : nat :=
  (bset_nparam b + bset_dim b + bset_n_div b)%nat.

Definition set_sample (s : option isl_vec) (b : isl_basic_set) : isl_basic_set :=
  mk_bset (bset_nparam b) (bset_dim b) (bset_n_div b) (bset_eq b) (bset_ineq b)
    (bset_flag_empty b) (bset_flag_no_implicit b) s.

Definition set_flag_empty (b : isl_basic_set) : isl_basic_set :=
  mk_bset (bset_nparam b) (bset_dim b) (bset_n_div b) (bset_eq b) (bset_ineq b)
    true (bset_flag_no_implicit b) (bset_sample b).

Definition set_ineq (l : list (list Z)) (b : isl_basic_set) : isl_basic_set :=
  mk_bset (bset_nparam b) (bset_dim b) (bset_n_div b) (bset_eq b) l
    (bset_flag_empty b) (bset_flag_no_implicit b) (bset_sample b).

(** Modelled from the spec: isl_basic_set_fast_is_empty of the basic-set
    layer (isl_map.c is not part of src): the test of the EMPTY flag. *)
Definition isl_basic_set_fast_is_empty (b : isl_basic_set) : bool :=
  bset_flag_empty b.

(** Modelled from the spec: isl_basic_set_contains of the basic-set layer
    (isl_map.c is not part of src): whether a vector "still satisfies the
    set", every equality having inner product zero with it and every
    inequality a non-negative one.  The result is the C integer: 1, 0, or a
    negative value (which the callers treat as an error) when the vector
    does not have 1 + total_dim elements. *)
Definition isl_basic_set_contains (b : isl_basic_set) (v : isl_vec) : Z :=
  let total := S (isl_basic_set_total_dim b) in
  if negb (Nat.eqb total (length v)) then -1
  else if forallb (fun e => isl_seq_inner_product v e total =? 0) (bset_eq b)
          && forallb (fun i => 0 <=? isl_seq_inner_product v i total) (bset_ineq b)
       then 1 else 0.

(** The points of a basic set, as a proposition: a vector (d, d*x) with
    positive denominator whose inner products with the constraints have the
    required signs. *)
Definition satisfies (b : isl_basic_set) (v : isl_vec) : Prop :=
  length v = S (isl_basic_set_total_dim b) /\
  (forall e, In e (bset_eq b) ->
     isl_seq_inner_product e v (S (isl_basic_set_total_dim b)) = 0) /\
  (forall i, In i (bset_ineq b) ->
     0 <= isl_seq_inner_product i v (S (isl_basic_set_total_dim b))).

(** An integer point of the set: a point whose denominator is one. *)
Definition integer_point (b : isl_basic_set) (v : isl_vec) : Prop :=
  el v 0 = 1 /\ satisfies b v.

(** ** Fast paths *)

(** [empty_sample]: the zero-length vector that reports an empty set. *)
Definition empty_sample (bset : isl_basic_set) : isl_vec := [].

(** [zero_sample]: denominator one, all coordinates zero. *)
Definition zero_sample (bset : isl_basic_set) : isl_vec :=
  1 :: replicate (isl_basic_set_total_dim bset) 0.

(** ** The collaborators *)

(** Matrix and vector layer (isl_mat.c, isl_vec.c, isl_seq.c). *)
Class MatLayer : Type := {
  isl_mat_identity : nat -> isl_mat;
  (* isl_mat_left_hermite(M, neg, &U, &Q): the triple (H, U, Q) *)
  isl_mat_left_hermite : isl_mat -> Z -> option (isl_mat * isl_mat * isl_mat);
  isl_mat_lin_to_aff : isl_mat -> isl_mat;
  isl_mat_drop_cols : isl_mat -> nat -> nat -> isl_mat;
  (* isl_mat_sub_alloc(ctx, row, first_row, n_row, first_col, n_col) *)
  isl_mat_sub_alloc : list (list Z) -> nat -> nat -> nat -> nat -> isl_mat;
  isl_mat_vec_product : isl_mat -> isl_vec -> option isl_vec;
  isl_mat_vec_inverse_product : isl_mat -> isl_vec -> option isl_vec;
  isl_vec_ceil : isl_vec -> option isl_vec;
  (* isl_seq_elim(dst, src, pos, len, NULL): the new contents of dst *)
  isl_seq_elim : list Z -> list Z -> nat -> nat -> list Z
}.

(** Basic-set layer (isl_map.c, isl_map_simplify.c, isl_equalities.c,
    isl_sample_piplib.c). *)
Class BsetLayer : Type := {
  isl_basic_set_simplify : isl_basic_set -> option isl_basic_set;
  (* isl_basic_set_remove_equalities(bset, &T, NULL): the pair (bset', T) *)
  isl_basic_set_remove_equalities : isl_basic_set -> option (isl_basic_set * isl_mat);
  isl_basic_set_preimage : isl_basic_set -> isl_mat -> option isl_basic_set;
  isl_basic_set_recession_cone : isl_basic_set -> option isl_basic_set;
  isl_basic_set_drop_dims : isl_basic_set -> nat -> nat -> option isl_basic_set;
  isl_basic_set_remove_dims : isl_basic_set -> nat -> nat -> option isl_basic_set;
  isl_basic_set_drop_inequality : isl_basic_set -> nat -> isl_basic_set;
  isl_basic_set_finalize : isl_basic_set -> option isl_basic_set;
  isl_pip_basic_set_sample : isl_basic_set -> option isl_vec
}.

(** [tab->con[i]]. *)
Record isl_tab_var : Type := mk_tab_var {
  is_row : bool;
  index : Z
}.

(** The fields of [struct isl_tab] that isl_sample.c reads or writes; the
    rest of the tableau (its matrix, variable arrays and undo stack) is the
    engine's own [tab_core]. *)
Record isl_tab (T : Type) : Type := mk_tab {
  tab_n_var : nat;
  tab_n_con : nat;
  tab_n_eq : nat;
  tab_n_col : nat;
  tab_n_dead : nat;
  tab_n_unbounded : nat;
  tab_n_zero : nat;
  tab_empty : bool;
  tab_basis : option isl_mat;
  tab_con : list isl_tab_var;
  tab_bset : option isl_basic_set;
  tab_core : T
}.
Arguments mk_tab {T}.
Arguments tab_n_var {T}.
Arguments tab_n_con {T}.
Arguments tab_n_eq {T}.
Arguments tab_n_col {T}.
Arguments tab_n_dead {T}.
Arguments tab_n_unbounded {T}.
Arguments tab_n_zero {T}.
Arguments tab_empty {T}.
Arguments tab_basis {T}.
Arguments tab_con {T}.
Arguments tab_bset {T}.
Arguments tab_core {T}.

Definition set_basis {T : Type} (b : option isl_mat) (t : isl_tab T) : isl_tab T :=
  mk_tab (tab_n_var t) (tab_n_con t) (tab_n_eq t) (tab_n_col t) (tab_n_dead t)
    (tab_n_unbounded t) (tab_n_zero t) (tab_empty t) b (tab_con t) (tab_bset t)
    (tab_core t).

Definition set_n_zero {T : Type} (n : nat) (t : isl_tab T) : isl_tab T :=
  mk_tab (tab_n_var t) (tab_n_con t) (tab_n_eq t) (tab_n_col t) (tab_n_dead t)
    (tab_n_unbounded t) n (tab_empty t) (tab_basis t) (tab_con t) (tab_bset t)
    (tab_core t).

(** [enum isl_lp_result]; [lp_ok] carries the value stored through the
    [opt] pointer, which [isl_tab_min] rounds up to an integer when no
    denominator is asked for. *)
Inductive isl_lp_result : Type :=
| isl_lp_ok (opt : Z)
| isl_lp_empty
| isl_lp_unbounded
| isl_lp_error.

(** Tableau engine (isl_tab.c, isl_basis_reduction_tab.c).  A call that
    reports failure by a negative integer or by NULL gives [None]. *)
Class TabLayer (T undo : Type) : Type := {
  isl_tab_from_basic_set : isl_basic_set -> option (isl_tab T);
  isl_tab_track_bset : isl_tab T -> isl_basic_set -> option (isl_tab T);
  isl_tab_detect_implicit_equalities : isl_tab T -> option (isl_tab T);
  isl_tab_extend_cons : isl_tab T -> nat -> option (isl_tab T);
  (* isl_tab_min(tab, f, denom, &opt, NULL, 0) *)
  isl_tab_min : isl_tab T -> list Z -> Z -> isl_lp_result * isl_tab T;
  isl_tab_sample_is_integer : isl_tab T -> bool;
  isl_tab_get_sample_value : isl_tab T -> option isl_vec;
  isl_tab_add_valid_eq : isl_tab T -> list Z -> option (isl_tab T);
  isl_tab_snap : isl_tab T -> undo;
  isl_tab_rollback : isl_tab T -> undo -> option (isl_tab T);
  (* reads ctx->opt->gbr_only_first *)
  isl_tab_compute_reduced_basis : isl_options -> isl_tab T -> option (isl_tab T)
}.

(** ** The one-dimensional fast path *)

(** The loop of [interval_sample] over the inequalities from index 1 on:
    whether it stops early, at a negative inner product. *)
Fixpoint interval_check (sample : isl_vec) (rest : list (list Z)) : bool :=
  match rest with
  | [] => false
  | i :: rest' =>
      if isl_seq_inner_product sample i 2 <? 0 then true
      else interval_check sample rest'
  end.

(** [interval_sample] after the call of [isl_basic_set_simplify]. *)
Definition interval_sample_simplified (bset : isl_basic_set) : res isl_vec :=
  if isl_basic_set_fast_is_empty bset then Ok (empty_sample bset)
  else if Nat.eqb (n_eq bset) 0 && Nat.eqb (n_ineq bset) 0 then Ok (zero_sample bset)
  else if Nat.ltb 0 (n_eq bset) then
    if negb (Nat.eqb (n_eq bset) 1) then Null
    else if negb (Nat.eqb (n_ineq bset) 0) then Null
    else
      let e := nth 0 (bset_eq bset) [] in
      if el e 1 =? 1 then Ok [1; - el e 0]
      else if el e 1 =? -1 then Ok [1; el e 0]
      else Null
  else
    let i0 := nth 0 (bset_ineq bset) [] in
    let sample := [1; if el i0 1 =? 1 then - el i0 0 else el i0 0] in
    if interval_check sample (drop 1 (bset_ineq bset))
    then Ok (empty_sample bset)
    else Ok sample.

Section Sampler.

Context {ML : MatLayer} {BL : BsetLayer}.

Definition interval_sample (bset : isl_basic_set) : res isl_vec :=
  match isl_basic_set_simplify bset with
  | None => Null
  | Some bset => interval_sample_simplified bset
  end.

(** ** Skewing into the positive orthant (used by the PIP back end) *)

(** The inner loop of [independent_bounds]: row [r] (the candidate
    direction, with first non-zero position [pos]) is reduced by the rows
    [dirs] that precede it, from index [i] on.  The result is the reduced
    row, its first non-zero position, and the index at which the loop
    stopped. *)
Fixpoint independent_bounds_elim (dirs : list (list Z)) (i : nat) (r : list Z)
    (pos : Z) (n_col : nat) : list Z * Z * nat :=
  match dirs with
  | [] => (r, pos, i)
  | d :: dirs' =>
      let pos_i := isl_seq_first_non_zero d n_col in
      if pos_i <? pos then independent_bounds_elim dirs' (S i) r pos n_col
      else if pos <? pos_i then (r, pos, i)
      else
        let r' := isl_seq_elim r d (Z.to_nat pos) n_col in
        let pos' := isl_seq_first_non_zero r' n_col in
        if pos' <? 0 then (r', pos', i)
        else independent_bounds_elim dirs' (S i) r' pos' n_col
  end.

(** The outer loop of [independent_bounds] over the inequalities from
    index 1 on; [dirs] holds the [n] directions found so far and [bounds]
    the rows of the result, in reverse. *)
Fixpoint independent_bounds_loop (ineqs : list (list Z)) (dim : nat)
    (dirs : list (list Z)) (bounds : list (list Z)) : list (list Z) :=
  match ineqs with
  | [] => bounds
  | c :: ineqs' =>
      if negb (Nat.ltb (length dirs) dim) then bounds
      else
        let r := take dim (drop 1 c) in
        let pos := isl_seq_first_non_zero r dim in
        if pos <? 0 then independent_bounds_loop ineqs' dim dirs bounds
        else
          let '(r', pos', i) := independent_bounds_elim dirs 0 r pos dim in
          if pos' <? 0 then independent_bounds_loop ineqs' dim dirs bounds
          else
            independent_bounds_loop ineqs' dim
              (take i dirs ++ r' :: drop i dirs)
              (take (S dim) c :: bounds)
  end.

Definition independent_bounds (bset : isl_basic_set) : isl_mat :=
  let dim := isl_basic_set_n_dim bset in
  let row0 := 1 :: replicate dim 0 in
  match bset_ineq bset with
  | [] => mk_mat 1 (S dim) [row0]
  | c0 :: rest =>
      let bounds :=
        independent_bounds_loop rest dim [take dim (drop 1 c0)] [take (S dim) c0] in
      mk_mat (S (length bounds)) (S dim) (row0 :: rev bounds)
  end.

(** [swap_inequality]. *)
Definition swap_inequality (ineqs : list (list Z)) (a b : nat) : list (list Z) :=
  <[b := nth a ineqs []]> (<[a := nth b ineqs []]> ineqs).

(** The loop of [isl_basic_set_skew_to_positive_orthant] that moves the
    (multiples of) unit rows up; [i] runs over the rows still to look at. *)
Fixpoint hoist_unit_rows (todo : nat) (i j : nat) (old_dim : nat)
    (ineqs : list (list Z)) : list (list Z) :=
  match todo with
  | O => ineqs
  | S todo' =>
      let r := drop 1 (nth i ineqs []) in
      let pos := isl_seq_first_non_zero r old_dim in
      if pos <? 0 then hoist_unit_rows todo' (S i) j old_dim ineqs
      else if 0 <=? isl_seq_first_non_zero (drop (S (Z.to_nat pos)) r)
                      (usub (usub old_dim (Z.to_nat pos)) 1)
      then hoist_unit_rows todo' (S i) j old_dim ineqs
      else
        hoist_unit_rows todo' (S i) (S j) old_dim
          (if Nat.eqb i j then ineqs else swap_inequality ineqs i j)
  end.

Definition isl_basic_set_skew_to_positive_orthant (bset : isl_basic_set)
    : res (isl_basic_set * isl_mat) :=
  if negb (Nat.eqb (isl_basic_set_n_param bset) 0) then Null
  else if negb (Nat.eqb (bset_n_div bset) 0) then Null
  else if negb (Nat.eqb (n_eq bset) 0) then Null
  else
    let old_dim := isl_basic_set_n_dim bset in
    let bset := set_ineq (hoist_unit_rows (n_ineq bset) 0 0 old_dim (bset_ineq bset)) bset in
    let bounds := independent_bounds bset in
    let new_dim := usub (mat_n_row bounds) 1 in
    match isl_mat_left_hermite bounds 1 with
    | None => Null
    | Some (_, U, _) =>
        let U := isl_mat_drop_cols U (1 + new_dim) (usub old_dim new_dim) in
        match isl_basic_set_preimage bset U with
        | None => Null
        | Some bset => Ok (bset, U)
        end
    end.

(** What [isl_basic_set_skew_to_positive_orthant] leaves of the basic set it
    is handed, for another holder of a reference: once its three assertions
    have passed, the loop that moves the unit rows up has swapped the
    inequalities of the set in place ([swap_inequality] writes [bset->ineq]
    without a copy-on-write), whatever comes of the rest of the function. *)
Definition skew_leaves (bset : isl_basic_set) : isl_basic_set :=
  if negb (Nat.eqb (isl_basic_set_n_param bset) 0) then bset
  else if negb (Nat.eqb (bset_n_div bset) 0) then bset
  else if negb (Nat.eqb (n_eq bset) 0) then bset
  else
    set_ineq (hoist_unit_rows (n_ineq bset) 0 0 (isl_basic_set_n_dim bset) (bset_ineq bset))
      bset.

(** ** Equality reduction *)

Definition sample_eq (bset : isl_basic_set)
    (recurse : isl_basic_set -> St isl_vec) : St isl_vec :=
  match isl_basic_set_remove_equalities bset with
  | None => st_ret Null
  | Some (bset, T) =>
      st_bind (recurse bset) (fun sample =>
        if Nat.eqb (length sample) 0 then st_ret (Ok sample)
        else st_ret (of_option (isl_mat_vec_product T sample)))
  end.

End Sampler.

(** ** The tableau sampler *)

(** Conversion to [unsigned]. *)
Definition u32 (z : Z) : Z := z mod 2 ^ 32.

(** What the search loop of [isl_tab_sample] tells the tableau engine to
    do, in order: the calls of [isl_tab_compute_reduced_basis],
    [isl_tab_snap] (with the bounds min and max just computed for the
    level, when the tableau is not empty there), [isl_tab_add_valid_eq]
    (with the value pinned) and [isl_tab_rollback]. *)
Inductive event : Type :=
| EvReduce (level : Z)
| EvSnap (level : Z) (bounds : option (Z * Z))
| EvPin (level : Z) (value : Z)
| EvRollback (level : Z).

Section TabSampler.

Context {ML : MatLayer} {T undo : Type} {TL : TabLayer T undo}.

(** The number of equalities of the tableau, [n_var - n_col + n_dead],
    computed on [unsigned]. *)
Definition tab_eq_count (tab : isl_tab T) : Z :=
  u32 (Z.of_nat (tab_n_var tab) - Z.of_nat (tab_n_col tab) + Z.of_nat (tab_n_dead tab)).

(** The loop of [tab_equalities] over the constraints [i], [i+1], ... *)
Fixpoint tab_equalities_rows (cons : list isl_tab_var) (i : nat)
    (tab : isl_tab T) (bset : isl_basic_set) : list (list Z) :=
  match cons with
  | [] => []
  | c :: cons' =>
      let rest := tab_equalities_rows cons' (S i) tab bset in
      if is_row c then rest
      else if (0 <=? index c) && (Z.of_nat (tab_n_dead tab) <=? index c) then rest
      else
        (if Nat.ltb i (n_eq bset)
         then take (tab_n_var tab) (drop 1 (nth i (bset_eq bset) []))
         else take (tab_n_var tab) (drop 1 (nth (i - n_eq bset) (bset_ineq bset) [])))
        :: rest
  end.

Definition tab_equalities (tab : isl_tab T) : res isl_mat :=
  match tab_bset tab with
  | None => Null
  | Some bset =>
      let n_eq := tab_eq_count tab in
      if tab_empty tab || (n_eq =? 0) then Ok (mk_mat 0 (tab_n_var tab) [])
      else if n_eq =? Z.of_nat (tab_n_var tab) then Ok (isl_mat_identity (tab_n_var tab))
      else
        let rows := tab_equalities_rows (take (tab_n_con tab) (tab_con tab)) 0 tab bset in
        if negb (Z.of_nat (length rows) =? n_eq) then Null
        else Ok (mk_mat (Z.to_nat n_eq) (tab_n_var tab) rows)
  end.

Definition initial_basis (tab : isl_tab T) : option isl_mat :=
  let n_eq := tab_eq_count tab in
  if tab_empty tab || (n_eq =? 0) || (n_eq =? Z.of_nat (tab_n_var tab))
  then Some (isl_mat_identity (1 + tab_n_var tab))
  else
    match tab_equalities tab with
    | Ok eq =>
        match isl_mat_left_hermite eq 0 with
        | Some (_, _, Q) => Some (isl_mat_lin_to_aff Q)
        | None => None
        end
    | _ => None
    end.

(** The variables of the search loop.  [s_opt] is the policy block of the
    context, which the loop writes. *)
Record search : Type := mk_search {
  s_tab : isl_tab T;
  s_opt : isl_options;
  s_min : list Z;
  s_max : list Z;
  s_snap : list undo;
  s_level : Z;
  s_init : bool;
  s_reduced : bool
}.

(** How one iteration of the loop ends: with [continue] (or by falling off
    the end of the body), with [break], with [goto error], or in a
    dereference of NULL or an access out of range. *)
Inductive step_out : Type :=
| Continue (s : search)
| Break (s : search)
| GotoError (o : isl_options)
| Crash (o : isl_options).

(** [tab->basis->row[1 + level]] with its coefficients negated; nothing
    when there is no basis or the row is not within it. *)
Definition neg_basis_row (dim : nat) (lv : nat) (tab : isl_tab T) : option (isl_tab T) :=
  match tab_basis tab with
  | None => None
  | Some b =>
      if negb (row_in_range dim b (1 + lv)) then None
      else
        Some (set_basis
                (Some (set_mrow b (1 + lv) (seq_neg_range (mrow b (1 + lv)) 1 dim))) tab)
  end.

(** [tab->basis->row[1 + level][0] = c]; nothing when there is no basis or
    the row is not within it. *)
Definition set_basis_const (dim : nat) (lv : nat) (c : Z) (tab : isl_tab T)
    : option (isl_tab T) :=
  match tab_basis tab with
  | None => None
  | Some b =>
      if negb (row_in_range dim b (1 + lv)) then None
      else Some (set_basis (Some (set_mrow b (1 + lv) (<[O := c]> (mrow b (1 + lv))))) tab)
  end.

(** The part of the loop body after the bounds of the level are known:
    backtrack when the range is exhausted, otherwise pin [min[level]] and
    descend or stop. *)
Definition step_pin (dim : nat) (tab : isl_tab T) (o : isl_options)
    (mn mx : list Z) (snap : list undo) (level : Z) (empty reduced : bool)
    (evs : list event) : list event * step_out :=
  let lv := Z.to_nat level in
  if empty || (el mx lv <? el mn lv) then
    let level' := level - 1 in
    if 0 <=? level' then
      match snap !! Z.to_nat level' with
      | None => (evs, Crash o)
      | Some u =>
          match isl_tab_rollback tab u with
          | None => (evs ++ [EvRollback level'], GotoError o)
          | Some tab' =>
              (evs ++ [EvRollback level'],
               Continue (mk_search tab' o mn mx snap level' false reduced))
          end
      end
    else (evs, Continue (mk_search tab o mn mx snap level' false reduced))
  else
    match set_basis_const dim lv (- el mn lv) tab with
    | None => (evs, Crash o)
    | Some tab1 =>
        let row := match tab_basis tab1 with Some b => mrow b (1 + lv) | None => [] end in
        match isl_tab_add_valid_eq tab1 row with
        | None => (evs ++ [EvPin level (el mn lv)], Crash o)
        | Some tab2 =>
            match set_basis_const dim lv 0 tab2 with
            | None => (evs ++ [EvPin level (el mn lv)], Crash o)
            | Some tab3 =>
                if u32 (level + Z.of_nat (tab_n_unbounded tab3)) <? u32 (Z.of_nat dim - 1)
                then (evs ++ [EvPin level (el mn lv)],
                      Continue (mk_search tab3 o mn mx snap (level + 1) true reduced))
                else (evs ++ [EvPin level (el mn lv)],
                      Break (mk_search tab3 o mn mx snap level true reduced))
            end
        end
    end.

(** How the computation of the bounds of a level ends: with the tableau,
    the arrays [min] and [max] and the flag [empty]; with [break], because
    the tableau's sample point is integer; with [goto error]; or in a
    dereference of NULL. *)
Inductive bounds_out : Type :=
| BoundsKnown (tab : isl_tab T) (mn mx : list Z) (empty : bool)
| BoundsBreak (tab : isl_tab T) (mn mx : list Z)
| BoundsError
| BoundsCrash.

(** The first part of the loop body when [init] is set: the minimum and
    the maximum of the basis direction of the level.  A result other than
    [isl_lp_ok] leaves the element of [min] or [max] as it was.  A read of
    [tab->basis->row[1 + level]] beyond the rows of the basis is a crash. *)
Definition step_bounds (dim lv : nat) (tab : isl_tab T) (mn0 mx0 : list Z)
    : bounds_out :=
  match tab_basis tab with
  | None => BoundsCrash
  | Some b =>
      if negb (row_in_range dim b (1 + lv)) then BoundsCrash else
      let '(res, tab1) := isl_tab_min tab (mrow b (1 + lv)) 1 in
      let mn := match res with isl_lp_ok v => <[lv := v]> mn0 | _ => mn0 end in
      let empty := match res with isl_lp_empty => true | _ => false end in
      match res with
      | isl_lp_unbounded | isl_lp_error => BoundsError
      | _ =>
          if negb empty && isl_tab_sample_is_integer tab1 then BoundsBreak tab1 mn mx0
          else
            match neg_basis_row dim lv tab1 with
            | None => BoundsCrash
            | Some tabn =>
                let rown :=
                  match tab_basis tabn with Some b => mrow b (1 + lv) | None => [] end in
                let '(res2, tab2) := isl_tab_min tabn rown 1 in
                let mx := match res2 with isl_lp_ok v => <[lv := v]> mx0 | _ => mx0 end in
                match neg_basis_row dim lv tab2 with
                | None => BoundsCrash
                | Some tab3 =>
                    let mx := <[lv := - el mx lv]> mx in
                    let empty := match res2 with isl_lp_empty => true | _ => empty end in
                    match res2 with
                    | isl_lp_unbounded | isl_lp_error => BoundsError
                    | _ =>
                        if negb empty && isl_tab_sample_is_integer tab3
                        then BoundsBreak tab3 mn mx
                        else BoundsKnown tab3 mn mx empty
                    end
                end
            end
      end
  end.

(** The basis reduction inside the loop body. *)
Definition step_reduce (tab : isl_tab T) (o : isl_options) (mn mx : list Z)
    (snap : list undo) (level : Z) : list event * step_out :=
  let o1 := if gbr_mode_eqb (gbr o) ISL_GBR_ONCE then set_gbr ISL_GBR_NEVER o else o in
  let tab1 := set_n_zero (Z.to_nat (u32 level)) tab in
  let gbr_only_first0 := gbr_only_first o1 in
  let o2 := set_gbr_only_first (if gbr_mode_eqb (gbr o1) ISL_GBR_ALWAYS then 1 else 0) o1 in
  let r := isl_tab_compute_reduced_basis o2 tab1 in
  let o3 := set_gbr_only_first gbr_only_first0 o2 in
  match r with
  | None => ([EvReduce level], GotoError o3)
  | Some tab2 =>
      match tab_basis tab2 with
      | None => ([EvReduce level], GotoError o3)
      | Some _ => ([EvReduce level], Continue (mk_search tab2 o3 mn mx snap level true true))
      end
  end.

(** One iteration of [while (level >= 0)], entered with [level >= 0].  An
    access to [min], [max] or [snap] beyond their elements, or to a row of
    the basis beyond its rows, is a [Crash]. *)
Definition step (dim : nat) (s : search) : list event * step_out :=
  let level := s_level s in
  let lv := Z.to_nat level in
  let o := s_opt s in
  if negb (Nat.ltb lv (length (s_min s)) && Nat.ltb lv (length (s_max s))
           && Nat.ltb lv (length (s_snap s)))
  then ([], Crash o)
  else if s_init s then
    match step_bounds dim lv (s_tab s) (s_min s) (s_max s) with
    | BoundsCrash => ([], Crash o)
    | BoundsError => ([], GotoError o)
    | BoundsBreak tab mn mx =>
        ([], Break (mk_search tab o mn mx (s_snap s) level true (s_reduced s)))
    | BoundsKnown tab mn mx empty =>
        if negb empty && negb (s_reduced s)
           && negb (gbr_mode_eqb (gbr o) ISL_GBR_NEVER)
           && (el mn lv <? el mx lv)
        then step_reduce tab o mn mx (s_snap s) level
        else
          let snap := <[lv := isl_tab_snap tab]> (s_snap s) in
          step_pin dim tab o mn mx snap level empty false
            [EvSnap level (if empty then None else Some (el mn lv, el mx lv))]
    end
  else
    let mn := <[lv := el (s_min s) lv + 1]> (s_min s) in
    step_pin dim (s_tab s) o mn (s_max s) (s_snap s) level false (s_reduced s) [].

(** How the loop ends. *)
Inductive loop_out : Type :=
| LoopDone (s : search)          (* left by [break] or with [level < 0] *)
| LoopError (o : isl_options)    (* [goto error] *)
| LoopCrash (o : isl_options)
| LoopOutOfFuel (s : search).

(** The loop, run for at most [fuel] iterations, with the calls it makes. *)
Fixpoint search_loop (fuel : nat) (dim : nat) (s : search) : list event * loop_out :=
  if s_level s <? 0 then ([], LoopDone s)
  else
    match fuel with
    | O => ([], LoopOutOfFuel s)
    | S fuel' =>
        let '(evs, out) := step dim s in
        match out with
        | Continue s' =>
            let '(evs', r) := search_loop fuel' dim s' in (evs ++ evs', r)
        | Break s' => (evs, LoopDone s')
        | GotoError o => (evs, LoopError o)
        | Crash o => (evs, LoopCrash o)
        end
    end.

(** [basis^-1 * ceil(basis * sample)]. *)
Definition round_in_basis (tab : isl_tab T) (sample : isl_vec) : option isl_vec :=
  match tab_basis tab with
  | None => None
  | Some b =>
      match isl_mat_vec_product b sample with
      | None => None
      | Some s1 =>
          match isl_vec_ceil s1 with
          | None => None
          | Some s2 => isl_mat_vec_inverse_product b s2
          end
      end
  end.

(** The code after the loop, up to the restoring of [ctx->opt->gbr]. *)
Definition search_finish (gbr0 : gbr_mode) (out : loop_out) : res isl_vec * isl_options :=
  match out with
  | LoopDone s =>
      if 0 <=? s_level s then
        match isl_tab_get_sample_value (s_tab s) with
        | None => (Null, set_gbr gbr0 (s_opt s))
        | Some sample =>
            if negb (Nat.eqb (tab_n_unbounded (s_tab s)) 0) && negb (el sample 0 =? 1)
            then (of_option (round_in_basis (s_tab s) sample), set_gbr gbr0 (s_opt s))
            else (Ok sample, set_gbr gbr0 (s_opt s))
        end
      else (Ok [], set_gbr gbr0 (s_opt s))
  | LoopError o => (Null, set_gbr gbr0 o)
  | LoopCrash o => (Fault, o)
  | LoopOutOfFuel s => (OutOfFuel, s_opt s)
  end.

(** The contents of freshly allocated arrays [min], [max] and [snap]:
    whatever the allocator hands out, element by element. *)
Record scratch : Type := mk_scratch {
  min0 : nat -> Z;
  max0 : nat -> Z;
  snap0 : nat -> undo
}.

(** An array of [n] elements with the contents [f]. *)
Definition alloc_array {A : Type} (f : nat -> A) (n : nat) : list A :=
  map f (seq 0 n).

(** [isl_tab_sample], with the calls the search makes. *)
Definition isl_tab_sample_trace (fuel : nat) (sc : scratch) (tab : isl_tab T)
    (o : isl_options) : list event * (res isl_vec * isl_options) :=
  if tab_empty tab then ([], (Ok [], o))
  else
    let tab := match tab_basis tab with
               | Some _ => tab
               | None => set_basis (initial_basis tab) tab
               end in
    match tab_basis tab with
    | None => ([], (Null, o))
    | Some b =>
        if negb (Nat.eqb (mat_n_row b) (tab_n_var tab + 1)) then ([], (Null, o))
        else if negb (Nat.eqb (mat_n_col b) (tab_n_var tab + 1)) then ([], (Null, o))
        else
          let dim := tab_n_var tab in
          let gbr0 := gbr o in
          if Nat.eqb (tab_n_unbounded tab) (tab_n_var tab) then
            match isl_tab_get_sample_value tab with
            | None => ([], (Null, o))
            | Some sample => ([], (of_option (round_in_basis tab sample), o))
            end
          else
            match isl_tab_extend_cons tab (dim + 1) with
            | None => ([], (Null, o))
            | Some tab =>
                let '(evs, out) :=
                  search_loop fuel dim
                    (mk_search tab o (alloc_array (min0 sc) dim) (alloc_array (max0 sc) dim)
                       (alloc_array (snap0 sc) dim) 0 true false) in
                (evs, search_finish gbr0 out)
            end
    end.

Definition isl_tab_sample (fuel : nat) (sc : scratch) (tab : isl_tab T) : St isl_vec :=
  fun o => snd (isl_tab_sample_trace fuel sc tab o).

End TabSampler.
Arguments scratch undo : clear implicits.
Arguments search T undo : clear implicits.

(** ** Bounded and unbounded sampling, and the dispatcher *)

Section Dispatcher.

Context {ML : MatLayer} {BL : BsetLayer} {T undo : Type} {TL : TabLayer T undo}.

(** [sample_bounded].  Besides the sample, the result holds the basic set
    as the call leaves it for another holder of a reference: the function
    sets the EMPTY flag and stores the sample in place. *)
Fixpoint sample_bounded (fuel : nat) (sc : scratch undo) (bset : isl_basic_set)
    : St (isl_vec * isl_basic_set) :=
  match fuel with
  | O => st_ret OutOfFuel
  | S fuel' =>
      if isl_basic_set_fast_is_empty bset then st_ret (Ok (empty_sample bset, bset))
      else
        let dim := isl_basic_set_total_dim bset in
        if Nat.eqb dim 0 then st_ret (Ok (zero_sample bset, bset))
        else if Nat.eqb dim 1 then
          st_ret (res_bind (interval_sample bset) (fun s => Ok (s, bset)))
        else if Nat.ltb 0 (n_eq bset) then
          st_bind
            (sample_eq bset (fun b =>
               st_bind (sample_bounded fuel' sc b) (fun r => st_ret (Ok (fst r)))))
            (fun s => st_ret (Ok (s, bset)))
        else
          match isl_tab_from_basic_set bset with
          | None => st_ret Null
          | Some tab =>
              if tab_empty tab then st_ret (Ok ([], set_flag_empty bset))
              else
                match isl_tab_track_bset tab bset with
                | None => st_ret Null
                | Some tab =>
                    match (if bset_flag_no_implicit bset then Some tab
                           else isl_tab_detect_implicit_equalities tab) with
                    | None => st_ret Null
                    | Some tab =>
                        st_bind (isl_tab_sample fuel sc tab) (fun sample =>
                          st_ret (Ok (sample,
                                      if Nat.ltb 0 (length sample)
                                      then set_sample (Some sample) bset
                                      else bset)))
                    end
                end
          end
  end.

(** The matrix of [plug_in]: the sample in the first column, the identity
    on the remaining coordinates. *)
Definition plug_in_matrix (total : nat) (sample : isl_vec) : isl_mat :=
  let n_col := usub (1 + total) (usub (length sample) 1) in
  mk_mat (1 + total) n_col
    (map (fun x => x :: replicate (usub n_col 1) 0) sample
     ++ map (fun i => <[(1 + i)%nat := 1]> (replicate n_col 0)) (seq 0 (usub n_col 1))).

Definition plug_in (bset : option isl_basic_set) (sample : option isl_vec)
    : option isl_basic_set :=
  match bset, sample with
  | Some bset, Some sample =>
      isl_basic_set_preimage bset (plug_in_matrix (isl_basic_set_total_dim bset) sample)
  | _, _ => None
  end.

Definition rational_sample (bset : option isl_basic_set) : option isl_vec :=
  match bset with
  | None => None
  | Some bset =>
      match isl_tab_from_basic_set bset with
      | None => None
      | Some tab => isl_tab_get_sample_value tab
      end
  end.

(** One constraint of [shift_cone]: the coefficients of the cone's
    inequality, with constant  - ceil(<a, v> / d) + (sum of the negative a_j). *)
Definition shift_row (total : nat) (vec : isl_vec) (c : list Z) : list Z :=
  let coeffs := take total (drop 1 c) in
  let b := isl_seq_inner_product coeffs (drop 1 vec) total in
  let c0 := - isl_int_cdiv_q b (el vec 0) in
  fold_left (fun acc a => if 0 <=? a then acc else acc + a) coeffs c0 :: coeffs.

Definition shift_cone (cone : option isl_basic_set) (vec : option isl_vec)
    : option isl_basic_set :=
  match cone, vec with
  | Some cone, Some vec =>
      if negb (Nat.eqb (n_eq cone) 0) then None
      else
        let total := isl_basic_set_total_dim cone in
        isl_basic_set_finalize
          (mk_bset (bset_nparam cone) (bset_dim cone) 0 []
             (map (shift_row total vec) (bset_ineq cone)) false false None)
  | _, _ => None
  end.

Definition round_up_in_cone (vec : option isl_vec) (cone : option isl_basic_set)
    (U : option isl_mat) : res isl_vec :=
  match vec, cone, U with
  | Some vec, Some cone, Some U =>
      if Nat.eqb (length vec) 0 then Null
      else if el vec 0 =? 1 then Ok vec
      else
        let total := isl_basic_set_total_dim cone in
        let cone1 := isl_basic_set_preimage cone U in
        let cone2 :=
          match cone1 with
          | None => None
          | Some c => isl_basic_set_remove_dims c 0 (usub total (usub (length vec) 1))
          end in
        let cone3 := shift_cone cone2 (Some vec) in
        match rational_sample cone3 with
        | None => Null
        | Some v => of_option (isl_vec_ceil v)
        end
  | _, _, _ => Null
  end.

Definition vec_concat (vec1 vec2 : option isl_vec) : option isl_vec :=
  match vec1, vec2 with
  | Some vec1, Some vec2 =>
      if negb (Nat.ltb 0 (length vec1)) then None
      else if negb (Nat.ltb 0 (length vec2)) then None
      else if negb (el vec1 0 =? 1) then None
      else if negb (el vec2 0 =? 1) then None
      else Some (vec1 ++ drop 1 vec2)
  | _, _ => None
  end.

(** The loop of [drop_constraints_involving], over the inequalities
    i-1, ..., 0. *)
Fixpoint drop_constraints_loop (i : nat) (bset : isl_basic_set) (first n : nat)
    : isl_basic_set :=
  match i with
  | O => bset
  | S i' =>
      drop_constraints_loop i'
        (if isl_seq_first_non_zero (drop (1 + first) (nth i' (bset_ineq bset) [])) n =? -1
         then bset
         else isl_basic_set_drop_inequality bset i')
        first n
  end.

Definition drop_constraints_involving (bset : isl_basic_set) (first n : nat)
    : isl_basic_set :=
  drop_constraints_loop (n_ineq bset) bset first n.

Definition isl_basic_set_sample_with_cone (fuel : nat) (sc : scratch undo)
    (bset cone : isl_basic_set) : St isl_vec :=
  let total := isl_basic_set_total_dim cone in
  let cone_dim := usub total (n_eq cone) in
  let M := isl_mat_sub_alloc (bset_eq cone) 0 (n_eq cone) 1 total in
  match isl_mat_left_hermite M 0 with
  | None => st_ret Null
  | Some (_, U, _) =>
      let U := isl_mat_lin_to_aff U in
      let bset := isl_basic_set_preimage bset U in
      let bounded :=
        match bset with
        | None => None
        | Some b =>
            isl_basic_set_drop_dims
              (drop_constraints_involving b (usub total cone_dim) cone_dim)
              (usub total cone_dim) cone_dim
        end in
      match bounded with
      | None => st_ret Null
      | Some bounded =>
          st_bind (sample_bounded fuel sc bounded) (fun r =>
            let sample := fst r in
            if Nat.eqb (length sample) 0 then st_ret (Ok sample)
            else
              let bset := plug_in bset (Some sample) in
              let cone_sample := rational_sample bset in
              match round_up_in_cone cone_sample (Some cone) (Some U) with
              | Ok cone_sample =>
                  match vec_concat (Some sample) (Some cone_sample) with
                  | None => st_ret Null
                  | Some sample => st_ret (of_option (isl_mat_vec_product U sample))
                  end
              | r => st_ret (res_bind r (fun _ => Null))
              end)
      end
  end.

Definition gbr_sample (fuel : nat) (sc : scratch undo) (bset : isl_basic_set)
    : St (isl_vec * isl_basic_set) :=
  let dim := isl_basic_set_total_dim bset in
  match isl_basic_set_recession_cone bset with
  | None => st_ret Fault
  | Some cone =>
      if Nat.ltb (n_eq cone) dim
      then st_bind (isl_basic_set_sample_with_cone fuel sc bset cone)
             (fun s => st_ret (Ok (s, bset)))
      else sample_bounded fuel sc bset
  end.

Definition pip_sample (bset : isl_basic_set) : res isl_vec :=
  match isl_basic_set_skew_to_positive_orthant bset with
  | Ok (bset, T) =>
      match isl_pip_basic_set_sample bset with
      | None => Null
      | Some sample =>
          if negb (Nat.eqb (length sample) 0)
          then of_option (isl_mat_vec_product T sample)
          else Ok sample
      end
  | r => res_bind r (fun _ => Null)
  end.

(** [basic_set_sample].  As for [sample_bounded], the result holds the
    basic set as the call leaves it for another holder of a reference: the
    dispatcher clears a cached sample it does not return, in place, and
    under the PIP back end [isl_basic_set_skew_to_positive_orthant] has
    moved the unit rows of the set up, in place as well. *)
Fixpoint basic_set_sample (fuel : nat) (sc : scratch undo) (bset : isl_basic_set)
    (bounded : bool) : St (isl_vec * isl_basic_set) :=
  match fuel with
  | O => st_ret OutOfFuel
  | S fuel' =>
      if isl_basic_set_fast_is_empty bset then st_ret (Ok (empty_sample bset, bset))
      else
        let dim := isl_basic_set_n_dim bset in
        if negb (Nat.eqb (isl_basic_set_n_param bset) 0) then st_ret Null
        else if negb (Nat.eqb (bset_n_div bset) 0) then st_ret Null
        else
          let rest : St (isl_vec * isl_basic_set) :=
            let bset := set_sample None bset in
            if Nat.ltb 0 (n_eq bset) then
              st_bind
                (sample_eq bset (fun b =>
                   st_bind (basic_set_sample fuel' sc b bounded)
                     (fun r => st_ret (Ok (fst r)))))
                (fun s => st_ret (Ok (s, bset)))
            else if Nat.eqb dim 0 then st_ret (Ok (zero_sample bset, bset))
            else if Nat.eqb dim 1 then
              st_ret (res_bind (interval_sample bset) (fun s => Ok (s, bset)))
            else
              fun o =>
                match ilp_solver o with
                | ISL_ILP_PIP =>
                    st_ret (res_bind (pip_sample bset)
                              (fun s => Ok (s, skew_leaves bset))) o
                | ISL_ILP_GBR =>
                    if bounded then sample_bounded fuel sc bset o
                    else gbr_sample fuel sc bset o
                end
          in
          match bset_sample bset with
          | Some sample =>
              if Nat.eqb (length sample) (1 + dim) then
                let contains := isl_basic_set_contains bset sample in
                if contains <? 0 then st_ret Null
                else if negb (contains =? 0) then st_ret (Ok (sample, bset))
                else rest
              else rest
          | None => rest
          end
  end.

Definition isl_basic_set_sample_vec (fuel : nat) (sc : scratch undo)
    (bset : isl_basic_set) : St (isl_vec * isl_basic_set) :=
  basic_set_sample fuel sc bset false.

Definition isl_basic_set_sample_bounded (fuel : nat) (sc : scratch undo)
    (bset : isl_basic_set) : St (isl_vec * isl_basic_set) :=
  basic_set_sample fuel sc bset true.

End Dispatcher.

(** ** The singleton set of a vector *)

(** The loop of [isl_basic_set_from_vec], for i-1, ..., 0: the equality of
    dimension [i-1] is  vec[0] * x_(i-1) - vec[1 + (i-1)] = 0. *)
Fixpoint from_vec_eqs (i : nat) (dim : nat) (vec : isl_vec) : list (list Z) :=
  match i with
  | O => []
  | S i' =>
      <[(1 + i')%nat := el vec 0]> (<[O := - el vec (1 + i')]> (replicate (1 + dim) 0))
      :: from_vec_eqs i' dim vec
  end.

Definition isl_basic_set_from_vec (vec : option isl_vec) : option isl_basic_set :=
  match vec with
  | None => None
  | Some vec =>
      if Nat.eqb (length vec) 0 then None
      else
        let dim := (length vec - 1)%nat in
        Some (mk_bset 0 dim 0 (from_vec_eqs dim dim vec) [] false false (Some vec))
  end.

(** ** Samples of basic maps and of maps *)

(** [struct isl_basic_map]: the struct of a basic set, with the set
    dimensions split into input and output dimensions. *)
Record isl_basic_map : Type := mk_bmap {
  bmap_nparam : nat;
  bmap_n_in : nat;
  bmap_n_out : nat;
  bmap_n_div : nat;
  bmap_eq : list (list Z);
  bmap_ineq : list (list Z);
  bmap_flag_empty : bool;        (* ISL_BASIC_MAP_EMPTY *)
  bmap_sample : option isl_vec
}.

(** [struct isl_map]: the array [p] of its [n] basic maps. *)
Record isl_map : Type := mk_map {
  map_p : list isl_basic_map
}.

(** Map layer (isl_map.c). *)
Class MapLayer : Type := {
  isl_basic_map_underlying_set : isl_basic_map -> option isl_basic_set;
  isl_basic_map_empty_like : isl_basic_map -> option isl_basic_map;
  isl_basic_map_overlying_set : isl_basic_set -> isl_basic_map -> option isl_basic_map;
  isl_basic_map_empty_like_map : isl_map -> option isl_basic_map
}.

Section MapSampler.

Context {ML : MatLayer} {BL : BsetLayer} {T undo : Type} {TL : TabLayer T undo}
        {PL : MapLayer}.

Definition isl_basic_map_sample (fuel : nat) (sc : scratch undo)
    (bmap : option isl_basic_map) : St isl_basic_map :=
  match bmap with
  | None => st_ret Null
  | Some bmap =>
      match isl_basic_map_underlying_set bmap with
      | None => st_ret Null
      | Some bset =>
          st_bind (isl_basic_set_sample_vec fuel sc bset) (fun r =>
            let sample_vec := fst r in
            if Nat.eqb (length sample_vec) 0
            then st_ret (of_option (isl_basic_map_empty_like bmap))
            else
              match isl_basic_set_from_vec (Some sample_vec) with
              | None => st_ret Null
              | Some bset => st_ret (of_option (isl_basic_map_overlying_set bset bmap))
              end)
      end
  end.

(** The loop of [isl_map_sample] over the basic maps p[i], p[i+1], ...: the
    sample at which it stops by [break], or nothing when it runs to the
    end. *)
Fixpoint isl_map_sample_loop (fuel : nat) (sc : scratch undo)
    (ps : list isl_basic_map) : St (option isl_basic_map) :=
  match ps with
  | [] => st_ret (Ok None)
  | p :: ps' =>
      st_bind (isl_basic_map_sample fuel sc (Some p)) (fun sample =>
        if negb (bmap_flag_empty sample) then st_ret (Ok (Some sample))
        else isl_map_sample_loop fuel sc ps')
  end.

Definition isl_map_sample (fuel : nat) (sc : scratch undo) (map : option isl_map)
    : St isl_basic_map :=
  match map with
  | None => st_ret Null
  | Some map =>
      st_bind (isl_map_sample_loop fuel sc (map_p map)) (fun found =>
        match found with
        | Some sample => st_ret (Ok sample)
        | None => st_ret (of_option (isl_basic_map_empty_like_map map))
        end)
  end.

(** [isl_set_sample]: a set is a map, and the sample a basic set. *)
Definition isl_set_sample (fuel : nat) (sc : scratch undo) (set : option isl_map)
    : St isl_basic_map :=
  isl_map_sample fuel sc set.

End MapSampler.

(** ** The initial basis of a possibly unbounded tableau *)

(** [vec_sum_of_neg]: the sum of the negative elements of a vector. *)
Definition vec_sum_of_neg (v : isl_vec) : Z :=
  fold_left (fun s x => if x <? 0 then s + x else s) v 0.

(** What [tab_shift_cone] and [isl_tab_set_initial_basis_with_cone] need
    of the matrix layer and of the tableau engine besides the above.
    [isl_tab_is_equality] returns a C integer; [isl_tab_extend] returns the
    tableau or NULL; [isl_tab_add_ineq] changes the tableau in place and
    reports failure by a negative integer, here [None]. *)
Class ConeLayer (T : Type) : Type := {
  isl_vec_mat_product : isl_vec -> isl_mat -> option isl_vec;
  isl_mat_concat : isl_mat -> isl_mat -> option isl_mat;
  isl_tab_is_equality : isl_tab T -> Z -> Z;
  isl_tab_extend : isl_tab T -> nat -> option (isl_tab T);
  isl_tab_add_ineq : isl_tab T -> list Z -> option (isl_tab T)
}.

Definition set_n_unbounded {T : Type} (n : nat) (t : isl_tab T) : isl_tab T :=
  mk_tab (tab_n_var t) (tab_n_con t) (tab_n_eq t) (tab_n_col t) (tab_n_dead t)
    n (tab_n_zero t) (tab_empty t) (tab_basis t) (tab_con t) (tab_bset t)
    (tab_core t).

(** How [tab_shift_cone] ends: with 0 and the tableau as the added
    constraints leave it, with -1, or in a dereference of NULL. *)
Inductive shift_out (T : Type) : Type :=
| ShiftDone (tab : isl_tab T)
| ShiftError
| ShiftFault.
Arguments ShiftDone {T} tab.
Arguments ShiftError {T}.
Arguments ShiftFault {T}.

Section ShiftCone.

Context {ML : MatLayer} {T undo : Type} {TL : TabLayer T undo} {CL : ConeLayer T}.

(** The loop of [tab_shift_cone] over the inequalities i, i+1, ... of the
    basic set of the cone's tableau.  [ineqs] is the array of these
    inequalities, which the loop writes and restores; the result holds the
    array as the loop leaves it and the rows handed to [isl_tab_add_ineq],
    in order. *)
Fixpoint tab_shift_cone_loop (todo : nat) (i : nat) (tab : isl_tab T)
    (tab_cone : isl_tab T) (U : isl_mat) (ineqs : list (list Z))
    (added : list (list Z)) : list (list Z) * list (list Z) * shift_out T :=
  match todo with
  | O => (ineqs, added, ShiftDone tab)
  | S todo' =>
      if negb (isl_tab_is_equality tab_cone (Z.of_nat (tab_n_eq tab_cone) + Z.of_nat i) =? 0)
      then tab_shift_cone_loop todo' (S i) tab tab_cone U ineqs added
      else
        let row := take (tab_n_var tab_cone) (drop 1 (nth i ineqs [])) in
        match isl_vec_mat_product row U with
        | None => (ineqs, added, ShiftError)
        | Some row =>
            let v := vec_sum_of_neg row in
            if v =? 0 then tab_shift_cone_loop todo' (S i) tab tab_cone U ineqs added
            else
              let tab' := isl_tab_extend tab 1 in
              let ineqs1 := <[i := <[O := el (nth i ineqs []) 0 + v]> (nth i ineqs [])]> ineqs in
              let shifted := nth i ineqs1 [] in
              let r := match tab' with
                       | Some t => isl_tab_add_ineq t shifted
                       | None => None
                       end in
              let ineqs2 := <[i := <[O := el shifted 0 - v]> shifted]> ineqs1 in
              match r with
              | None =>
                  (ineqs2, match tab' with Some _ => added ++ [shifted] | None => added end,
                   ShiftError)
              | Some tab'' =>
                  tab_shift_cone_loop todo' (S i) tab'' tab_cone U ineqs2 (added ++ [shifted])
              end
        end
  end.

Definition tab_shift_cone (tab tab_cone : option (isl_tab T)) (U : option isl_mat)
    : list (list Z) * list (list Z) * shift_out T :=
  let cone_ineqs :=
    match tab_cone with
    | Some tc => match tab_bset tc with Some b => bset_ineq b | None => [] end
    | None => []
    end in
  match tab with
  | Some t =>
      if Nat.eqb (tab_n_unbounded t) 0 then (cone_ineqs, [], ShiftDone t)
      else
        match tab_cone, U with
        | Some tc, Some U =>
            match tab_bset tc with
            | None => (cone_ineqs, [], ShiftFault)
            | Some bset =>
                let U := isl_mat_drop_cols U 0 (usub (tab_n_var t) (tab_n_unbounded t)) in
                tab_shift_cone_loop (n_ineq bset) 0 t tc U (bset_ineq bset) []
            end
        | _, _ => (cone_ineqs, [], ShiftError)
        end
  | None => (cone_ineqs, [], ShiftError)
  end.

(** [isl_tab_set_initial_basis_with_cone]: the integer it returns and the
    tableau as it leaves it ([None] once the tableau has been lost). *)
Definition isl_tab_set_initial_basis_with_cone (tab tab_cone : option (isl_tab T))
    : res (Z * option (isl_tab T)) :=
  match tab, tab_cone with
  | Some t, Some tc =>
      if Nat.eqb (tab_n_col tc) (tab_n_dead tc) then
        let t := set_basis (initial_basis t) t in
        Ok (match tab_basis t with Some _ => 0 | None => -1 end, Some t)
      else
        match tab_equalities t with
        | Ok eq =>
            let t := set_n_zero (mat_n_row eq) t in
            match tab_equalities tc with
            | Ok cone_eq =>
                match isl_mat_concat eq cone_eq with
                | None => Ok (-1, Some t)
                | Some eq =>
                    let t := set_n_unbounded
                               (usub (tab_n_var t) (usub (mat_n_row eq) (tab_n_zero t))) t in
                    match isl_mat_left_hermite eq 0 with
                    | None => Ok (-1, Some t)
                    | Some (_, U, Q) =>
                        let t := set_basis (Some (isl_mat_lin_to_aff Q)) t in
                        match tab_shift_cone (Some t) (Some tc) (Some U) with
                        | (_, _, ShiftDone t) =>
                            Ok (match tab_basis t with Some _ => 0 | None => -1 end, Some t)
                        | (_, _, ShiftError) => Ok (-1, None)
                        | (_, _, ShiftFault) => Fault
                        end
                    end
                end
            | Null => Ok (-1, Some t)
            | Fault => Fault
            | OutOfFuel => OutOfFuel
            end
        | Null => Ok (-1, Some t)
        | Fault => Fault
        | OutOfFuel => OutOfFuel
        end
  | _, _ => Ok (-1, tab)
  end.

End ShiftCone.

(** ** Schedule constraints (isl_schedule_constraints.c) *)

(** [enum isl_edge_type], the kinds of constraints of a schedule. *)
Inductive isl_edge_type : Type :=
| isl_edge_validity
| isl_edge_coincidence
| isl_edge_condition
| isl_edge_conditional_validity
| isl_edge_proximity.

#[global] Instance isl_edge_type_eq_dec : EqDecision isl_edge_type.
Proof. solve_decision. Defined.

Definition isl_edge_type_eqb (a b : isl_edge_type) : bool :=
  match a, b with
  | isl_edge_validity, isl_edge_validity
  | isl_edge_coincidence, isl_edge_coincidence
  | isl_edge_condition, isl_edge_condition
  | isl_edge_conditional_validity, isl_edge_conditional_validity
  | isl_edge_proximity, isl_edge_proximity => true
  | _, _ => false
  end.

(** The union sets, union maps, sets and spaces of the library
    (isl_union_map.c, isl_map.c, isl_space.c); a NULL pointer is [None]. *)
Class UnionLayer (uset umap iset space : Type) : Type := {
  isl_union_set_get_space : option uset -> option space;
  isl_set_universe : option space -> option iset;
  isl_union_map_empty : option space -> option umap;
  isl_union_map_union : option umap -> option umap -> option umap;
  isl_union_map_curry : option umap -> option umap;
  isl_union_map_uncurry : option umap -> option umap;
  isl_union_map_reverse : option umap -> option umap;
  isl_union_map_apply_domain : option umap -> option umap -> option umap;
  isl_union_map_apply_range : option umap -> option umap -> option umap;
  isl_union_set_apply : option uset -> option umap -> option uset;
  isl_union_map_n_map : option umap -> Z
}.

Section ScheduleConstraints.

Context {uset umap iset space : Type} {UL : UnionLayer uset umap iset space}.

(** [struct isl_schedule_constraints]; the array [constraint] is indexed by
    the kind of constraint. *)
Record isl_schedule_constraints : Type := mk_sc {
  sc_domain : option uset;
  sc_context : option iset;
  sc_constraint : isl_edge_type -> option umap
}.

(** [sc->constraint[type] = c]. *)
Definition set_constraint (type : isl_edge_type) (c : option umap)
    (sc : isl_schedule_constraints) : isl_schedule_constraints :=
  mk_sc (sc_domain sc) (sc_context sc)
    (fun t => if isl_edge_type_eqb type t then c else sc_constraint sc t).

(** The loops [for (i = isl_edge_first; i <= isl_edge_last; ++i)] visit the
    kinds in the order of the enumeration, which the header
    isl_schedule_constraints.h fixes; the functions with such a loop take
    this order as their first argument [edge_order]. *)

(** [isl_schedule_constraints_copy]; the source reads [sc->domain] without
    a test of [sc]. *)
Definition isl_schedule_constraints_copy (edge_order : list isl_edge_type)
    (sc : option isl_schedule_constraints)
    : res isl_schedule_constraints :=
  match sc with
  | None => Fault
  | Some sc =>
      match sc_domain sc, sc_context sc with
      | Some _, Some _ =>
          if forallb (fun t => match sc_constraint sc t with Some _ => true | None => false end)
               edge_order
          then Ok (mk_sc (sc_domain sc) (sc_context sc)
                     (fun t => if existsb (isl_edge_type_eqb t) edge_order
                               then sc_constraint sc t else None))
          else Null
      | _, _ => Null
      end
  end.

Definition isl_schedule_constraints_on_domain (edge_order : list isl_edge_type)
    (domain : option uset)
    : option isl_schedule_constraints :=
  match domain with
  | None => None
  | Some d =>
      let space := isl_union_set_get_space (Some d) in
      let context := isl_set_universe space in
      let empty := isl_union_map_empty space in
      (* every element of [constraint] is a copy of [empty]; whenever that
         is NULL, the domain is freed *)
      let domain :=
        fold_left (fun dom _ => match empty with Some _ => dom | None => None end)
          edge_order (Some d) in
      match domain, context with
      | Some _, Some _ =>
          Some (mk_sc domain context
                  (fun t => if existsb (isl_edge_type_eqb t) edge_order then empty else None))
      | _, _ => None
      end
  end.

Definition isl_schedule_constraints_set_context (sc : option isl_schedule_constraints)
    (context : option iset) : option isl_schedule_constraints :=
  match sc, context with
  | Some sc, Some context => Some (mk_sc (sc_domain sc) (Some context) (sc_constraint sc))
  | _, _ => None
  end.

Definition isl_schedule_constraints_set (sc : option isl_schedule_constraints)
    (type : isl_edge_type) (c : option umap) : option isl_schedule_constraints :=
  match sc, c with
  | Some sc, Some c => Some (set_constraint type (Some c) sc)
  | _, _ => None
  end.

Definition isl_schedule_constraints_set_validity sc validity :=
  isl_schedule_constraints_set sc isl_edge_validity validity.

Definition isl_schedule_constraints_set_coincidence sc coincidence :=
  isl_schedule_constraints_set sc isl_edge_coincidence coincidence.

Definition isl_schedule_constraints_set_proximity sc proximity :=
  isl_schedule_constraints_set sc isl_edge_proximity proximity.

Definition isl_schedule_constraints_set_conditional_validity
    (sc : option isl_schedule_constraints) (condition validity : option umap)
    : option isl_schedule_constraints :=
  let sc := isl_schedule_constraints_set sc isl_edge_condition condition in
  isl_schedule_constraints_set sc isl_edge_conditional_validity validity.

Definition isl_schedule_constraints_get_domain (sc : option isl_schedule_constraints)
    : option uset :=
  match sc with
  | None => None
  | Some sc => sc_domain sc
  end.

Definition isl_schedule_constraints_get_context (sc : option isl_schedule_constraints)
    : option iset :=
  match sc with
  | None => None
  | Some sc => sc_context sc
  end.

Definition isl_schedule_constraints_get (sc : option isl_schedule_constraints)
    (type : isl_edge_type) : option umap :=
  match sc with
  | None => None
  | Some sc => sc_constraint sc type
  end.

Definition isl_schedule_constraints_get_validity sc :=
  isl_schedule_constraints_get sc isl_edge_validity.

Definition isl_schedule_constraints_get_coincidence sc :=
  isl_schedule_constraints_get sc isl_edge_coincidence.

Definition isl_schedule_constraints_get_proximity sc :=
  isl_schedule_constraints_get sc isl_edge_proximity.

Definition isl_schedule_constraints_get_conditional_validity sc :=
  isl_schedule_constraints_get sc isl_edge_conditional_validity.

Definition isl_schedule_constraints_get_conditional_validity_condition sc :=
  isl_schedule_constraints_get sc isl_edge_condition.

Definition isl_schedule_constraints_add (sc : option isl_schedule_constraints)
    (type : isl_edge_type) (c : option umap) : option isl_schedule_constraints :=
  match sc, c with
  | Some sc, Some c =>
      match isl_union_map_union (sc_constraint sc type) (Some c) with
      | Some c => Some (set_constraint type (Some c) sc)
      | None => None
      end
  | _, _ => None
  end.

Definition may_be_tagged (type : isl_edge_type) : bool :=
  match type with
  | isl_edge_condition | isl_edge_conditional_validity => true
  | _ => false
  end.

Definition apply_factor_domain (c umap0 : option umap) : option umap :=
  let c := isl_union_map_curry c in
  let c := isl_union_map_apply_domain c umap0 in
  let c := isl_union_map_uncurry c in
  let c := isl_union_map_reverse c in
  let c := isl_union_map_curry c in
  let c := isl_union_map_apply_domain c umap0 in
  let c := isl_union_map_uncurry c in
  isl_union_map_reverse c.

Definition apply (c umap0 : option umap) (tag : bool) : option umap :=
  let t := c in
  let c := isl_union_map_apply_domain c umap0 in
  let c := isl_union_map_apply_range c umap0 in
  if negb tag then c
  else isl_union_map_union c (apply_factor_domain t umap0).

(** The loop of [isl_schedule_constraints_apply]: [None] when a result of
    [apply] is NULL. *)
Fixpoint apply_loop (types : list isl_edge_type) (umap0 : option umap)
    (sc : isl_schedule_constraints) : option isl_schedule_constraints :=
  match types with
  | [] => Some sc
  | i :: types' =>
      match apply (sc_constraint sc i) umap0 (may_be_tagged i) with
      | None => None
      | Some c => apply_loop types' umap0 (set_constraint i (Some c) sc)
      end
  end.

Definition isl_schedule_constraints_apply (edge_order : list isl_edge_type)
    (sc : option isl_schedule_constraints)
    (umap0 : option umap) : option isl_schedule_constraints :=
  match sc, umap0 with
  | Some sc, Some _ =>
      match apply_loop edge_order umap0 sc with
      | None => None
      | Some sc =>
          match isl_union_set_apply (sc_domain sc) umap0 with
          | None => None
          | Some d => Some (mk_sc (Some d) (sc_context sc) (sc_constraint sc))
          end
      end
  | _, _ => None
  end.

(** [isl_schedule_constraints_n_map]; the source reads [sc->constraint]
    without a test of [sc]. *)
Definition isl_schedule_constraints_n_map (edge_order : list isl_edge_type)
    (sc : option isl_schedule_constraints) : res Z :=
  match sc with
  | None => Fault
  | Some sc =>
      Ok (fold_left (fun n i => n + isl_union_map_n_map (sc_constraint sc i)) edge_order 0)
  end.

End ScheduleConstraints.
Arguments isl_schedule_constraints uset umap iset : clear implicits.

(** ** Reference collaborators for bounded planar sets

    A small, executable instance of the three collaborator classes, used to
    run the sampler on concrete inputs.  It covers two-dimensional bounded
    sets given by inequalities: the tableau keeps the list of inequalities
    and a current sample point; the minimum of an affine form is found by
    enumerating the vertices (the feasible intersections of two constraint
    lines), and the sample point moves to the vertex where the minimum is
    attained, as it does after the pivots of a simplex tableau.  Basis
    reduction leaves the basis as it is.  The operations that need Hermite
    normal forms or preimages report failure. *)
Module Planar.

(** The tableau's own state: the inequalities (c, a, b), standing for
    c + a x + b y >= 0, and the current sample point (d, d x, d y). *)
Record core : Type := mk_core {
  rows : list (list Z);
  point : isl_vec
}.

(** (d, d x, d y) with d > 0 and no common factor. *)
Definition normalize (v : isl_vec) : isl_vec :=
  let d := el v 0 in
  let g := Z.gcd d (Z.gcd (el v 1) (el v 2)) in
  let s := if d <? 0 then - g else g in
  [d / s; el v 1 / s; el v 2 / s].

(** The intersection of the lines of two constraints, if they cross. *)
Definition crossing (r1 r2 : list Z) : option isl_vec :=
  let det := el r1 1 * el r2 2 - el r2 1 * el r1 2 in
  if det =? 0 then None
  else Some (normalize [det;
                        el r1 2 * el r2 0 - el r2 2 * el r1 0;
                        el r2 1 * el r1 0 - el r1 1 * el r2 0]).

Definition feasible (rs : list (list Z)) (v : isl_vec) : bool :=
  forallb (fun r => 0 <=? isl_seq_inner_product r v 3) rs.

Fixpoint pairs {A : Type} (l : list A) : list (A * A) :=
  match l with
  | [] => []
  | a :: l' => map (fun b => (a, b)) l' ++ pairs l'
  end.

Definition vertices (rs : list (list Z)) : list isl_vec :=
  omap (fun p => match crossing (fst p) (snd p) with
                 | Some v => if feasible rs v then Some v else None
                 | None => None
                 end) (pairs rs).

(** The vertex at which the affine form [f] is least; the first one wins a
    tie. *)
Fixpoint argmin (f : list Z) (best : isl_vec) (vs : list isl_vec) : isl_vec :=
  match vs with
  | [] => best
  | v :: vs' =>
      if isl_seq_inner_product f v 3 * el best 0 <? isl_seq_inner_product f best 3 * el v 0
      then argmin f v vs'
      else argmin f best vs'
  end.

Definition with_core (c : core) (t : isl_tab core) : isl_tab core :=
  mk_tab (tab_n_var t) (tab_n_con t) (tab_n_eq t) (tab_n_col t) (tab_n_dead t)
    (tab_n_unbounded t) (tab_n_zero t) (tab_empty t) (tab_basis t) (tab_con t)
    (tab_bset t) c.

Definition from_basic_set (b : isl_basic_set) : option (isl_tab core) :=
  let rs := bset_ineq b in
  let vs := vertices rs in
  Some (mk_tab (isl_basic_set_total_dim b) (length rs) 0 (isl_basic_set_total_dim b) 0 0 0
          (match vs with [] => true | _ => false end) None [] None
          (mk_core rs (match vs with v :: _ => v | [] => [] end))).

Definition min (t : isl_tab core) (f : list Z) (denom : Z) : isl_lp_result * isl_tab core :=
  match vertices (rows (tab_core t)) with
  | [] => (isl_lp_empty, t)
  | v :: vs =>
      let w := argmin f v vs in
      (isl_lp_ok (isl_int_cdiv_q (isl_seq_inner_product f w 3) (el w 0 * denom)),
       with_core (mk_core (rows (tab_core t)) w) t)
  end.

Definition add_valid_eq (t : isl_tab core) (r : list Z) : option (isl_tab core) :=
  let rs := rows (tab_core t) ++ [r; map Z.opp r] in
  Some (with_core (mk_core rs (match vertices rs with v :: _ => v | [] => point (tab_core t) end)) t).

Definition identity (n : nat) : isl_mat :=
  mk_mat n n (map (fun i => <[i := 1]> (replicate n 0)) (seq 0 n)).

Definition vec_product (m : isl_mat) (v : isl_vec) : option isl_vec :=
  Some (map (fun r => isl_seq_inner_product r v (mat_n_col m)) (mat_row m)).

Definition ceil (v : isl_vec) : option isl_vec :=
  Some (1 :: map (fun x => isl_int_cdiv_q x (el v 0)) (drop 1 v)).

#[export] Instance mat_layer : MatLayer := {|
  isl_mat_identity := identity;
  isl_mat_left_hermite := fun _ _ => None;
  isl_mat_lin_to_aff := fun m =>
    mk_mat (S (mat_n_row m)) (S (mat_n_col m))
      ((1 :: replicate (mat_n_col m) 0) :: map (fun r => 0 :: r) (mat_row m));
  isl_mat_drop_cols := fun m first n =>
    mk_mat (mat_n_row m) (mat_n_col m - n)
      (map (fun r => take first r ++ drop (first + n) r) (mat_row m));
  isl_mat_sub_alloc := fun rs first_row n_row first_col n_col =>
    mk_mat n_row n_col
      (map (fun r => take n_col (drop first_col r)) (take n_row (drop first_row rs)));
  isl_mat_vec_product := vec_product;
  isl_mat_vec_inverse_product := fun _ _ => None;
  isl_vec_ceil := ceil;
  isl_seq_elim := fun dst src pos len =>
    let g := Z.gcd (el src pos) (el dst pos) in
    map (fun p => (el src pos / g) * fst p - (el dst pos / g) * snd p) (zip dst src)
|}.

#[export] Instance bset_layer : BsetLayer := {|
  isl_basic_set_simplify := fun b => Some b;
  isl_basic_set_remove_equalities := fun _ => None;
  isl_basic_set_preimage := fun _ _ => None;
  isl_basic_set_recession_cone := fun _ => None;
  isl_basic_set_drop_dims := fun _ _ _ => None;
  isl_basic_set_remove_dims := fun _ _ _ => None;
  isl_basic_set_drop_inequality := fun b i =>
    set_ineq (take i (bset_ineq b) ++ drop (S i) (bset_ineq b)) b;
  isl_basic_set_finalize := fun b => Some b;
  isl_pip_basic_set_sample := fun _ => None
|}.

#[export] Instance tab_layer : TabLayer core core := {|
  isl_tab_from_basic_set := from_basic_set;
  isl_tab_track_bset := fun t b =>
    Some (mk_tab (tab_n_var t) (tab_n_con t) (tab_n_eq t) (tab_n_col t) (tab_n_dead t)
            (tab_n_unbounded t) (tab_n_zero t) (tab_empty t) (tab_basis t) (tab_con t)
            (Some b) (tab_core t));
  isl_tab_detect_implicit_equalities := fun t => Some t;
  isl_tab_extend_cons := fun t _ => Some t;
  isl_tab_min := min;
  isl_tab_sample_is_integer := fun t => el (point (tab_core t)) 0 =? 1;
  isl_tab_get_sample_value := fun t =>
    match point (tab_core t) with [] => None | v => Some v end;
  isl_tab_add_valid_eq := add_valid_eq;
  isl_tab_snap := fun t => tab_core t;
  isl_tab_rollback := fun t u => Some (with_core u t);
  isl_tab_compute_reduced_basis := fun _ t => Some t
|}.

(** The same engine with a basis reduction that fails. *)
Definition failing_gbr_tab_layer : TabLayer core core := {|
  isl_tab_from_basic_set := from_basic_set;
  isl_tab_track_bset := isl_tab_track_bset (TabLayer := tab_layer);
  isl_tab_detect_implicit_equalities := fun t => Some t;
  isl_tab_extend_cons := fun t _ => Some t;
  isl_tab_min := min;
  isl_tab_sample_is_integer := isl_tab_sample_is_integer (TabLayer := tab_layer);
  isl_tab_get_sample_value := isl_tab_get_sample_value (TabLayer := tab_layer);
  isl_tab_add_valid_eq := add_valid_eq;
  isl_tab_snap := fun t => tab_core t;
  isl_tab_rollback := fun t u => Some (with_core u t);
  isl_tab_compute_reduced_basis := fun _ _ => None
|}.

(** The same engine with a basis reduction that leaves a basis without
    rows. *)
Definition rowless_gbr_tab_layer : TabLayer core core := {|
  isl_tab_from_basic_set := from_basic_set;
  isl_tab_track_bset := isl_tab_track_bset (TabLayer := tab_layer);
  isl_tab_detect_implicit_equalities := fun t => Some t;
  isl_tab_extend_cons := fun t _ => Some t;
  isl_tab_min := min;
  isl_tab_sample_is_integer := isl_tab_sample_is_integer (TabLayer := tab_layer);
  isl_tab_get_sample_value := isl_tab_get_sample_value (TabLayer := tab_layer);
  isl_tab_add_valid_eq := add_valid_eq;
  isl_tab_snap := fun t => tab_core t;
  isl_tab_rollback := fun t u => Some (with_core u t);
  isl_tab_compute_reduced_basis := fun _ t => Some (set_basis (Some (mk_mat 3 3 [])) t)
|}.

(** An engine that reports the point (9, 9) of every tableau, and as an
    integer one. *)
Definition unsound_tab_layer : TabLayer core core := {|
  isl_tab_from_basic_set := from_basic_set;
  isl_tab_track_bset := isl_tab_track_bset (TabLayer := tab_layer);
  isl_tab_detect_implicit_equalities := fun t => Some t;
  isl_tab_extend_cons := fun t _ => Some t;
  isl_tab_min := min;
  isl_tab_sample_is_integer := fun _ => true;
  isl_tab_get_sample_value := fun _ => Some [1; 9; 9];
  isl_tab_add_valid_eq := add_valid_eq;
  isl_tab_snap := fun t => tab_core t;
  isl_tab_rollback := fun t u => Some (with_core u t);
  isl_tab_compute_reduced_basis := fun _ t => Some t
|}.

(** Freshly allocated arrays, here with stale contents 7, -7 and an empty
    tableau state. *)
Definition stale : scratch core :=
  mk_scratch (fun _ => 7) (fun _ => -7) (fun _ => mk_core [] []).

(** Another allocator state. *)
Definition stale' : scratch core :=
  mk_scratch (fun i => Z.of_nat i) (fun _ => 100) (fun _ => mk_core [[1; 0; 0]] [1; 0; 0]).

Definition options (g : gbr_mode) : isl_options := mk_options g 5 ISL_ILP_GBR.

Definition plain (dim : nat) (ineqs : list (list Z)) : isl_basic_set :=
  mk_bset 0 dim 0 [] ineqs false false None.

(** The triangle with vertices (1/2, 1/2), (3, 1) and (1, 2). *)
Definition triangle : isl_basic_set :=
  plain 2 [[-2; -1; 5]; [5; -1; -2]; [-1; 3; -1]].

(** The square with vertices (1/2, 3/2), (3/2, 1/2), (5/2, 3/2) and
    (3/2, 5/2); its integer points are (1,1), (1,2), (2,1) and (2,2). *)
Definition diamond : isl_basic_set :=
  plain 2 [[-2; 1; 1]; [4; -1; -1]; [1; 1; -1]; [1; -1; 1]].

(** The triangle with vertices (1/3, 1/3), (2/3, 1/3) and (1/3, 2/3), which
    holds no integer point. *)
Definition sliver : isl_basic_set :=
  plain 2 [[-1; 3; 0]; [-1; 0; 3]; [3; -3; -3]].

(** The strip 1/2 <= x <= 5/2, 0 <= 2 y - x <= 1/2, whose only integer
    point is (2, 1). *)
Definition strip : isl_basic_set :=
  plain 2 [[-1; 2; 0]; [5; -2; 0]; [0; -1; 2]; [1; 2; -4]].

(** The interval 3 <= x <= 5. *)
Definition interval : isl_basic_set := plain 1 [[-3; 1]; [5; -1]].

(** A basic-set layer all of whose operations fail. *)
Definition failing_bset_layer : BsetLayer := {|
  isl_basic_set_simplify := fun _ => None;
  isl_basic_set_remove_equalities := fun _ => None;
  isl_basic_set_preimage := fun _ _ => None;
  isl_basic_set_recession_cone := fun _ => None;
  isl_basic_set_drop_dims := fun _ _ _ => None;
  isl_basic_set_remove_dims := fun _ _ _ => None;
  isl_basic_set_drop_inequality := fun b _ => b;
  isl_basic_set_finalize := fun _ => None;
  isl_pip_basic_set_sample := fun _ => None
|}.

Definition tableau (b : isl_basic_set) : isl_tab core :=
  match from_basic_set b with
  | Some t => t
  | None => mk_tab 0 0 0 0 0 0 0 true None [] None (mk_core [] [])
  end.

(** The same engine with a pinning that fails. *)
Definition failing_pin_tab_layer : TabLayer core core := {|
  isl_tab_from_basic_set := from_basic_set;
  isl_tab_track_bset := isl_tab_track_bset (TabLayer := tab_layer);
  isl_tab_detect_implicit_equalities := fun t => Some t;
  isl_tab_extend_cons := fun t _ => Some t;
  isl_tab_min := min;
  isl_tab_sample_is_integer := isl_tab_sample_is_integer (TabLayer := tab_layer);
  isl_tab_get_sample_value := isl_tab_get_sample_value (TabLayer := tab_layer);
  isl_tab_add_valid_eq := fun _ _ => None;
  isl_tab_snap := fun t => tab_core t;
  isl_tab_rollback := fun t u => Some (with_core u t);
  isl_tab_compute_reduced_basis := fun _ t => Some t
|}.

(** A basic-set layer for bounded sets: the recession cone is the origin,
    given by the equalities x_i = 0, and the removal of equalities serves
    the sets without equalities, which come back as they are, with the
    identity as the transformation. *)
Definition bounded_bset_layer : BsetLayer := {|
  isl_basic_set_simplify := fun b => Some b;
  isl_basic_set_remove_equalities := fun b =>
    if Nat.eqb (n_eq b) 0 then Some (b, identity (1 + isl_basic_set_total_dim b)) else None;
  isl_basic_set_preimage := fun _ _ => None;
  isl_basic_set_recession_cone := fun b =>
    Some (mk_bset (bset_nparam b) (bset_dim b) (bset_n_div b)
            (map (fun i => <[S i := 1]> (replicate (1 + isl_basic_set_total_dim b) 0))
               (seq 0 (isl_basic_set_total_dim b)))
            [] false false None);
  isl_basic_set_drop_dims := fun _ _ _ => None;
  isl_basic_set_remove_dims := fun _ _ _ => None;
  isl_basic_set_drop_inequality := fun b i =>
    set_ineq (take i (bset_ineq b) ++ drop (S i) (bset_ineq b)) b;
  isl_basic_set_finalize := fun b => Some b;
  isl_pip_basic_set_sample := fun _ => None
|}.

(** The set underlying a basic map: every dimension a set dimension. *)
Definition underlying_set (m : isl_basic_map) : isl_basic_set :=
  mk_bset 0 (bmap_nparam m + bmap_n_in m + bmap_n_out m + bmap_n_div m) 0
    (bmap_eq m) (bmap_ineq m) (bmap_flag_empty m) false (bmap_sample m).

(** The empty basic map in the space of a basic map. *)
Definition empty_like (m : isl_basic_map) : isl_basic_map :=
  mk_bmap (bmap_nparam m) (bmap_n_in m) (bmap_n_out m) 0 [] [] true None.

(** The constraints of a set, in the space of a basic map. *)
Definition overlying_set (b : isl_basic_set) (like : isl_basic_map) : isl_basic_map :=
  mk_bmap (bmap_nparam like) (bmap_n_in like) (bmap_n_out like) (bmap_n_div like)
    (bset_eq b) (bset_ineq b) (bset_flag_empty b) (bset_sample b).

Definition map_layer : MapLayer := {|
  isl_basic_map_underlying_set := fun m => Some (underlying_set m);
  isl_basic_map_empty_like := fun m => Some (empty_like m);
  isl_basic_map_overlying_set := fun b like => Some (overlying_set b like);
  isl_basic_map_empty_like_map := fun m =>
    Some (match map_p m with
          | p :: _ => empty_like p
          | [] => mk_bmap 0 0 0 0 [] [] true None
          end)
|}.

(** A map layer whose overlying set cannot be built. *)
Definition failing_map_layer : MapLayer := {|
  isl_basic_map_underlying_set := fun m => Some (underlying_set m);
  isl_basic_map_empty_like := fun m => Some (empty_like m);
  isl_basic_map_overlying_set := fun _ _ => None;
  isl_basic_map_empty_like_map := fun _ => None
|}.

(** A basic map from x to y whose underlying set has the given
    inequalities on (x, y). *)
Definition relation (ineqs : list (list Z)) : isl_basic_map :=
  mk_bmap 0 1 1 0 [] ineqs false None.

(** The row vector v M. *)
Definition vec_mat_product (v : isl_vec) (m : isl_mat) : option isl_vec :=
  Some (map (fun j => isl_seq_inner_product v (map (fun r => el r j) (mat_row m))
                        (mat_n_row m))
          (seq 0 (mat_n_col m))).

(** The tableau operations of [tab_shift_cone]: no constraint of the cone
    is taken for an equality, and an added inequality joins the rows. *)
Definition cone_layer : ConeLayer core := {|
  isl_vec_mat_product := vec_mat_product;
  isl_mat_concat := fun a b =>
    Some (mk_mat (mat_n_row a + mat_n_row b) (mat_n_col a) (mat_row a ++ mat_row b));
  isl_tab_is_equality := fun _ _ => 0;
  isl_tab_extend := fun t _ => Some t;
  isl_tab_add_ineq := fun t r =>
    Some (with_core (mk_core (rows (tab_core t) ++ [r]) (point (tab_core t))) t)
|}.

(** The half-plane cone  x >= y, 2 y >= x  and its tableau. *)
Definition wedge : isl_basic_set := plain 2 [[0; 1; -1]; [0; -1; 2]].

Definition wedge_tableau : isl_tab core :=
  mk_tab 2 2 0 2 0 0 0 false None [] (Some wedge) (mk_core (bset_ineq wedge) [1; 0; 0]).

(** The tableau of the zero-dimensional cone: no column is left alive. *)
Definition point_cone_tableau : isl_tab core :=
  mk_tab 2 0 0 0 0 0 0 false None [] None (mk_core [] [1; 0; 0]).

(** A map of two pieces, over the sliver and over the diamond. *)
Definition two_pieces : isl_map :=
  mk_map [relation (bset_ineq sliver); relation (bset_ineq diamond)].

(** A tableau state that still holds every inequality of the set [b] and
    whose sample point satisfies them. *)
Definition within (b : isl_basic_set) (c : core) : Prop :=
  (forall r, In r (bset_ineq b) -> In r (rows c)) /\
  feasible (bset_ineq b) (point c) = true.

(** Such a state whose sample point, if there is one, has the three
    elements (d, d x, d y). *)
Definition placed (b : isl_basic_set) (c : core) : Prop :=
  within b c /\ (point c = [] \/ length (point c) = 3%nat).

(** A tableau of the plane without unbounded directions whose state is
    placed in [b]. *)
Definition sound (b : isl_basic_set) (t : isl_tab core) : Prop :=
  placed b (tab_core t) /\ tab_n_unbounded t = O /\ tab_n_var t = 2%nat.

End Planar.

(** ** Reference collaborators for schedule constraints

    Union sets and union maps as finite sets of integers and finite
    relations between integers, used to run the functions on schedule
    constraints on concrete inputs.  The relations carry no tags, so that
    currying and uncurrying leave the empty relation, as they do in the
    library on the maps that are not of the form (A -> B) -> C. *)
Module Finite.

Definition rel : Type := list (Z * Z).

(** The images of a point under a relation. *)
Definition image (u : rel) (x : Z) : list Z :=
  map snd (List.filter (fun p => fst p =? x) u).

Definition lift2 {A B C : Type} (f : A -> B -> C) (a : option A) (b : option B)
    : option C :=
  match a, b with
  | Some a, Some b => Some (f a b)
  | _, _ => None
  end.

Definition union_layer : UnionLayer (list Z) rel unit unit := {|
  isl_union_set_get_space := fun s => match s with Some _ => Some tt | None => None end;
  isl_set_universe := fun sp => sp;
  isl_union_map_empty := fun sp => match sp with Some _ => Some [] | None => None end;
  isl_union_map_union := lift2 (fun a b => a ++ b);
  isl_union_map_curry := fun c => match c with Some _ => Some [] | None => None end;
  isl_union_map_uncurry := fun c => match c with Some _ => Some [] | None => None end;
  isl_union_map_reverse := fun c =>
    match c with Some c => Some (map (fun p => (snd p, fst p)) c) | None => None end;
  isl_union_map_apply_domain :=
    lift2 (fun c u => flat_map (fun p => map (fun x => (x, snd p)) (image u (fst p))) c);
  isl_union_map_apply_range :=
    lift2 (fun c u => flat_map (fun p => map (fun y => (fst p, y)) (image u (snd p))) c);
  isl_union_set_apply := lift2 (fun s u => flat_map (image u) s);
  isl_union_map_n_map := fun c => match c with Some (_ :: _) => 1 | _ => 0 end
|}.

(** An order that names every kind of constraint once. *)
Definition edge_order : list isl_edge_type :=
  [isl_edge_validity; isl_edge_coincidence; isl_edge_condition;
   isl_edge_conditional_validity; isl_edge_proximity].

End Finite.

(** * Vocabulary of the properties *)

(** The common divisor of the elements of a vector. *)
Definition vec_gcd (v : isl_vec) : Z := fold_right Z.gcd 0 v.

(** The set { x : 2 x = 1 } with the point 1/2 as its cached sample, as
    [isl_basic_set_from_vec] builds it from the vector (2, 1). *)
Definition half_point_set : isl_basic_set :=
  mk_bset 0 1 0 [[-1; 2]] [] false false (Some [2; 1]).

(** Two policy blocks that differ at most in the [gbr] field. *)
Definition same_but_gbr (o o' : isl_options) : Prop :=
  gbr_only_first o' = gbr_only_first o /\ ilp_solver o' = ilp_solver o.

(** Two arrays of the same length that hold the same elements below
    index [n]. *)
Definition agree {A : Type} (n : nat) (l1 l2 : list A) : Prop :=
  length l1 = length l2 /\ forall i, (i < n)%nat -> l1 !! i = l2 !! i.

(** An event that concerns the candidates of level [l]: the snapshot taken
    on entering the level, or the pinning of a value at the level. *)
Definition level_mark (l : Z) (e : event) : bool :=
  match e with
  | EvSnap l' _ | EvPin l' _ => l' =? l
  | _ => false
  end.

(** The most recent such event of a trace. *)
Definition last_mark (l : Z) (tr : list event) : option event :=
  fold_left (fun acc e => if level_mark l e then Some e else acc) tr None.

(** What may come next after the trace [pre]: a value is pinned at a level
    only if it is the minimum recorded by the level's snapshot or one more
    than the value pinned there before; and a basis reduction is followed
    by nothing but the snapshot of its level. *)
Definition event_ok (pre : list event) (e : event) : Prop :=
  match e with
  | EvPin l v =>
      (exists hi, last_mark l pre = Some (EvSnap l (Some (v, hi))))
      \/ last_mark l pre = Some (EvPin l (v - 1))
  | _ => True
  end /\
  (forall l, last pre = Some (EvReduce l) -> exists b, e = EvSnap l b).

(** Every event of [evs] may come where it stands, after [pre] and the
    events of [evs] before it. *)
Fixpoint ordered_from (pre evs : list event) : Prop :=
  match evs with
  | [] => True
  | e :: evs' => event_ok pre e /\ ordered_from (pre ++ [e]) evs'
  end.

(** The constraints and dimensions of a basic set; the flags and the cached
    sample may differ. *)
Definition same_constraints (b b1 : isl_basic_set) : Prop :=
  bset_nparam b1 = bset_nparam b /\ bset_dim b1 = bset_dim b /\
  bset_n_div b1 = bset_n_div b /\ bset_eq b1 = bset_eq b /\
  bset_ineq b1 = bset_ineq b.

Section Vocabulary.

Context {T undo : Type}.

(** The policy block as an iteration leaves it. *)
Definition out_opt (out : step_out (T := T) (undo := undo)) : isl_options :=
  match out with
  | Continue s | Break s => s_opt s
  | GotoError o | Crash o => o
  end.

(** The policy block as the loop leaves it. *)
Definition loop_opt (out : loop_out (T := T) (undo := undo)) : isl_options :=
  match out with
  | LoopDone s | LoopOutOfFuel s => s_opt s
  | LoopError o | LoopCrash o => o
  end.

(** The number of leading elements of [min], [max] and [snap] that the
    rest of the search can still read: those of the levels below the
    current one, and that of the current level once it has been entered. *)
Definition live (s : search T undo) : nat :=
  Z.to_nat (if s_init s then s_level s else s_level s + 1).

(** Two states of the search that differ at most in the dead elements of
    the three arrays. *)
Definition related (s1 s2 : search T undo) : Prop :=
  s_tab s1 = s_tab s2 /\ s_opt s1 = s_opt s2 /\ s_level s1 = s_level s2 /\
  s_init s1 = s_init s2 /\ s_reduced s1 = s_reduced s2 /\
  agree (live s1) (s_min s1) (s_min s2) /\
  agree (live s1) (s_max s1) (s_max s2) /\
  agree (live s1) (s_snap s1) (s_snap s2).

(** Two iterations that end in the same way, in related states. *)
Definition out_related (o1 o2 : step_out (T := T) (undo := undo)) : Prop :=
  match o1, o2 with
  | Continue a, Continue b => related a b
  | Break a, Break b => related a b
  | GotoError a, GotoError b => a = b
  | Crash a, Crash b => a = b
  | _, _ => False
  end.

(** Two computations of the bounds of level [lv] that end in the same way:
    the arrays agree below [lv], and at [lv] too unless the tableau is
    empty. *)
Definition bounds_related (lv : nat) (b1 b2 : bounds_out (T := T)) : Prop :=
  match b1, b2 with
  | BoundsKnown t1 mn1 mx1 e1, BoundsKnown t2 mn2 mx2 e2 =>
      t1 = t2 /\ e1 = e2 /\ agree lv mn1 mn2 /\ agree lv mx1 mx2 /\
      (e1 = false -> agree (S lv) mn1 mn2 /\ agree (S lv) mx1 mx2)
  | BoundsBreak t1 mn1 mx1, BoundsBreak t2 mn2 mx2 =>
      t1 = t2 /\ agree lv mn1 mn2 /\ agree lv mx1 mx2
  | BoundsError, BoundsError => True
  | BoundsCrash, BoundsCrash => True
  | _, _ => False
  end.

(** Two runs of the loop that end in the same way, in related states. *)
Definition loop_related (o1 o2 : loop_out (T := T) (undo := undo)) : Prop :=
  match o1, o2 with
  | LoopDone a, LoopDone b => related a b
  | LoopError a, LoopError b => a = b
  | LoopCrash a, LoopCrash b => a = b
  | LoopOutOfFuel a, LoopOutOfFuel b => related a b
  | _, _ => False
  end.

(** What the trace so far says about a state of the search: every level
    that is still open (the levels below the current one, and the current
    one once a value has been pinned there) was last marked by the pinning
    of the value that [min] holds for it; and if the last call was a basis
    reduction, the state is the one the reduction leaves behind. *)
Definition tracked (s : search T undo) (tr : list event) : Prop :=
  (forall j, 0 <= j < (if s_init s then s_level s else s_level s + 1) ->
     last_mark j tr = Some (EvPin j (el (s_min s) (Z.to_nat j)))) /\
  (forall l, last tr = Some (EvReduce l) ->
     s_reduced s = true /\ s_init s = true /\ s_level s = l).

End Vocabulary.

(** ** Vocabulary of the further properties *)

(** Every rounding-up of a point of [shift] lies in the affine cone
    vec + cone: whenever a rational point p satisfies the inequalities of
    [shift] and z lies between p and p + 1 in every coordinate, z satisfies
    <a, z> >= <a, v>/d  for every inequality <a, x> >= 0 of the cone and
    vec = v/d. *)
Definition unit_box_inside (shift cone : isl_basic_set) (vec : isl_vec) : Prop :=
  forall p z,
    0 < el p 0 ->
    (forall r, In r (bset_ineq shift) ->
       0 <= isl_seq_inner_product r p (S (isl_basic_set_total_dim cone))) ->
    (forall j, (j < isl_basic_set_total_dim cone)%nat ->
       0 <= el p 0 * el z (S j) - el p (S j) <= el p 0) ->
    forall c, In c (bset_ineq cone) ->
      isl_seq_inner_product (take (isl_basic_set_total_dim cone) (drop 1 c)) (drop 1 vec)
        (isl_basic_set_total_dim cone)
      <= el vec 0 *
         isl_seq_inner_product (take (isl_basic_set_total_dim cone) (drop 1 c)) (drop 1 z)
           (isl_basic_set_total_dim cone).

(** An inequality in which the coefficients of the dimensions
    first, ..., first + n - 1 are all zero. *)
Definition involves_none (first n : nat) (r : list Z) : bool :=
  forallb (fun j => el r (1 + first + j) =? 0) (seq 0 n).

(** The number of non-zero elements among the first [len] of a sequence. *)
Fixpoint count_nonzero (p : list Z) (len : nat) : nat :=
  match len with
  | O => O
  | S len' => ((if (el p 0 =? 0)%Z then 0 else 1) + count_nonzero (tl p) len')%nat
  end.

(** A row with exactly one non-zero coefficient among those of the [dim]
    variables: a (multiple of a) unit row. *)
Definition unit_row (dim : nat) (r : list Z) : bool :=
  Nat.eqb (count_nonzero (drop 1 r) dim) 1.

(** A computation that hands back the policy block it was given whenever it
    comes back to its caller. *)
Definition keeps_options {A : Type} (m : St A) : Prop :=
  forall o, returned (fst (m o)) -> snd (m o) = o.

(** The constraints and dimensions of a basic set, the inequalities in
    some order; the flags and the cached sample may differ. *)
Definition same_constraints_reordered (b b1 : isl_basic_set) : Prop :=
  bset_nparam b1 = bset_nparam b /\ bset_dim b1 = bset_dim b /\
  bset_n_div b1 = bset_n_div b /\ bset_eq b1 = bset_eq b /\
  bset_ineq b1 ≡ₚ bset_ineq b.

(** What a successful call may have done to the basic set it was given:
    nothing; set the EMPTY flag, and then the answer is the zero-length
    vector; or stored the answer, which then is not the zero-length
    vector, as the cached sample. *)
Definition touched_as (bset : isl_basic_set) (s : isl_vec) (b1 : isl_basic_set) : Prop :=
  b1 = bset \/
  (b1 = set_flag_empty bset /\ s = []) \/
  (b1 = set_sample (Some s) bset /\ s <> []).

(** The bounds recorded by the most recent snapshot of level [l]. *)
Definition last_snap (l : Z) (tr : list event) : option (option (Z * Z)) :=
  fold_left (fun acc e =>
               match e with
               | EvSnap l' b => if l' =? l then Some b else acc
               | _ => acc
               end) tr None.

(** A value is pinned at a level only within the bounds that the level's
    most recent snapshot recorded. *)
Definition pin_in_range (pre : list event) (e : event) : Prop :=
  match e with
  | EvPin l v => exists lo hi, last_snap l pre = Some (Some (lo, hi)) /\ lo <= v <= hi
  | _ => True
  end.

(** Every event of [evs] satisfies [P] where it stands, after [pre] and
    the events of [evs] before it. *)
Fixpoint each_from (P : list event -> event -> Prop) (pre evs : list event) : Prop :=
  match evs with
  | [] => True
  | e :: evs' => P pre e /\ each_from P (pre ++ [e]) evs'
  end.

Section Range.

Context {T undo : Type}.

(** What the trace so far says about the open levels of a state of the
    search: the most recent snapshot of the level recorded a minimum that
    is at most the value [min] holds for the level and the maximum that
    [max] holds for it, and the former does not exceed the latter. *)
Definition in_range (s : search T undo) (tr : list event) : Prop :=
  forall j, 0 <= j < (if s_init s then s_level s else s_level s + 1) ->
    exists lo, last_snap j tr = Some (Some (lo, el (s_max s) (Z.to_nat j))) /\
               lo <= el (s_min s) (Z.to_nat j) <= el (s_max s) (Z.to_nat j).

End Range.

Section TerminationVocabulary.

Context {ML : MatLayer} {T undo : Type} {TL : TabLayer T undo}.

(** The loop, started in state [s], comes to its end within some number of
    iterations. *)
Definition halts (dim : nat) (s : search T undo) : Prop :=
  exists fuel, forall s', snd (search_loop fuel dim s) <> LoopOutOfFuel s'.

(** Every state in which the search may come back to level [L] from the
    levels above it, with [min] and [max] as in [s0] up to [L], halts. *)
Definition resumes (dim : nat) (L : Z) (s0 : search T undo) : Prop :=
  forall s', s_level s' = L -> s_init s' = false ->
    length (s_min s') = length (s_min s0) ->
    (forall j : nat, Z.of_nat j <= L ->
       el (s_min s') j = el (s_min s0) j /\ el (s_max s') j = el (s_max s0) j) ->
    halts dim s'.

End TerminationVocabulary.

(** A matrix whose rows are as many as [n_row] says and have [n_col]
    elements each. *)
Definition mat_well_formed (m : isl_mat) : Prop :=
  length (mat_row m) = mat_n_row m /\
  Forall (fun r => length r = mat_n_col m) (mat_row m).

Section FrameVocabulary.

Context {T undo : Type}.

(** A tableau whose basis is there and holds the rows 0, ..., [dim], each
    of at least 1 + [dim] elements. *)
Definition basis_in_range (dim : nat) (t : isl_tab T) : Prop :=
  exists b, tab_basis t = Some b /\
            forall i, (i <= dim)%nat -> row_in_range dim b i = true.

(** An engine operation that leaves such a basis such a basis and does not
    touch the number of unbounded directions. *)
Definition keeps_frame (dim : nat) (t t' : isl_tab T) : Prop :=
  (basis_in_range dim t -> basis_in_range dim t') /\
  tab_n_unbounded t' = tab_n_unbounded t.

(** An engine all of whose operations on a tableau do so; of the basis
    reduction this is asked only when it leaves a basis at all, which the
    sampler tests itself. *)
Definition engine_keeps_frame (TL : TabLayer T undo) (dim : nat) : Prop :=
  (forall t f d, keeps_frame dim t (snd (isl_tab_min t f d))) /\
  (forall t r t', isl_tab_add_valid_eq t r = Some t' -> keeps_frame dim t t') /\
  (forall t u t', isl_tab_rollback t u = Some t' -> keeps_frame dim t t') /\
  (forall o t t', isl_tab_compute_reduced_basis o t = Some t' ->
     (basis_in_range dim t -> is_Some (tab_basis t') -> basis_in_range dim t') /\
     tab_n_unbounded t' = tab_n_unbounded t) /\
  (forall t n t', isl_tab_extend_cons t n = Some t' -> keeps_frame dim t t').

(** A state of the search in which every access of the next iteration is
    in range: the basis is there with its rows, the three arrays have [dim]
    elements and the level is below [dim]. *)
Definition in_bounds (dim nu : nat) (s : search T undo) : Prop :=
  basis_in_range dim (s_tab s) /\ tab_n_unbounded (s_tab s) = nu /\
  length (s_min s) = dim /\ length (s_max s) = dim /\ length (s_snap s) = dim /\
  s_level s < Z.of_nat dim.

End FrameVocabulary.

(** A trace that ends in the pinning of the value [v] at a level [l] below
    [dim], at a moment when the basis of the tableau has its rows and
    [isl_tab_add_valid_eq] fails on the row 1 + [l] of that basis, with the
    constant - [v]. *)
Definition ends_in_failed_pin {T undo : Type} (TL : TabLayer T undo) (dim : nat)
    (tr : list event) : Prop :=
  exists pre l v t b r,
    tr = pre ++ [EvPin l v] /\ 0 <= l < Z.of_nat dim /\
    basis_in_range dim t /\
    tab_basis t = Some b /\ mat_row b !! (1 + Z.to_nat l)%nat = Some r /\
    el r 0 = - v /\
    isl_tab_add_valid_eq (TabLayer := TL) t r = None.

(** A computation that comes to an end once its budget is large enough. *)
Definition halts_from {A : Type} (m : nat -> St A) (o : isl_options) : Prop :=
  exists F, forall f, (F <= f)%nat -> fst (m f o) <> OutOfFuel.

(** A row that [tab_shift_cone] hands to [isl_tab_add_ineq]: an inequality
    of the cone's basic set whose constant has been lowered. *)
Definition shifted_copy_of (ineqs : list (list Z)) (r : list Z) : Prop :=
  exists c v, In c ineqs /\ v < 0 /\ r = <[O := el c 0 + v]> c.

Section ScheduleVocabulary.

Context {uset umap iset space : Type} {UL : UnionLayer uset umap iset space}.

(** A schedule-constraints object without a NULL field. *)
Definition sc_complete (sc : isl_schedule_constraints uset umap iset) : Prop :=
  is_Some (sc_domain sc) /\ is_Some (sc_context sc) /\
  forall t, is_Some (sc_constraint sc t).

(** The objects that the functions of the file hand out. *)
Inductive sc_built (edge_order : list isl_edge_type)
    : isl_schedule_constraints uset umap iset -> Prop :=
| built_on_domain d sc :
    isl_schedule_constraints_on_domain edge_order d = Some sc -> sc_built edge_order sc
| built_copy sc sc' :
    sc_built edge_order sc ->
    isl_schedule_constraints_copy edge_order (Some sc) = Ok sc' -> sc_built edge_order sc'
| built_set_context sc context sc' :
    sc_built edge_order sc ->
    isl_schedule_constraints_set_context (Some sc) context = Some sc' -> sc_built edge_order sc'
| built_set sc type c sc' :
    sc_built edge_order sc -> isl_schedule_constraints_set (Some sc) type c = Some sc' -> sc_built edge_order sc'
| built_set_conditional_validity sc condition validity sc' :
    sc_built edge_order sc ->
    isl_schedule_constraints_set_conditional_validity (Some sc) condition validity = Some sc' ->
    sc_built edge_order sc'
| built_add sc type c sc' :
    sc_built edge_order sc -> isl_schedule_constraints_add (Some sc) type c = Some sc' -> sc_built edge_order sc'
| built_apply sc umap0 sc' :
    sc_built edge_order sc ->
    isl_schedule_constraints_apply edge_order (Some sc) umap0 = Some sc' ->
    sc_built edge_order sc'.

End ScheduleVocabulary.

Section InvariantVocabulary.

Context {T undo : Type}.

(** A property [P] of tableaux and a property [Q] of snapshots that the
    engine keeps: every operation leads from a tableau with [P] to a
    tableau with [P], a snapshot of a tableau with [P] has [Q], and rolling
    back to a snapshot with [Q] gives a tableau with [P].  [P] does not
    depend on the fields [basis] and [n_zero], which the sampler writes
    itself. *)
Definition engine_invariant (TL : TabLayer T undo)
    (P : isl_tab T -> Prop) (Q : undo -> Prop) : Prop :=
  (forall t f d, P t -> P (snd (isl_tab_min t f d))) /\
  (forall t r t', P t -> isl_tab_add_valid_eq t r = Some t' -> P t') /\
  (forall t, P t -> Q (isl_tab_snap t)) /\
  (forall t u t', P t -> Q u -> isl_tab_rollback t u = Some t' -> P t') /\
  (forall o t t', P t -> isl_tab_compute_reduced_basis o t = Some t' -> P t') /\
  (forall t n t', P t -> isl_tab_extend_cons t n = Some t' -> P t') /\
  (forall t b, P t -> P (set_basis b t)) /\
  (forall t n, P t -> P (set_n_zero n t)).

(** The snapshots of the levels below [level] are there and have [Q]. *)
Definition kept_below (Q : undo -> Prop) (snap : list undo) (level : Z) : Prop :=
  forall j : nat, Z.of_nat j < level -> exists u, snap !! j = Some u /\ Q u.

(** A state of the search whose tableau has [P] and whose open levels have
    snapshots with [Q]. *)
Definition search_invariant (P : isl_tab T -> Prop) (Q : undo -> Prop)
    (s : search T undo) : Prop :=
  P (s_tab s) /\
  kept_below Q (s_snap s) (if s_init s then s_level s else s_level s + 1).

(** The contract of a tableau engine on the basic set [bset], for an
    invariant [P] of the engine: the tableau the engine builds of [bset]
    has [P], also once it tracks the set and once its implicit equalities
    are detected; a tableau with [P] has variables and no unbounded
    direction; and a sample value that the engine reports of a tableau with
    [P] passes the containment test of [bset]. *)
Definition engine_sound_on (TL : TabLayer T undo) (bset : isl_basic_set)
    (P : isl_tab T -> Prop) : Prop :=
  (forall t, isl_tab_from_basic_set bset = Some t -> P t) /\
  (forall t t', P t -> isl_tab_track_bset t bset = Some t' -> P t') /\
  (forall t t', P t -> isl_tab_detect_implicit_equalities t = Some t' -> P t') /\
  (forall t, P t -> tab_n_unbounded t = O /\ tab_n_var t <> O) /\
  (forall t v, P t -> isl_tab_get_sample_value t = Some v -> v <> [] ->
     0 < isl_basic_set_contains bset v).

End InvariantVocabulary.

(** * Properties *)

(** ** Sequences *)

Lemma el_tl (p : list Z) (k : nat) : el (tl p) k = el p (S k).
Proof. destruct p as [|a p]; [destruct k|]; reflexivity. Qed.

Lemma el_replicate_zero (n k : nat) : el (replicate n 0) k = 0.
Proof.
  revert k; induction n as [|n IH]; intros [|k]; simpl; try reflexivity.
  apply IH.
Qed.

Lemma inner_product_zero_l (n m : nat) (x : list Z) :
  isl_seq_inner_product (replicate n 0) x m = 0.
Proof.
  revert n x; induction m as [|m IH]; intros n x; simpl; [reflexivity|].
  rewrite el_replicate_zero.
  destruct n as [|n]; simpl.
  - rewrite (IH O). lia.
  - rewrite (IH n). lia.
Qed.

Lemma inner_product_insert (m : nat) :
  forall (r x : list Z) (k : nat) (a : Z),
    (k < m)%nat -> (k < length r)%nat ->
    isl_seq_inner_product (<[k := a]> r) x m
    = isl_seq_inner_product r x m + (a - el r k) * el x k.
Proof.
  induction m as [|m IH]; intros r x k a Hk Hr; [lia|].
  destruct r as [|r0 r]; [simpl in Hr; lia|].
  destruct k as [|k]; simpl.
  - unfold el; simpl. lia.
  - rewrite IH by (simpl in Hr; lia).
    rewrite el_tl. unfold el; simpl. lia.
Qed.

Lemma inner_product_comm (m : nat) :
  forall p q : list Z, isl_seq_inner_product p q m = isl_seq_inner_product q p m.
Proof.
  induction m as [|m IH]; intros p q; simpl; [reflexivity|].
  rewrite (IH (tl p) (tl q)). lia.
Qed.

(** ** C10: the singleton set of a vector *)

Lemma from_vec_eqs_length (i dim : nat) (v : isl_vec) :
  length (from_vec_eqs i dim v) = i.
Proof. induction i as [|i IH]; simpl; [reflexivity|now rewrite IH]. Qed.

Lemma from_vec_eqs_nth (i dim : nat) (v : isl_vec) :
  forall k, (k < i)%nat ->
    nth (i - 1 - k) (from_vec_eqs i dim v) []
    = <[(1 + k)%nat := el v 0]> (<[O := - el v (1 + k)]> (replicate (1 + dim) 0)).
Proof.
  induction i as [|i IH]; intros k Hk; [lia|].
  destruct (decide (k = i)) as [->|Hne].
  - replace (S i - 1 - i)%nat with O by lia. reflexivity.
  - replace (S i - 1 - k)%nat with (S (i - 1 - k)) by lia.
    simpl. apply IH. lia.
Qed.

Lemma from_vec_eqs_In (i dim : nat) (v : isl_vec) (e : list Z) :
  In e (from_vec_eqs i dim v) <->
  exists k, (k < i)%nat /\
    e = <[(1 + k)%nat := el v 0]> (<[O := - el v (1 + k)]> (replicate (1 + dim) 0)).
Proof.
  induction i as [|i IH]; simpl.
  - split; [tauto|]. intros (k & Hk & _). lia.
  - rewrite IH. split.
    + intros [<-|(k & Hk & ->)]; [exists i|exists k]; split; auto; lia.
    + intros (k & Hk & ->).
      destruct (decide (k = i)) as [->|Hne]; [left; reflexivity|].
      right. exists k. split; [lia|reflexivity].
Qed.

(** The inner product of the equality built for dimension [k] with a vector
    (x0, x1, ..., xn) is  v[0] * x(1+k) - v[1+k] * x0. *)
Lemma from_vec_row_product (dim k : nat) (v x : isl_vec) :
  (k < dim)%nat ->
  isl_seq_inner_product
    (<[(1 + k)%nat := el v 0]> (<[O := - el v (1 + k)]> (replicate (1 + dim) 0)))
    x (S dim)
  = el v 0 * el x (1 + k) - el v (1 + k) * el x 0.
Proof.
  intros Hk.
  rewrite inner_product_insert; [|lia|].
  2:{ rewrite length_insert, length_replicate. lia. }
  rewrite inner_product_insert; [|lia|].
  2:{ rewrite length_replicate. lia. }
  rewrite inner_product_zero_l.
  assert (Hz : el (<[O := - el v (1 + k)]> (replicate (1 + dim) 0)) (1 + k) = 0).
  { simpl. unfold el. simpl. apply (el_replicate_zero dim k). }
  rewrite Hz, el_replicate_zero. lia.
Qed.

(** C10.  For a vector v of non-zero length, with denominator d = v[0] and
    n = length v - 1 coordinates, [isl_basic_set_from_vec] returns a basic
    set of dimension n without parameters and divs that has exactly n
    equalities and no inequality, the equality built for dimension i being
    d * x_i - v[1+i] = 0 (allocated in the order n-1, ..., 0), and that
    carries v as its cached sample.  A vector of length 1 + n is a point of
    the set exactly if it satisfies these n equations. *)
Theorem isl_basic_set_from_vec_singleton (v : isl_vec) :
  length v <> O ->
  let n := (length v - 1)%nat in
  exists b,
    isl_basic_set_from_vec (Some v) = Some b /\
    bset_nparam b = O /\ bset_dim b = n /\ bset_n_div b = O /\
    n_eq b = n /\ bset_ineq b = [] /\ bset_sample b = Some v /\
    (forall i, (i < n)%nat ->
       nth (n - 1 - i) (bset_eq b) []
       = <[(1 + i)%nat := el v 0]> (<[O := - el v (1 + i)]> (replicate (1 + n) 0))) /\
    (forall x, length x = S n ->
       (satisfies b x <->
        forall i, (i < n)%nat -> el v 0 * el x (1 + i) - el v (1 + i) * el x 0 = 0)).
Proof.
  intros Hlen n.
  exists (mk_bset 0 n 0 (from_vec_eqs n n v) [] false false (Some v)).
  split.
  { unfold isl_basic_set_from_vec.
    destruct (Nat.eqb_spec (length v) 0) as [H0|_]; [contradiction|reflexivity]. }
  do 3 (split; [reflexivity|]).
  split; [apply from_vec_eqs_length|].
  do 2 (split; [reflexivity|]).
  split; [intros i Hi; apply from_vec_eqs_nth, Hi|].
  intros x Hx. unfold satisfies, isl_basic_set_total_dim.
  cbn [bset_nparam bset_dim bset_n_div bset_eq bset_ineq].
  replace (0 + n + 0)%nat with n by lia.
  split.
  - intros (_ & Heq & _) i Hi.
    rewrite <- (from_vec_row_product n i v x Hi).
    apply Heq, from_vec_eqs_In. exists i. split; [exact Hi|reflexivity].
  - intros H. split; [exact Hx|]. split.
    + intros e He. apply from_vec_eqs_In in He as (k & Hk & ->).
      rewrite from_vec_row_product by exact Hk. apply H, Hk.
    + intros i [].
Qed.

(** The denominator-2 point 1/2, as a vector. *)
Lemma isl_basic_set_from_vec_singleton_witness :
  exists b,
    isl_basic_set_from_vec (Some [2; 1]) = Some b /\
    bset_nparam b = O /\ bset_dim b = 1%nat /\ bset_n_div b = O /\
    n_eq b = 1%nat /\ bset_ineq b = [] /\ bset_sample b = Some [2; 1] /\
    (forall i, (i < 1)%nat ->
       nth (1 - 1 - i) (bset_eq b) []
       = <[(1 + i)%nat := 2]> (<[O := - el [2; 1] (1 + i)]> (replicate 2 0))) /\
    (forall x, length x = 2%nat ->
       (satisfies b x <->
        forall i, (i < 1)%nat -> 2 * el x (1 + i) - el [2; 1] (1 + i) * el x 0 = 0)).
Proof.
  apply (isl_basic_set_from_vec_singleton [2; 1]).
  simpl. lia.
Defined.

(** ** C7: the one-dimensional sampler on inequalities *)

Lemma interval_check_spec (sample : isl_vec) (rest : list (list Z)) :
  interval_check sample rest = true <->
  exists i, In i rest /\ isl_seq_inner_product sample i 2 < 0.
Proof.
  induction rest as [|i rest IH]; cbn [interval_check In].
  - split; [discriminate|]. intros (i & [] & _).
  - destruct (Z.ltb_spec (isl_seq_inner_product sample i 2) 0) as [Hneg|Hpos].
    + split; [|reflexivity]. intros _. exists i. auto.
    + rewrite IH. split.
      * intros (j & Hj & Hlt). exists j. auto.
      * intros (j & [<-|Hj] & Hlt); [lia|]. exists j. auto.
Qed.

(** C7, as amended.  For a basic set that after simplification is not
    flagged empty, has no equality and has the inequalities i0, i1, ...:
    the candidate value is the negated constant of i0 when the coefficient
    of i0 is 1, and the constant of i0 otherwise; the sampler returns the
    zero-length vector exactly if the inner product of (1, candidate) with
    one of i1, ... is negative, and returns (1, candidate) otherwise. *)
Theorem interval_sample_inequalities {BL : BsetLayer}
    (bset b : isl_basic_set) (i0 : list Z) (rest : list (list Z)) :
  isl_basic_set_simplify bset = Some b ->
  isl_basic_set_fast_is_empty b = false ->
  bset_eq b = [] ->
  bset_ineq b = i0 :: rest ->
  let cand := if el i0 1 =? 1 then - el i0 0 else el i0 0 in
  (interval_sample bset = Ok [] <->
   exists i, In i rest /\ isl_seq_inner_product [1; cand] i 2 < 0) /\
  (interval_sample bset <> Ok [] -> interval_sample bset = Ok [1; cand]).
Proof.
  intros Hs Hne Heq Hineq cand.
  unfold interval_sample. rewrite Hs.
  unfold interval_sample_simplified, n_eq, n_ineq.
  rewrite Hne, Heq, Hineq. cbn [length nth drop Nat.eqb Nat.ltb Nat.leb andb].
  fold cand. unfold empty_sample. rewrite drop_0.
  destruct (interval_check [1; cand] rest) eqn:Hc.
  - split; [|intros H; now contradiction H].
    split; [intros _; apply interval_check_spec, Hc|reflexivity].
  - split; [|reflexivity].
    split; [discriminate|].
    intros H. apply interval_check_spec in H. congruence.
Qed.

(** The set 3 <= x <= 5 of the specification's boundary scenarios. *)
Lemma interval_sample_inequalities_witness :
  (interval_sample (BL := Planar.bset_layer) (Planar.plain 1 [[-3; 1]; [5; -1]]) = Ok [] <->
   exists i, In i [[5; -1]] /\ isl_seq_inner_product [1; 3] i 2 < 0) /\
  (interval_sample (BL := Planar.bset_layer) (Planar.plain 1 [[-3; 1]; [5; -1]]) <> Ok [] ->
   interval_sample (BL := Planar.bset_layer) (Planar.plain 1 [[-3; 1]; [5; -1]]) = Ok [1; 3]).
Proof.
  apply (interval_sample_inequalities (BL := Planar.bset_layer)
           (Planar.plain 1 [[-3; 1]; [5; -1]]) (Planar.plain 1 [[-3; 1]; [5; -1]])
           [-3; 1] [[5; -1]]); reflexivity.
Defined.

(** C7 as stated fails: on 3 <= x <= 5 the first inequality is -3 + x >= 0,
    its constant is -3, and the candidate (and sample) is 3. *)
Lemma interval_sample_constant_counterexample :
  el (nth 0 (bset_ineq (Planar.plain 1 [[-3; 1]; [5; -1]])) []) 0 = -3 /\
  interval_sample (BL := Planar.bset_layer) (Planar.plain 1 [[-3; 1]; [5; -1]]) = Ok [1; 3] /\
  interval_sample (BL := Planar.bset_layer) (Planar.plain 1 [[-3; 1]; [5; -1]])
  <> Ok [1; el (nth 0 (bset_ineq (Planar.plain 1 [[-3; 1]; [5; -1]])) []) 0].
Proof. repeat split. discriminate. Qed.

(** ** C6: rounding up a point that is already integer *)

(** C6.  For a vector of non-zero length whose denominator (element 0) is
    one, [round_up_in_cone] returns the vector itself, whatever the cone
    and the matrix: no collaborator is consulted. *)
Theorem round_up_in_cone_integer {ML : MatLayer} {BL : BsetLayer} {T undo : Type}
    {TL : TabLayer T undo} (vec : isl_vec) (cone : isl_basic_set) (U : isl_mat) :
  length vec <> O ->
  el vec 0 = 1 ->
  round_up_in_cone (Some vec) (Some cone) (Some U) = Ok vec.
Proof.
  intros Hlen Hone. unfold round_up_in_cone.
  destruct (Nat.eqb_spec (length vec) 0) as [H0|_]; [contradiction|].
  rewrite Hone. reflexivity.
Qed.

Lemma round_up_in_cone_integer_witness :
  round_up_in_cone (ML := Planar.mat_layer) (BL := Planar.bset_layer) (TL := Planar.tab_layer) (Some [1; 3; 1])
    (Some (Planar.plain 2 [[0; 1; 0]])) (Some (Planar.identity 3))
  = Ok [1; 3; 1].
Proof.
  apply (round_up_in_cone_integer (ML := Planar.mat_layer) (BL := Planar.bset_layer) (TL := Planar.tab_layer)
           [1; 3; 1] (Planar.plain 2 [[0; 1; 0]]) (Planar.identity 3)).
  - simpl. lia.
  - reflexivity.
Defined.

Lemma vec_gcd_greatest (d : Z) (v : isl_vec) :
  (forall x, In x v -> (d | x)) -> (d | vec_gcd v).
Proof.
  induction v as [|a v IH]; intros H; simpl.
  - apply Z.divide_0_r.
  - apply Z.gcd_greatest; [apply H; simpl; auto|].
    apply IH. intros x Hx. apply H. simpl. auto.
Qed.

(** On the normalized vectors that the tableau hands out (positive
    denominator, no common factor), "denominator one" is the same as "every
    coordinate is a multiple of the denominator". *)
Remark normalized_integer_denominator (v : isl_vec) :
  0 < el v 0 ->
  vec_gcd v = 1 ->
  (forall x, In x v -> (el v 0 | x)) ->
  el v 0 = 1.
Proof.
  intros Hpos Hg Hdiv.
  pose proof (vec_gcd_greatest (el v 0) v Hdiv) as H.
  rewrite Hg in H. apply Z.divide_1_r_nonneg in H; lia.
Qed.

(** ** What the paths without a tableau return *)

(** The containment check accepts exactly the points of the set, integer
    or not. *)
Lemma isl_basic_set_contains_satisfies (b : isl_basic_set) (v : isl_vec) :
  isl_basic_set_contains b v = 1 <-> satisfies b v.
Proof.
  unfold isl_basic_set_contains, satisfies.
  destruct (Nat.eqb_spec (S (isl_basic_set_total_dim b)) (length v)) as [Hl|Hl];
    cbn [negb].
  - destruct (forallb _ (bset_eq b)) eqn:He; cbn [andb].
    + destruct (forallb _ (bset_ineq b)) eqn:Hi.
      * split; [intros _|reflexivity].
        rewrite forallb_forall in He, Hi.
        split; [congruence|]. split.
        -- intros e Hin. rewrite inner_product_comm. apply Z.eqb_eq, He, Hin.
        -- intros i Hin. rewrite inner_product_comm. apply Z.leb_le, Hi, Hin.
      * split; [discriminate|]. intros (_ & _ & H).
        assert (Ht : forallb (fun i => 0 <=? isl_seq_inner_product v i
                                         (S (isl_basic_set_total_dim b)))
                       (bset_ineq b) = true).
        { apply forallb_forall. intros i Hin. apply Z.leb_le.
          rewrite inner_product_comm. apply H, Hin. }
        congruence.
    + split; [discriminate|]. intros (_ & H & _).
      assert (Ht : forallb (fun e => isl_seq_inner_product v e
                                       (S (isl_basic_set_total_dim b)) =? 0)
                     (bset_eq b) = true).
      { apply forallb_forall. intros e Hin. apply Z.eqb_eq.
        rewrite inner_product_comm. apply H, Hin. }
      congruence.
  - split; [discriminate|]. intros (H & _). congruence.
Qed.

Lemma inner_product_two (a b : list Z) :
  isl_seq_inner_product a b 2 = el a 0 * el b 0 + el a 1 * el b 1.
Proof.
  cbn [isl_seq_inner_product]. unfold el.
  destruct a as [|a0 [|a1 a']], b as [|b0 [|b1 b']]; cbn [tl nth]; lia.
Qed.

(** X9.  On a one-dimensional set in the form the simplifier leaves
    behind (every inequality has coefficient 1 or -1), a non-empty answer of
    the interval sampler is an integer point of the set. *)
Lemma interval_sample_simplified_sound (b : isl_basic_set) (s : isl_vec) :
  isl_basic_set_total_dim b = 1%nat ->
  (forall i, In i (bset_ineq b) -> el i 1 = 1 \/ el i 1 = -1) ->
  interval_sample_simplified b = Ok s ->
  s <> [] ->
  integer_point b s.
Proof.
  intros Hdim Hunit H Hne. unfold interval_sample_simplified in H.
  unfold integer_point, satisfies. rewrite Hdim.
  destruct (isl_basic_set_fast_is_empty b); [inversion H; subst; contradiction|].
  unfold n_eq, n_ineq in H.
  destruct (bset_eq b) as [|e [|e' es]] eqn:He; cbn [length Nat.eqb Nat.ltb Nat.leb andb negb] in H.
  - destruct (bset_ineq b) as [|i0 rest] eqn:Hi; cbn [length Nat.eqb nth drop] in H.
    + inversion H; subst. unfold zero_sample. rewrite Hdim.
      repeat split; intros ? [].
    + rewrite drop_0 in H.
      destruct (interval_check _ rest) eqn:Hc; inversion H; subst; [contradiction|].
      repeat split; [intros ? []|].
      intros i [<-|Hin].
      * rewrite inner_product_two.
        destruct (Hunit i0 (or_introl eq_refl)) as [Hc1|Hc1]; rewrite Hc1;
          unfold el; cbn [nth Z.eqb Pos.eqb]; lia.
      * destruct (Z.le_gt_cases 0 (isl_seq_inner_product i
                    [1; if el i0 1 =? 1 then - el i0 0 else el i0 0] 2)) as [Hok|Hbad];
          [exact Hok|].
        assert (Hx : interval_check [1; if el i0 1 =? 1 then - el i0 0 else el i0 0] rest
                     = true).
        { apply interval_check_spec. exists i. split; [exact Hin|].
          rewrite inner_product_comm. lia. }
        congruence.
  - destruct (bset_ineq b) as [|i0 rest] eqn:Hi; cbn [length Nat.eqb negb nth] in H;
      [|discriminate].
    destruct (Z.eqb_spec (el e 1) 1) as [H1|H1].
    + inversion H; subst. repeat split; [|intros ? []].
      intros e0 [<-|[]]. rewrite inner_product_two, H1.
      unfold el; cbn [nth]. lia.
    + destruct (Z.eqb_spec (el e 1) (-1)) as [H2|H2]; [|discriminate].
      inversion H; subst. repeat split; [|intros ? []].
      intros e0 [<-|[]]. rewrite inner_product_two, H2.
      unfold el; cbn [nth]. lia.
  - discriminate.
Qed.

(** ** C3: preconditions of the dispatcher *)

(** C3, as amended.  For a basic set that is not flagged empty and has a
    parameter or a div, the dispatcher returns NULL and leaves the policy
    block alone. *)
Theorem basic_set_sample_invalid_input {ML : MatLayer} {BL : BsetLayer}
    {T undo : Type} {TL : TabLayer T undo}
    (fuel : nat) (sc : scratch undo) (bset : isl_basic_set) (bounded : bool)
    (o : isl_options) :
  isl_basic_set_fast_is_empty bset = false ->
  isl_basic_set_n_param bset <> O \/ bset_n_div bset <> O ->
  basic_set_sample (S fuel) sc bset bounded o = (Null, o).
Proof.
  intros Hne Hbad. cbn [basic_set_sample]. rewrite Hne.
  destruct (Nat.eqb_spec (isl_basic_set_n_param bset) 0) as [Hp|Hp]; [|reflexivity].
  destruct (Nat.eqb_spec (bset_n_div bset) 0) as [Hd|Hd]; [|reflexivity].
  destruct Hbad; contradiction.
Qed.

(** A set over one parameter and one dimension: p <= x. *)
Lemma basic_set_sample_invalid_input_witness :
  basic_set_sample (ML := Planar.mat_layer) (BL := Planar.bset_layer) (TL := Planar.tab_layer) 1 Planar.stale
    (mk_bset 1 1 0 [] [[0; -1; 1]] false false None) false
    (Planar.options ISL_GBR_ALWAYS)
  = (Null, Planar.options ISL_GBR_ALWAYS).
Proof.
  apply (basic_set_sample_invalid_input (ML := Planar.mat_layer) (BL := Planar.bset_layer) (TL := Planar.tab_layer)).
  - reflexivity.
  - left. simpl. lia.
Defined.

(** C3 as stated fails: a set over one parameter that carries the EMPTY
    flag (in the form the library gives to empty sets, with the equality
    1 = 0) gets the zero-length vector, not NULL. *)
Lemma basic_set_sample_empty_param_counterexample :
  isl_basic_set_n_param (mk_bset 1 1 0 [[1; 0; 0]] [] true false None) <> O /\
  basic_set_sample (ML := Planar.mat_layer) (BL := Planar.bset_layer) (TL := Planar.tab_layer) 1 Planar.stale
    (mk_bset 1 1 0 [[1; 0; 0]] [] true false None) false
    (Planar.options ISL_GBR_ALWAYS)
  = (Ok ([], mk_bset 1 1 0 [[1; 0; 0]] [] true false None),
     Planar.options ISL_GBR_ALWAYS).
Proof. split; [simpl; lia|reflexivity]. Qed.

(** ** C1 and C2: a cached sample that is not an integer point *)

Lemma half_point_set_from_vec :
  isl_basic_set_from_vec (Some [2; 1]) = Some half_point_set.
Proof. reflexivity. Qed.

Lemma half_point_set_no_integer_point (v : isl_vec) :
  ~ integer_point half_point_set v.
Proof.
  intros (Hone & Hlen & Heq & _).
  specialize (Heq [-1; 2] (or_introl eq_refl)).
  unfold isl_basic_set_total_dim, half_point_set in *; simpl in *.
  destruct v as [|d [|x [|]]]; try discriminate.
  unfold el in *; simpl in *. lia.
Qed.

(** C1 at the failing input: the set { x : 2 x = 1 } holds no integer point,
    and the dispatcher answers with a vector of length 2. *)
Lemma basic_set_sample_cached_rational_nonempty :
  (forall v, ~ integer_point half_point_set v) /\
  exists s,
    basic_set_sample (ML := Planar.mat_layer) (BL := Planar.bset_layer) (TL := Planar.tab_layer) 1 Planar.stale half_point_set false
      (Planar.options ISL_GBR_ALWAYS)
    = (Ok (s, half_point_set), Planar.options ISL_GBR_ALWAYS) /\
    length s = 2%nat.
Proof.
  split; [exact half_point_set_no_integer_point|].
  exists [2; 1]. split; reflexivity.
Qed.

(** C2 at the failing input: the vector returned for { x : 2 x = 1 } has
    denominator 2. *)
Lemma basic_set_sample_cached_rational_denominator :
  basic_set_sample (ML := Planar.mat_layer) (BL := Planar.bset_layer) (TL := Planar.tab_layer) 1 Planar.stale half_point_set false
    (Planar.options ISL_GBR_ALWAYS)
  = (Ok ([2; 1], half_point_set), Planar.options ISL_GBR_ALWAYS) /\
  el [2; 1] 0 <> 1.
Proof. split; [reflexivity|discriminate]. Qed.

(** ** The policy block across the search (C8) *)

Section Policy.

Context {ML : MatLayer} {T undo : Type} {TL : TabLayer T undo}.

Lemma same_but_gbr_refl (o : isl_options) : same_but_gbr o o.
Proof. split; reflexivity. Qed.

Lemma same_but_gbr_trans (o1 o2 o3 : isl_options) :
  same_but_gbr o1 o2 -> same_but_gbr o2 o3 -> same_but_gbr o1 o3.
Proof. intros [H1 H2] [H3 H4]. split; congruence. Qed.

Lemma same_but_gbr_restore (o o' : isl_options) :
  same_but_gbr o o' -> set_gbr (gbr o) o' = o.
Proof.
  destruct o as [g f i], o' as [g' f' i']. intros [H1 H2].
  simpl in *. subst. reflexivity.
Qed.

Lemma step_pin_opt (dim : nat) (tab : isl_tab T) (o : isl_options) (mn mx : list Z)
    (snap : list undo) (level : Z) (empty reduced : bool) (evs : list event) :
  out_opt (snd (step_pin dim tab o mn mx snap level empty reduced evs)) = o.
Proof. unfold step_pin. repeat case_match; reflexivity. Qed.

Lemma step_reduce_opt (tab : isl_tab T) (o : isl_options) (mn mx : list Z)
    (snap : list undo) (level : Z) :
  same_but_gbr o (out_opt (snd (step_reduce tab o mn mx snap level))).
Proof.
  unfold step_reduce. destruct o as [g f i].
  repeat case_match; split; reflexivity.
Qed.

(** What a firing of the basis reduction does to the [gbr] field: ONCE
    becomes NEVER, the other modes stay. *)
Lemma step_reduce_gbr (tab : isl_tab T) (o : isl_options) (mn mx : list Z)
    (snap : list undo) (level : Z) :
  gbr (out_opt (snd (step_reduce tab o mn mx snap level)))
  = match gbr o with ISL_GBR_ONCE => ISL_GBR_NEVER | g => g end.
Proof.
  unfold step_reduce. destruct o as [g f i].
  destruct g; cbn; repeat case_match; reflexivity.
Qed.

Lemma step_opt (dim : nat) (s : search T undo) :
  same_but_gbr (s_opt s) (out_opt (snd (step dim s))).
Proof.
  unfold step.
  repeat case_match; subst; try apply same_but_gbr_refl;
    try apply step_reduce_opt;
    try (rewrite step_pin_opt; apply same_but_gbr_refl).
Qed.

Lemma search_loop_opt (fuel dim : nat) :
  forall s : search T undo,
    same_but_gbr (s_opt s) (loop_opt (snd (search_loop fuel dim s))).
Proof.
  induction fuel as [|fuel IH]; intros s; simpl.
  - destruct (s_level s <? 0); apply same_but_gbr_refl.
  - destruct (s_level s <? 0); [apply same_but_gbr_refl|].
    pose proof (step_opt dim s) as Hs.
    destruct (step dim s) as [evs out]. simpl in Hs.
    destruct out as [s'|s'|o'|o']; simpl in *; try exact Hs.
    specialize (IH s'). destruct (search_loop fuel dim s') as [evs' r]. simpl in *.
    eapply same_but_gbr_trans; eassumption.
Qed.

Lemma search_finish_restores (o : isl_options) (out : loop_out) :
  same_but_gbr o (loop_opt out) ->
  returned (fst (search_finish (gbr o) out)) ->
  snd (search_finish (gbr o) out) = o.
Proof.
  intros Hp Hr. unfold search_finish in *.
  destruct out as [s|o'|o'|s]; simpl in *.
  - repeat case_match; simpl; apply same_but_gbr_restore, Hp.
  - apply same_but_gbr_restore, Hp.
  - contradiction.
  - contradiction.
Qed.

(** Whenever [isl_tab_sample] comes back to its caller, with a sample, with
    the zero-length vector or with NULL, the policy block is what it was
    on entry. *)
Lemma isl_tab_sample_restores_options (fuel : nat) (sc : scratch undo)
    (tab : isl_tab T) (o : isl_options) :
  returned (fst (isl_tab_sample fuel sc tab o)) ->
  snd (isl_tab_sample fuel sc tab o) = o.
Proof.
  unfold isl_tab_sample, isl_tab_sample_trace.
  repeat case_match; simpl; try reflexivity.
  all: match goal with H : search_loop ?f ?d ?s = _ |- _ =>
    pose proof (search_loop_opt f d s) as Hp; rewrite H in Hp; simpl in Hp
  end.
  all: apply search_finish_restores, Hp.
Qed.

(** C8.  Whenever [isl_tab_sample] comes back to its caller (with a sample,
    with the zero-length vector, or with NULL on the error path), the [gbr]
    field of the policy block holds the value it had on entry; and this
    although an iteration that fires the basis reduction under the policy
    ONCE leaves the field at NEVER for the rest of the search. *)
Theorem isl_tab_sample_restores_gbr (fuel : nat) (sc : scratch undo)
    (tab : isl_tab T) (o : isl_options) :
  (returned (fst (isl_tab_sample fuel sc tab o)) ->
   gbr (snd (isl_tab_sample fuel sc tab o)) = gbr o) /\
  (forall (tab' : isl_tab T) (mn mx : list Z) (snap : list undo) (level : Z),
     gbr o = ISL_GBR_ONCE ->
     gbr (out_opt (snd (step_reduce tab' o mn mx snap level))) = ISL_GBR_NEVER).
Proof.
  split.
  - intros Hr. rewrite isl_tab_sample_restores_options by exact Hr. reflexivity.
  - intros tab' mn mx snap level Hg. rewrite step_reduce_gbr, Hg. reflexivity.
Qed.

End Policy.

(** ** Determinism of the search (C9) *)

Lemma agree_weaken {A : Type} (n m : nat) (l1 l2 : list A) :
  agree n l1 l2 -> (m <= n)%nat -> agree m l1 l2.
Proof. intros [Hl H] Hm. split; [exact Hl|]. intros i Hi. apply H. lia. Qed.

Lemma agree_length {A : Type} (n : nat) (l1 l2 : list A) :
  agree n l1 l2 -> length l1 = length l2.
Proof. intros [Hl _]. exact Hl. Qed.

Lemma agree_el (n : nat) (l1 l2 : list Z) (i : nat) :
  agree n l1 l2 -> (i < n)%nat -> el l1 i = el l2 i.
Proof. intros [_ H] Hi. unfold el. rewrite !nth_lookup, (H i Hi). reflexivity. Qed.

(** Writing the same value at index [i] extends the agreement over [i]. *)
Lemma agree_insert_same {A : Type} (i : nat) (v : A) (l1 l2 : list A) :
  agree i l1 l2 -> agree (S i) (<[i := v]> l1) (<[i := v]> l2).
Proof.
  intros [Hl H]. split; [rewrite !length_insert; exact Hl|].
  intros j Hj. destruct (decide (j = i)) as [->|Hne].
  - destruct (decide (i < length l1)%nat) as [Hlt|Hge].
    + rewrite !list_lookup_insert_eq by lia. reflexivity.
    + rewrite !list_insert_ge by lia.
      rewrite !(lookup_ge_None_2 _ i) by lia. reflexivity.
  - rewrite !list_lookup_insert_ne by congruence. apply H. lia.
Qed.

(** Writes at or above [n] do not disturb the agreement below [n]. *)
Lemma agree_insert_above {A : Type} (n i : nat) (v1 v2 : A) (l1 l2 : list A) :
  agree n l1 l2 -> (n <= i)%nat -> agree n (<[i := v1]> l1) (<[i := v2]> l2).
Proof.
  intros [Hl H] Hi. split; [rewrite !length_insert; exact Hl|].
  intros j Hj. rewrite !list_lookup_insert_ne by lia. apply H, Hj.
Qed.

Lemma agree_alloc {A : Type} (f g : nat -> A) (n : nat) :
  agree 0 (alloc_array f n) (alloc_array g n).
Proof.
  split; [unfold alloc_array; rewrite !length_map; reflexivity|].
  intros i Hi. lia.
Qed.

(** Goals about [agree]: after equal writes, after writes above the bound,
    or from a hypothesis with a larger bound. *)
Ltac agree_solve :=
  lazymatch goal with
  | |- agree _ (<[?i := _]> _) (<[?i := _]> _) =>
      first [ apply agree_insert_same; agree_solve
            | apply agree_insert_above; [agree_solve | lia] ]
  | |- agree _ _ _ =>
      first [ assumption | eapply agree_weaken; [eassumption | lia] ]
  end.

(** Splits the conjunctions of a goal, leaving [agree] folded. *)
Ltac conj_split := repeat match goal with |- _ /\ _ => split end.

Section Determinism.

Context {ML : MatLayer} {T undo : Type} {TL : TabLayer T undo}.

Lemma step_bounds_related (dim lv : nat) (tab : isl_tab T) (mn1 mn2 mx1 mx2 : list Z) :
  agree lv mn1 mn2 -> agree lv mx1 mx2 ->
  bounds_related lv (step_bounds dim lv tab mn1 mx1) (step_bounds dim lv tab mn2 mx2).
Proof.
  intros Hmn Hmx. unfold step_bounds.
  destruct (tab_basis tab) as [b|]; [|exact I].
  destruct (negb (row_in_range dim b (1 + lv))); [exact I|].
  destruct (isl_tab_min tab (mrow b (1 + lv)) 1) as [res tab1].
  assert (Hel : forall v, el (<[lv := v]> mx1) lv = el (<[lv := v]> mx2) lv).
  { intros v. eapply agree_el; [apply agree_insert_same, Hmx|lia]. }
  destruct res as [v| | |]; try exact I.
  - (* the minimum exists *)
    cbn [negb andb].
    destruct (isl_tab_sample_is_integer tab1).
    { simpl. conj_split; [reflexivity|agree_solve..]. }
    destruct (neg_basis_row dim lv tab1) as [tabn|]; [|exact I].
    destruct (isl_tab_min tabn _ 1) as [res2 tab2].
    destruct (neg_basis_row dim lv tab2) as [tab3|]; [|exact I].
    destruct res2 as [w| | |]; try exact I.
    + cbn [negb andb]. rewrite (Hel w).
      destruct (isl_tab_sample_is_integer tab3); simpl.
      * conj_split; [reflexivity|agree_solve..].
      * conj_split; [reflexivity..|agree_solve|agree_solve|].
        intros _. split; agree_solve.
    + cbn [negb andb]. simpl.
      conj_split; [reflexivity..|agree_solve|agree_solve|discriminate].
  - (* the tableau is empty *)
    cbn [negb andb].
    destruct (neg_basis_row dim lv tab1) as [tabn|]; [|exact I].
    destruct (isl_tab_min tabn _ 1) as [res2 tab2].
    destruct (neg_basis_row dim lv tab2) as [tab3|]; [|exact I].
    destruct res2 as [w| | |]; try exact I; cbn [negb andb]; simpl.
    + conj_split; [reflexivity..|agree_solve| |discriminate].
      apply agree_insert_above; [agree_solve|lia].
    + conj_split; [reflexivity..|agree_solve| |discriminate].
      apply agree_insert_above; [agree_solve|lia].
Qed.

Lemma step_pin_related (dim : nat) (tab : isl_tab T) (o : isl_options)
    (mn1 mn2 mx1 mx2 : list Z) (snap1 snap2 : list undo) (level : Z)
    (empty reduced : bool) (evs : list event) :
  0 <= level ->
  agree (Z.to_nat level) mn1 mn2 -> agree (Z.to_nat level) mx1 mx2 ->
  agree (S (Z.to_nat level)) snap1 snap2 ->
  (empty = false ->
   agree (S (Z.to_nat level)) mn1 mn2 /\ agree (S (Z.to_nat level)) mx1 mx2) ->
  fst (step_pin dim tab o mn1 mx1 snap1 level empty reduced evs)
  = fst (step_pin dim tab o mn2 mx2 snap2 level empty reduced evs) /\
  out_related (snd (step_pin dim tab o mn1 mx1 snap1 level empty reduced evs))
              (snd (step_pin dim tab o mn2 mx2 snap2 level empty reduced evs)).
Proof.
  intros Hlevel Hmn Hmx Hsnap Hfull. unfold step_pin.
  set (lv := Z.to_nat level) in *.
  assert (Hback : forall (tab' : isl_tab T),
             related (mk_search tab' o mn1 mx1 snap1 (level - 1) false reduced)
                     (mk_search tab' o mn2 mx2 snap2 (level - 1) false reduced)).
  { intros tab'. unfold related, live; cbn.
    replace (Z.to_nat (level - 1 + 1)) with lv by (unfold lv; lia).
    repeat split; try apply Hmn; try apply Hmx.
    - apply (agree_length _ _ _ Hsnap).
    - intros i Hi. apply Hsnap. lia. }
  assert (Hcmp : empty || (el mx1 lv <? el mn1 lv) = empty || (el mx2 lv <? el mn2 lv)).
  { destruct empty; [reflexivity|]. destruct (Hfull eq_refl) as [H1 H2].
    rewrite (agree_el _ _ _ lv H1), (agree_el _ _ _ lv H2) by lia. reflexivity. }
  rewrite <- Hcmp.
  destruct (empty || (el mx1 lv <? el mn1 lv)) eqn:Hc.
  - (* backtrack *)
    destruct (0 <=? level - 1) eqn:Hl; [|split; [reflexivity|apply Hback]].
    assert (Hsn : snap1 !! Z.to_nat (level - 1) = snap2 !! Z.to_nat (level - 1))
      by (apply Hsnap; unfold lv; lia).
    rewrite <- Hsn.
    destruct (snap1 !! Z.to_nat (level - 1)) as [u|]; [|split; reflexivity].
    destruct (isl_tab_rollback tab u) as [tab'|]; split; try reflexivity.
    apply Hback.
  - (* pin *)
    apply orb_false_elim in Hc as [-> _].
    destruct (Hfull eq_refl) as [H1 H2].
    rewrite <- (agree_el _ _ _ lv H1) by lia.
    destruct (set_basis_const dim lv (- el mn1 lv) tab) as [tab1|]; [|split; reflexivity].
    destruct (isl_tab_add_valid_eq tab1 _) as [tab2|]; [|split; reflexivity].
    destruct (set_basis_const dim lv 0 tab2) as [tab3|]; [|split; reflexivity].
    destruct (u32 (level + Z.of_nat (tab_n_unbounded tab3)) <? u32 (Z.of_nat dim - 1)).
    + split; [reflexivity|]. unfold out_related, related, live; cbn.
      replace (Z.to_nat (level + 1)) with (S lv) by (unfold lv; lia).
      repeat split; try apply H1; try apply H2; apply Hsnap.
    + split; [reflexivity|]. unfold out_related, related, live; cbn. fold lv.
      repeat split; try apply Hmn; try apply Hmx.
      * apply (agree_length _ _ _ Hsnap).
      * intros i Hi. apply Hsnap. lia.
Qed.

Lemma step_related (dim : nat) (s1 s2 : search T undo) :
  0 <= s_level s1 ->
  related s1 s2 ->
  fst (step dim s1) = fst (step dim s2) /\
  out_related (snd (step dim s1)) (snd (step dim s2)).
Proof.
  intros Hlevel (Htab & Hopt & Hlv & Hinit & Hred & Hmn & Hmx & Hsnap).
  unfold step. unfold live in *.
  rewrite <- Htab, <- Hopt, <- Hlv, <- Hinit, <- Hred.
  rewrite <- (agree_length _ _ _ Hmn), <- (agree_length _ _ _ Hmx),
    <- (agree_length _ _ _ Hsnap).
  set (lv := Z.to_nat (s_level s1)) in *.
  destruct (negb _); [split; reflexivity|].
  destruct (s_init s1) eqn:Hi.
  - (* first value at the level *)
    fold lv in Hmn, Hmx, Hsnap.
    pose proof (step_bounds_related dim lv (s_tab s1) _ _ _ _ Hmn Hmx) as Hb.
    destruct (step_bounds dim lv (s_tab s1) (s_min s1) (s_max s1)) as [t1 a1 b1 e1|t1 a1 b1| |];
      destruct (step_bounds dim lv (s_tab s1) (s_min s2) (s_max s2)) as [t2 a2 b2 e2|t2 a2 b2| |];
      simpl in Hb; try contradiction; try (split; reflexivity).
    + destruct Hb as (<- & <- & Ha & Hb & Hfull).
      assert (Hcond : negb e1 && negb (s_reduced s1)
                        && negb (gbr_mode_eqb (gbr (s_opt s1)) ISL_GBR_NEVER)
                        && (el a1 lv <? el b1 lv)
                      = negb e1 && negb (s_reduced s1)
                        && negb (gbr_mode_eqb (gbr (s_opt s1)) ISL_GBR_NEVER)
                        && (el a2 lv <? el b2 lv)).
      { destruct e1; [reflexivity|]. destruct (Hfull eq_refl) as [H1 H2].
        rewrite (agree_el _ _ _ lv H1), (agree_el _ _ _ lv H2) by lia. reflexivity. }
      rewrite <- Hcond.
      destruct (negb e1 && negb (s_reduced s1)
                && negb (gbr_mode_eqb (gbr (s_opt s1)) ISL_GBR_NEVER)
                && (el a1 lv <? el b1 lv)).
      * unfold step_reduce.
        destruct (isl_tab_compute_reduced_basis _ _) as [tab2|]; [|split; reflexivity].
        destruct (tab_basis tab2); split; try reflexivity.
        unfold out_related, related, live; cbn. fold lv. tauto.
      * assert (Hev : (if e1 then None else Some (el a1 lv, el b1 lv))
                      = (if e1 then None else Some (el a2 lv, el b2 lv))).
        { destruct e1; [reflexivity|]. destruct (Hfull eq_refl) as [H1 H2].
          rewrite (agree_el _ _ _ lv H1), (agree_el _ _ _ lv H2) by lia. reflexivity. }
        rewrite <- Hev.
        apply step_pin_related; try assumption.
        apply agree_insert_same, Hsnap.
    + destruct Hb as (<- & Ha & Hb). split; [reflexivity|].
      unfold out_related, related, live; cbn. fold lv. tauto.
  - (* next value at the level *)
    replace (Z.to_nat (s_level s1 + 1)) with (S lv) in * by (unfold lv; lia).
    rewrite <- (agree_el _ _ _ lv Hmn) by lia.
    apply step_pin_related; try assumption.
    + apply agree_insert_above; [|lia]. apply (agree_weaken (S lv)); [exact Hmn|lia].
    + apply (agree_weaken (S lv)); [exact Hmx|lia].
    + intros _. split; [|exact Hmx].
      apply agree_insert_same. apply (agree_weaken (S lv)); [exact Hmn|lia].
Qed.

Lemma search_loop_related (fuel dim : nat) :
  forall s1 s2 : search T undo,
    related s1 s2 ->
    fst (search_loop fuel dim s1) = fst (search_loop fuel dim s2) /\
    loop_related (snd (search_loop fuel dim s1)) (snd (search_loop fuel dim s2)).
Proof.
  induction fuel as [|fuel IH]; intros s1 s2 Hr.
  - simpl. pose proof Hr as (_ & _ & Hlv & _). rewrite <- Hlv.
    destruct (s_level s1 <? 0); split; try reflexivity; exact Hr.
  - cbn [search_loop].
    pose proof Hr as (_ & _ & Hlv & _). rewrite <- Hlv.
    destruct (Z.ltb_spec (s_level s1) 0) as [Hneg|Hnn]; [split; [reflexivity|exact Hr]|].
    destruct (step_related dim s1 s2 Hnn Hr) as [Hev Hout].
    destruct (step dim s1) as [e1 o1], (step dim s2) as [e2 o2]. simpl in Hev, Hout.
    subst e2.
    destruct o1 as [a|a|a|a], o2 as [b|b|b|b]; simpl in Hout; try contradiction;
      try (split; [reflexivity|exact Hout]).
    destruct (IH a b Hout) as [Hev' Hout'].
    destruct (search_loop fuel dim a) as [e1' r1], (search_loop fuel dim b) as [e2' r2].
    simpl in *. subst e2'. split; [reflexivity|exact Hout'].
Qed.

Lemma search_finish_related (g : gbr_mode) (o1 o2 : loop_out) :
  loop_related o1 o2 -> search_finish g o1 = search_finish g o2.
Proof.
  destruct o1 as [a|a|a|a], o2 as [b|b|b|b]; simpl; try contradiction.
  - intros (-> & -> & -> & _). reflexivity.
  - intros ->. reflexivity.
  - intros ->. reflexivity.
  - intros (_ & -> & _). reflexivity.
Qed.

(** The search does not depend on what the freshly allocated arrays
    happen to hold. *)
Lemma isl_tab_sample_trace_scratch (fuel : nat) (sc1 sc2 : scratch undo)
    (tab : isl_tab T) (o : isl_options) :
  isl_tab_sample_trace fuel sc1 tab o = isl_tab_sample_trace fuel sc2 tab o.
Proof.
  unfold isl_tab_sample_trace.
  repeat case_match; try reflexivity; subst.
  all: match goal with
       | H1 : search_loop ?f ?d ?a = _, H2 : search_loop ?f ?d ?b = _ |- _ =>
           let Hr := fresh in
           assert (Hr : related a b)
             by (unfold related, live; cbn; repeat split;
                 try apply agree_alloc; intros; lia);
           destruct (search_loop_related f d a b Hr) as [He Ho];
           rewrite H1, H2 in He, Ho; simpl in He, Ho; subst;
           rewrite (search_finish_related _ _ _ Ho); reflexivity
       end.
Qed.

Lemma search_loop_unfold (fuel dim : nat) (s : search T undo) :
  search_loop (S fuel) dim s
  = if s_level s <? 0 then ([], LoopDone s)
    else
      let '(evs, out) := step dim s in
      match out with
      | Continue s' => let '(evs', r) := search_loop fuel dim s' in (evs ++ evs', r)
      | Break s' => (evs, LoopDone s')
      | GotoError o => (evs, LoopError o)
      | Crash o => (evs, LoopCrash o)
      end.
Proof. reflexivity. Qed.

(** More fuel does not change a search that has come to its end. *)
Lemma search_loop_more_fuel (fuel dim : nat) :
  forall (s : search T undo) (evs : list event) (out : loop_out),
    search_loop fuel dim s = (evs, out) ->
    (forall s', out <> LoopOutOfFuel s') ->
    search_loop (S fuel) dim s = (evs, out).
Proof.
  induction fuel as [|fuel IH]; intros s evs out H Hne.
  - simpl in H. cbn [search_loop].
    destruct (s_level s <? 0); [exact H|].
    inversion H; subst. exfalso. eapply Hne. reflexivity.
  - rewrite search_loop_unfold in H. rewrite search_loop_unfold.
    destruct (s_level s <? 0); [exact H|].
    destruct (step dim s) as [e o']. destruct o' as [a|a|a|a]; try exact H.
    destruct (search_loop fuel dim a) as [e' r] eqn:Ha.
    inversion H; subst.
    rewrite (IH a e' out Ha Hne). reflexivity.
Qed.

Lemma isl_tab_sample_more_fuel (fuel fuel' : nat) (sc : scratch undo)
    (tab : isl_tab T) (o : isl_options) :
  fst (isl_tab_sample fuel sc tab o) <> OutOfFuel ->
  (fuel <= fuel')%nat ->
  isl_tab_sample fuel' sc tab o = isl_tab_sample fuel sc tab o.
Proof.
  intros Hne Hle. induction Hle as [|fuel' Hle IH]; [reflexivity|].
  rewrite <- IH. rewrite <- IH in Hne. clear IH.
  unfold isl_tab_sample, isl_tab_sample_trace in *.
  repeat case_match; try reflexivity; subst; cbn [fst snd] in *.
  all: match goal with
       | H1 : search_loop (S ?f) ?d ?a = _, H2 : search_loop ?f ?d ?a = (?e, ?r) |- _ =>
           rewrite (search_loop_more_fuel f d a e r H2) in H1;
             [inversion H1; subst; reflexivity|]
       end.
  all: intros s' ->; cbn [search_finish fst] in Hne; congruence.
Qed.

(** C9.  Once a run of [isl_tab_sample] on a tableau has come back to its
    caller, a second run on the same tableau, started from the policy
    block the first run left behind, with whatever the allocator puts
    into the arrays [min], [max] and [snap] and with at least as large an
    iteration budget, returns the same result (the same sample vector)
    and leaves the same policy block. *)
Theorem isl_tab_sample_deterministic (fuel fuel' : nat) (sc sc' : scratch undo)
    (tab : isl_tab T) (o : isl_options) :
  returned (fst (isl_tab_sample fuel sc tab o)) ->
  (fuel <= fuel')%nat ->
  isl_tab_sample fuel' sc' tab (snd (isl_tab_sample fuel sc tab o))
  = isl_tab_sample fuel sc tab o.
Proof.
  intros Hr Hle.
  rewrite (isl_tab_sample_restores_options fuel sc tab o Hr).
  assert (Hsc : isl_tab_sample fuel' sc' tab o = isl_tab_sample fuel' sc tab o).
  { unfold isl_tab_sample. rewrite (isl_tab_sample_trace_scratch fuel' sc' sc). reflexivity. }
  rewrite Hsc. apply isl_tab_sample_more_fuel; [|exact Hle].
  intros H. rewrite H in Hr. exact Hr.
Qed.

End Determinism.

(** ** The order of the search (C4) *)

Lemma last_mark_snoc (l : Z) (tr : list event) (e : event) :
  last_mark l (tr ++ [e]) = if level_mark l e then Some e else last_mark l tr.
Proof. unfold last_mark. rewrite fold_left_app. reflexivity. Qed.

Lemma ordered_from_app (pre a b : list event) :
  ordered_from pre (a ++ b) <-> ordered_from pre a /\ ordered_from (pre ++ a) b.
Proof.
  revert pre; induction a as [|e a IH]; intros pre; simpl.
  - rewrite app_nil_r. tauto.
  - rewrite IH, <- app_assoc. simpl. tauto.
Qed.

Lemma ordered_from_split (tr : list event) :
  ordered_from [] tr ->
  forall pre e post, tr = pre ++ e :: post -> event_ok pre e.
Proof.
  intros H pre e post ->.
  apply ordered_from_app in H as [_ H]. simpl in H. apply H.
Qed.

Lemma el_insert_eq (l : list Z) (i : nat) (v : Z) :
  (i < length l)%nat -> el (<[i := v]> l) i = v.
Proof.
  intros Hi. unfold el. rewrite nth_lookup, list_lookup_insert_eq by exact Hi.
  reflexivity.
Qed.

Lemma el_insert_ne (l : list Z) (i j : nat) (v : Z) :
  i <> j -> el (<[i := v]> l) j = el l j.
Proof.
  intros Hne. unfold el. rewrite !nth_lookup, list_lookup_insert_ne by exact Hne.
  reflexivity.
Qed.

Section Order.

Context {ML : MatLayer} {T undo : Type} {TL : TabLayer T undo}.

(** [step_bounds] writes [min] at the index of the level only. *)
Lemma step_bounds_frame (dim lv : nat) (tab : isl_tab T) (mn0 mx0 : list Z) :
  match step_bounds dim lv tab mn0 mx0 with
  | BoundsKnown _ mn _ _ | BoundsBreak _ mn _ =>
      forall j, j <> lv -> el mn j = el mn0 j
  | _ => True
  end.
Proof.
  unfold step_bounds.
  destruct (tab_basis tab) as [b|]; [|exact I].
  destruct (negb (row_in_range dim b (1 + lv))); [exact I|].
  destruct (isl_tab_min tab (mrow b (1 + lv)) 1) as [res tab1].
  destruct res as [v| | |]; try exact I; cbn [negb andb].
  - destruct (isl_tab_sample_is_integer tab1).
    { intros j Hj. apply el_insert_ne. congruence. }
    destruct (neg_basis_row dim lv tab1) as [tabn|]; [|exact I].
    destruct (isl_tab_min tabn _ 1) as [res2 tab2].
    destruct (neg_basis_row dim lv tab2) as [tab3|]; [|exact I].
    destruct res2 as [w| | |]; try exact I; cbn [negb andb].
    + destruct (isl_tab_sample_is_integer tab3);
        intros j Hj; apply el_insert_ne; congruence.
    + intros j Hj. apply el_insert_ne. congruence.
  - destruct (neg_basis_row dim lv tab1) as [tabn|]; [|exact I].
    destruct (isl_tab_min tabn _ 1) as [res2 tab2].
    destruct (neg_basis_row dim lv tab2) as [tab3|]; [|exact I].
    destruct res2 as [w| | |]; try exact I; cbn [negb andb]; reflexivity.
Qed.

Lemma step_pin_ordered (dim : nat) (tab : isl_tab T) (o : isl_options)
    (mn mx : list Z) (snap : list undo) (level : Z) (empty reduced : bool)
    (evs tr : list event) :
  0 <= level ->
  (forall j, 0 <= j < level ->
     last_mark j (tr ++ evs) = Some (EvPin j (el mn (Z.to_nat j)))) ->
  ordered_from tr evs ->
  (empty = false ->
   (exists hi, last_mark level (tr ++ evs)
               = Some (EvSnap level (Some (el mn (Z.to_nat level), hi))))
   \/ last_mark level (tr ++ evs) = Some (EvPin level (el mn (Z.to_nat level) - 1))) ->
  (forall l, last (tr ++ evs) <> Some (EvReduce l)) ->
  ordered_from tr (fst (step_pin dim tab o mn mx snap level empty reduced evs)) /\
  (forall s', snd (step_pin dim tab o mn mx snap level empty reduced evs) = Continue s' ->
     tracked s' (tr ++ fst (step_pin dim tab o mn mx snap level empty reduced evs))).
Proof.
  intros Hlevel Hlow Hevs Hpin Hlast. unfold step_pin.
  set (lv := Z.to_nat level) in *.
  assert (Hroll : forall l', ordered_from tr (evs ++ [EvRollback l'])).
  { intros l'. apply ordered_from_app. split; [exact Hevs|]. simpl.
    split; [|exact I]. split; [exact I|]. intros l Hl. destruct (Hlast l Hl). }
  destruct (empty || (el mx lv <? el mn lv)) eqn:Hc.
  - (* backtrack *)
    destruct (Z.leb_spec 0 (level - 1)) as [Hge|Hlt].
    + destruct (snap !! Z.to_nat (level - 1)) as [u|]; cbn [fst snd];
        [|split; [exact Hevs|discriminate]].
      destruct (isl_tab_rollback tab u) as [tab'|]; cbn [fst snd];
        (split; [apply Hroll|]); [|discriminate].
      intros s' [= <-]. split; cbn.
      * intros j Hj. rewrite app_assoc, last_mark_snoc. cbn. apply Hlow. lia.
      * intros l. rewrite app_assoc, last_snoc. discriminate.
    + cbn [fst snd]. split; [exact Hevs|].
      intros s' [= <-]. split; cbn.
      * intros j Hj. lia.
      * intros l Hl. destruct (Hlast l Hl).
  - (* pin *)
    apply orb_false_elim in Hc as [-> _].
    assert (Hok : ordered_from tr (evs ++ [EvPin level (el mn lv)])).
    { apply ordered_from_app. split; [exact Hevs|]. simpl.
      split; [|exact I]. split; [exact (Hpin eq_refl)|].
      intros l Hl. destruct (Hlast l Hl). }
    destruct (set_basis_const dim lv (- el mn lv) tab) as [tab1|]; cbn [fst snd];
      [|split; [exact Hevs|discriminate]].
    destruct (isl_tab_add_valid_eq tab1 _) as [tab2|]; cbn [fst snd];
      [|split; [exact Hok|discriminate]].
    destruct (set_basis_const dim lv 0 tab2) as [tab3|]; cbn [fst snd];
      [|split; [exact Hok|discriminate]].
    destruct (u32 (level + Z.of_nat (tab_n_unbounded tab3)) <? u32 (Z.of_nat dim - 1));
      cbn [fst snd]; (split; [exact Hok|]); [|discriminate].
    intros s' [= <-]. split; cbn.
    + intros j Hj. rewrite app_assoc, last_mark_snoc. cbn.
      destruct (Z.eqb_spec level j) as [<-|Hne]; [reflexivity|].
      apply Hlow. lia.
    + intros l. rewrite app_assoc, last_snoc. discriminate.
Qed.

Lemma step_ordered (dim : nat) (s : search T undo) (tr : list event) :
  0 <= s_level s ->
  tracked s tr ->
  ordered_from tr (fst (step dim s)) /\
  (forall s', snd (step dim s) = Continue s' -> tracked s' (tr ++ fst (step dim s))).
Proof.
  intros Hlevel [Hlow Hred]. unfold step.
  set (lv := Z.to_nat (s_level s)) in *.
  destruct (negb _) eqn:Hguard; cbn [fst snd]; [split; [exact I|discriminate]|].
  apply negb_false_iff in Hguard.
  apply andb_prop in Hguard as [Hguard _]. apply andb_prop in Hguard as [Hlen _].
  apply Nat.ltb_lt in Hlen.
  destruct (s_init s) eqn:Hinit.
  - (* first value at the level *)
    pose proof (step_bounds_frame dim lv (s_tab s) (s_min s) (s_max s)) as Hframe.
    destruct (step_bounds dim lv (s_tab s) (s_min s) (s_max s)) as [tab mn mx empty|tab mn mx| |];
      cbn [fst snd]; try (split; [exact I|discriminate]).
    destruct (negb empty && negb (s_reduced s)
              && negb (gbr_mode_eqb (gbr (s_opt s)) ISL_GBR_NEVER)
              && (el mn lv <? el mx lv)) eqn:Hcond.
    + (* basis reduction *)
      apply andb_prop in Hcond as [Hcond _]. apply andb_prop in Hcond as [Hcond _].
      apply andb_prop in Hcond as [_ Hnr]. apply negb_true_iff in Hnr.
      assert (Hev : ordered_from tr [EvReduce (s_level s)]).
      { simpl. split; [|exact I]. split; [exact I|].
        intros l Hl. destruct (Hred l Hl) as [Hr _]. congruence. }
      unfold step_reduce.
      destruct (isl_tab_compute_reduced_basis _ _) as [tab2|]; cbn [fst snd];
        [|split; [exact Hev|discriminate]].
      destruct (tab_basis tab2); cbn [fst snd]; (split; [exact Hev|]); [|discriminate].
      intros s' [= <-]. split; cbn.
      * intros j Hj. rewrite last_mark_snoc. cbn.
        rewrite Hframe by (unfold lv; lia). apply Hlow. lia.
      * intros l. rewrite last_snoc. intros [= <-]. tauto.
    + (* snapshot, then pin or backtrack *)
      apply step_pin_ordered.
      * exact Hlevel.
      * intros j Hj. rewrite last_mark_snoc. cbn.
        destruct (Z.eqb_spec (s_level s) j) as [He|_]; [lia|].
        rewrite Hframe by (unfold lv; lia). apply Hlow. lia.
      * simpl. split; [|exact I]. split; [exact I|].
        intros l Hl. destruct (Hred l Hl) as (_ & _ & <-). eauto.
      * intros ->. left. exists (el mx lv).
        rewrite last_mark_snoc. cbn. rewrite Z.eqb_refl. reflexivity.
      * intros l. rewrite last_snoc. discriminate.
  - (* next value at the level *)
    apply step_pin_ordered.
    + exact Hlevel.
    + intros j Hj. rewrite app_nil_r.
      rewrite el_insert_ne by (unfold lv; lia). apply Hlow. lia.
    + exact I.
    + intros _. right. rewrite app_nil_r. fold lv.
      rewrite el_insert_eq by exact Hlen.
      replace (el (s_min s) lv + 1 - 1) with (el (s_min s) lv) by lia.
      unfold lv. apply Hlow. lia.
    + intros l Hl. rewrite app_nil_r in Hl.
      destruct (Hred l Hl) as (_ & Hi & _). congruence.
Qed.

Lemma search_loop_ordered (fuel dim : nat) :
  forall (s : search T undo) (tr : list event),
    tracked s tr -> ordered_from tr (fst (search_loop fuel dim s)).
Proof.
  induction fuel as [|fuel IH]; intros s tr Htr.
  - simpl. destruct (s_level s <? 0); exact I.
  - rewrite search_loop_unfold.
    destruct (Z.ltb_spec (s_level s) 0) as [Hneg|Hnn]; [exact I|].
    destruct (step_ordered dim s tr Hnn Htr) as [Hev Hnext].
    destruct (step dim s) as [evs out]. cbn [fst snd] in *.
    destruct out as [s'|s'|o'|o']; cbn [fst]; try exact Hev.
    specialize (IH s' (tr ++ evs) (Hnext s' eq_refl)).
    destruct (search_loop fuel dim s') as [evs' r]. cbn [fst] in *.
    apply ordered_from_app. split; assumption.
Qed.

(** C4, as amended.  In the calls that a run of [isl_tab_sample] makes to
    the tableau engine, (1) a value v is pinned at a level only if v is
    the minimum computed for the level when it was entered (the minimum
    recorded with its snapshot) or one more than the value pinned at that
    level just before, no other value having been pinned at the level in
    between: the candidates of a level are tried from the computed minimum
    upward, one at a time; and (2) whatever call follows a basis reduction
    at a level is the snapshot of that level: the reduction fires at most
    once per entry into a level. *)
Theorem isl_tab_sample_search_order (fuel : nat) (sc : scratch undo)
    (tab : isl_tab T) (o : isl_options) :
  (forall pre l v post,
     fst (isl_tab_sample_trace fuel sc tab o) = pre ++ EvPin l v :: post ->
     (exists hi, last_mark l pre = Some (EvSnap l (Some (v, hi))))
     \/ last_mark l pre = Some (EvPin l (v - 1))) /\
  (forall pre l e post,
     fst (isl_tab_sample_trace fuel sc tab o) = pre ++ EvReduce l :: e :: post ->
     exists b, e = EvSnap l b).
Proof.
  assert (H : ordered_from [] (fst (isl_tab_sample_trace fuel sc tab o))).
  { unfold isl_tab_sample_trace.
    repeat case_match; try exact I; subst; cbn [fst].
    all: match goal with
         | H : search_loop ?f ?d ?s = (?e, _) |- _ =>
             change e with (fst (e, l0)); rewrite <- H; apply search_loop_ordered
         end.
    all: split; cbn; [intros j Hj; lia|discriminate]. }
  split.
  - intros pre l v post Heq.
    apply (ordered_from_split _ H pre (EvPin l v) post Heq).
  - intros pre l e post Heq.
    replace (pre ++ EvReduce l :: e :: post) with ((pre ++ [EvReduce l]) ++ e :: post) in Heq
      by (rewrite <- app_assoc; reflexivity).
    destruct (ordered_from_split _ H _ e post Heq) as [_ Hr].
    apply Hr. apply last_snoc.
Qed.

End Order.

(** ** The cached sample *)

Lemma same_constraints_refl (b : isl_basic_set) : same_constraints b b.
Proof. repeat split. Qed.

Lemma same_constraints_contains (b b1 : isl_basic_set) (s : isl_vec) :
  same_constraints b b1 ->
  isl_basic_set_contains b1 s = isl_basic_set_contains b s.
Proof.
  intros (Hp & Hd & Hv & He & Hi).
  unfold isl_basic_set_contains, isl_basic_set_total_dim.
  rewrite Hp, Hd, Hv, He, Hi. reflexivity.
Qed.

Section Cache.

Context {ML : MatLayer} {BL : BsetLayer} {T undo : Type} {TL : TabLayer T undo}.

(** When the bounded sampler finds a sample by the tableau search, it
    stores the sample in the basic set. *)
Lemma sample_bounded_caches (fuel : nat) (sc : scratch undo) (bset b1 : isl_basic_set)
    (o o1 : isl_options) (s : isl_vec) :
  sample_bounded fuel sc bset o = (Ok (s, b1), o1) ->
  (2 <= isl_basic_set_total_dim bset)%nat ->
  n_eq bset = O ->
  length s <> O ->
  b1 = set_sample (Some s) bset.
Proof.
  destruct fuel as [|fuel]; [discriminate|].
  cbn [sample_bounded]. unfold st_bind, st_ret, res_bind.
  intros H Hdim Heq Hlen.
  destruct (isl_basic_set_fast_is_empty bset); [simplify_eq; contradiction|].
  destruct (Nat.eqb_spec (isl_basic_set_total_dim bset) 0); [lia|].
  destruct (Nat.eqb_spec (isl_basic_set_total_dim bset) 1); [lia|].
  rewrite Heq in H. cbn [Nat.ltb Nat.leb] in H.
  repeat case_match; simplify_eq; try contradiction; reflexivity.
Qed.

End Cache.

(** X8.  When the dispatcher is asked for a sample of a set that the caller
    asserts to be bounded, under the GBR back end, and the set has at least
    two dimensions and no equality, a non-empty sample it returns is the
    cached sample of the set afterwards. *)
Lemma basic_set_sample_bounded_caches {ML : MatLayer} {BL : BsetLayer}
    {T undo : Type} {TL : TabLayer T undo}
    (fuel : nat) (sc : scratch undo) (bset b1 : isl_basic_set)
    (o o1 : isl_options) (s : isl_vec) :
  basic_set_sample fuel sc bset true o = (Ok (s, b1), o1) ->
  ilp_solver o = ISL_ILP_GBR ->
  bset_nparam bset = O -> bset_n_div bset = O ->
  (2 <= bset_dim bset)%nat ->
  n_eq bset = O ->
  length s <> O ->
  bset_sample b1 = Some s.
Proof.
  destruct fuel as [|fuel]; [discriminate|].
  cbn [basic_set_sample]. intros H Hilp Hp Hv Hdim Heq Hlen.
  unfold isl_basic_set_n_param, isl_basic_set_n_dim, n_eq in *.
  cbn [set_sample bset_eq bset_dim] in H.
  rewrite Hp, Hv, Heq in H. cbn [Nat.eqb negb length Nat.ltb Nat.leb] in H.
  destruct (Nat.eqb_spec (bset_dim bset) 0); [lia|].
  destruct (Nat.eqb_spec (bset_dim bset) 1); [lia|].
  destruct (isl_basic_set_fast_is_empty bset);
    [unfold st_ret in H; simplify_eq; contradiction|].
  assert (Hb : sample_bounded (S fuel) sc (set_sample None bset) o = (Ok (s, b1), o1) ->
               bset_sample b1 = Some s).
  { intros Hb. apply sample_bounded_caches in Hb; try assumption.
    all: first [ subst b1; reflexivity
               | unfold isl_basic_set_total_dim; simpl; lia
               | unfold n_eq; simpl; rewrite Heq; reflexivity ]. }
  destruct (bset_sample bset) as [c|] eqn:Hc;
    [|cbv beta in H; rewrite Hilp in H; exact (Hb H)].
  destruct (length c =? 1 + bset_dim bset)%nat;
    [|cbv beta in H; rewrite Hilp in H; exact (Hb H)].
  destruct (isl_basic_set_contains bset c <? 0); [discriminate|].
  destruct (negb (isl_basic_set_contains bset c =? 0));
    [|cbv beta in H; rewrite Hilp in H; exact (Hb H)].
  unfold st_ret in H. simplify_eq. exact Hc.
Qed.

(** * Further properties *)

(** ** The shifted cone *)

(** The sum of the negative elements, as the loops of [shift_cone] and
    [vec_sum_of_neg] accumulate it. *)
Lemma fold_neg_shift (l : list Z) (acc : Z) :
  fold_left (fun acc a => if 0 <=? a then acc else acc + a) l acc
  = acc + fold_left (fun acc a => if 0 <=? a then acc else acc + a) l 0.
Proof.
  revert acc; induction l as [|a l IH]; intros acc; simpl; [lia|].
  rewrite IH, (IH (if 0 <=? a then 0 else 0 + a)).
  destruct (0 <=? a); lia.
Qed.

Lemma neg_sum_box (m : nat) :
  forall (a y z : list Z) (e : Z),
    0 < e ->
    (forall j, (j < m)%nat -> 0 <= e * el z j - el y j <= e) ->
    isl_seq_inner_product a y m
    + e * fold_left (fun acc a => if 0 <=? a then acc else acc + a) (take m a) 0
    <= e * isl_seq_inner_product a z m.
Proof.
  induction m as [|m IH]; intros a y z e He Hbox; [simpl; lia|].
  cbn [isl_seq_inner_product].
  assert (IH' := IH (tl a) (tl y) (tl z) e He).
  assert (Htl : forall j, (j < m)%nat -> 0 <= e * el (tl z) j - el (tl y) j <= e).
  { intros j Hj. rewrite !el_tl. apply Hbox. lia. }
  specialize (IH' Htl).
  pose proof (Hbox O ltac:(lia)) as H0.
  destruct a as [|a0 a]; cbn [take tl fold_left] in *.
  - rewrite take_nil in IH'. cbn [fold_left] in IH'.
    unfold el at 1 3. cbn [nth]. lia.
  - rewrite fold_neg_shift.
    unfold el at 1 3. cbn [nth].
    destruct (Z.leb_spec 0 a0); nia.
Qed.

Lemma cdiv_upper (b d : Z) : 0 < d -> b <= d * isl_int_cdiv_q b d.
Proof.
  unfold isl_int_cdiv_q. intros Hd.
  pose proof (Z.mul_div_le (- b) d Hd). lia.
Qed.

Lemma drop_1_tl {A : Type} (l : list A) : drop 1 l = tl l.
Proof. destruct l; reflexivity. Qed.

Lemma shift_row_box (total : nat) (vec c p z : list Z) :
  0 < el vec 0 -> 0 < el p 0 ->
  0 <= isl_seq_inner_product (shift_row total vec c) p (S total) ->
  (forall j, (j < total)%nat -> 0 <= el p 0 * el z (S j) - el p (S j) <= el p 0) ->
  isl_seq_inner_product (take total (drop 1 c)) (drop 1 vec) total
  <= el vec 0 * isl_seq_inner_product (take total (drop 1 c)) (drop 1 z) total.
Proof.
  intros Hd He Hrow Hbox. unfold shift_row in Hrow.
  set (coeffs := take total (drop 1 c)) in *.
  cbn [isl_seq_inner_product tl] in Hrow.
  rewrite fold_neg_shift in Hrow.
  assert (Hb := neg_sum_box total coeffs (tl p) (tl z) (el p 0) He).
  assert (Htl : forall j, (j < total)%nat ->
            0 <= el p 0 * el (tl z) j - el (tl p) j <= el p 0).
  { intros j Hj. rewrite !el_tl. apply Hbox, Hj. }
  specialize (Hb Htl).
  assert (Hcc : take total coeffs = coeffs).
  { unfold coeffs. rewrite take_take. f_equal. lia. }
  rewrite Hcc in Hb.
  unfold el at 1 in Hrow. cbn [nth] in Hrow.
  rewrite !drop_1_tl in *.
  pose proof (cdiv_upper (isl_seq_inner_product coeffs (tl vec) total) (el vec 0) Hd) as Hc.
  set (q := isl_int_cdiv_q (isl_seq_inner_product coeffs (tl vec) total) (el vec 0)) in *.
  set (ng := fold_left (fun acc a => if 0 <=? a then acc else acc + a) coeffs 0) in *.
  assert (Hq : q <= isl_seq_inner_product coeffs (tl z) total) by nia.
  nia.
Qed.


(** X11.  The polyhedron that [shift_cone] builds from a cone without
    equalities (and without existentially quantified variables) and a
    rational point vec = v/d, d > 0: it has one inequality for each
    inequality of the cone, in the cone's space, and whenever a rational
    point p of it is moved up by at most one in every coordinate (rounded
    up, in particular), the result z lies in the affine cone vec + cone:
    <a, z> >= <a, v>/d  for every inequality <a, x> >= 0 of the cone. *)
Theorem shift_cone_unit_box {BL : BsetLayer} (cone : isl_basic_set) (vec : isl_vec) :
  n_eq cone = O -> bset_n_div cone = O -> 0 < el vec 0 ->
  exists shift,
    shift_cone (Some cone) (Some vec) = isl_basic_set_finalize shift /\
    bset_eq shift = [] /\ n_ineq shift = n_ineq cone /\
    isl_basic_set_total_dim shift = isl_basic_set_total_dim cone /\
    unit_box_inside shift cone vec.
Proof.
  intros Hn Hv Hd.
  exists (mk_bset (bset_nparam cone) (bset_dim cone) 0 []
            (map (shift_row (isl_basic_set_total_dim cone) vec) (bset_ineq cone))
            false false None).
  split.
  { unfold shift_cone. rewrite Hn. reflexivity. }
  split; [reflexivity|].
  split; [unfold n_ineq; cbn [bset_ineq]; apply length_map|].
  split; [unfold isl_basic_set_total_dim; cbn; lia|].
  intros p z He Hsat Hbox c Hc.
  apply (shift_row_box _ vec c p z Hd He); [|exact Hbox].
  apply Hsat. cbn [bset_ineq]. apply in_map, Hc.
Qed.

(** ** The initial basis with a recession cone *)

Lemma vec_sum_of_neg_fold (v : isl_vec) :
  vec_sum_of_neg v = fold_left (fun acc a => if 0 <=? a then acc else acc + a) v 0.
Proof.
  unfold vec_sum_of_neg.
  assert (H : forall acc,
            fold_left (fun s x => if x <? 0 then s + x else s) v acc
            = fold_left (fun acc a => if 0 <=? a then acc else acc + a) v acc).
  { induction v as [|a v IH]; intros acc; [reflexivity|].
    cbn [fold_left]. rewrite IH.
    destruct (Z.ltb_spec a 0), (Z.leb_spec 0 a); try lia; reflexivity. }
  apply H.
Qed.

Lemma neg_sum_nonpos (l : list Z) :
  fold_left (fun acc a => if 0 <=? a then acc else acc + a) l 0 <= 0 /\
  (fold_left (fun acc a => if 0 <=? a then acc else acc + a) l 0 = 0 <->
   Forall (fun a => 0 <= a) l).
Proof.
  induction l as [|a l [IH1 IH2]]; cbn [fold_left].
  - split; [lia|]. split; [constructor|reflexivity].
  - rewrite fold_neg_shift.
    destruct (Z.leb_spec 0 a) as [Ha|Ha].
    + split; [lia|]. rewrite Z.add_0_l, IH2. split.
      * intros H. constructor; assumption.
      * intros H. inversion H; assumption.
    + split; [lia|]. split; [lia|]. intros H. inversion H; subst. lia.
Qed.

(** X16.  [vec_sum_of_neg] is never positive, it is zero exactly if the vector
    has no negative element, and it bounds from below what moving a point
    up by at most one in every coordinate can change in the inner product
    with the vector:  <v, z> >= <v, y>/e + s  whenever
    y/e <= z <= y/e + 1 coordinate by coordinate. *)
Theorem vec_sum_of_neg_bound (v : isl_vec) :
  vec_sum_of_neg v <= 0 /\
  (vec_sum_of_neg v = 0 <-> Forall (fun a => 0 <= a) v) /\
  forall (y z : list Z) (e : Z),
    0 < e ->
    (forall j, (j < length v)%nat -> 0 <= e * el z j - el y j <= e) ->
    isl_seq_inner_product v y (length v) + e * vec_sum_of_neg v
    <= e * isl_seq_inner_product v z (length v).
Proof.
  rewrite vec_sum_of_neg_fold.
  destruct (neg_sum_nonpos v) as [H1 H2].
  split; [exact H1|]. split; [exact H2|].
  intros y z e He Hbox.
  pose proof (neg_sum_box (length v) v y z e He Hbox) as H.
  rewrite firstn_all in H. exact H.
Qed.

Section ShiftConeProofs.

Context {ML : MatLayer} {T undo : Type} {TL : TabLayer T undo} {CL : ConeLayer T}.

Lemma shift_restore (l : list (list Z)) (i : nat) (v : Z) :
  (i < length l)%nat ->
  <[i := <[O := el (nth i (<[i := <[O := el (nth i l []) 0 + v]> (nth i l [])]> l) []) 0 - v]>
           (nth i (<[i := <[O := el (nth i l []) 0 + v]> (nth i l [])]> l) [])]>
    (<[i := <[O := el (nth i l []) 0 + v]> (nth i l [])]> l)
  = l.
Proof.
  intros Hi.
  destruct (lookup_lt_is_Some_2 l i Hi) as [r Hr].
  assert (Hn : nth i l [] = r) by (apply nth_lookup_Some with (d := []) in Hr; exact Hr).
  rewrite Hn.
  assert (Hn1 : nth i (<[i := <[O := el r 0 + v]> r]> l) [] = <[O := el r 0 + v]> r).
  { apply nth_lookup_Some with (d := []). apply list_lookup_insert_eq, Hi. }
  rewrite Hn1, list_insert_insert_eq.
  assert (Hr0 : <[O := el (<[O := el r 0 + v]> r) 0 - v]> (<[O := el r 0 + v]> r) = r).
  { destruct r as [|c r]; [reflexivity|]. cbn. unfold el. cbn. f_equal. lia. }
  rewrite Hr0. apply list_insert_id, Hr.
Qed.

Lemma tab_shift_cone_loop_spec (tab_cone : isl_tab T) (U : isl_mat) :
  forall (todo i : nat) (tab : isl_tab T) (ineqs added : list (list Z)),
    (i + todo = length ineqs)%nat ->
    Forall (shifted_copy_of ineqs) added ->
    fst (fst (tab_shift_cone_loop todo i tab tab_cone U ineqs added)) = ineqs /\
    Forall (shifted_copy_of ineqs)
      (snd (fst (tab_shift_cone_loop todo i tab tab_cone U ineqs added))).
Proof.
  induction todo as [|todo IH]; intros i tab ineqs added Hlen Hadd.
  - split; [reflexivity|exact Hadd].
  - cbn [tab_shift_cone_loop].
    destruct (negb (isl_tab_is_equality tab_cone _ =? 0)); [apply IH; [lia|exact Hadd]|].
    destruct (isl_vec_mat_product _ U) as [row|]; [|split; [reflexivity|exact Hadd]].
    destruct (Z.eqb_spec (vec_sum_of_neg row) 0) as [Hz|Hnz]; [apply IH; [lia|exact Hadd]|].
    cbv zeta.
    rewrite (shift_restore ineqs i (vec_sum_of_neg row)) by lia.
    assert (Hsh : shifted_copy_of ineqs
                    (nth i (<[i := <[O := el (nth i ineqs []) 0 + vec_sum_of_neg row]>
                                     (nth i ineqs [])]> ineqs) [])).
    { exists (nth i ineqs []), (vec_sum_of_neg row).
      split; [apply nth_In; lia|]. split.
      - rewrite vec_sum_of_neg_fold.
        pose proof (neg_sum_nonpos row) as [Hle _]. rewrite vec_sum_of_neg_fold in Hnz. lia.
      - apply nth_lookup_Some with (d := []). apply list_lookup_insert_eq. lia. }
    destruct (isl_tab_extend tab 1) as [tab'|].
    + destruct (isl_tab_add_ineq tab' _) as [tab''|].
      * apply IH; [lia|]. apply Forall_app. split; [exact Hadd|]. constructor; [exact Hsh|constructor].
      * split; [reflexivity|].
        apply Forall_app. split; [exact Hadd|]. constructor; [exact Hsh|constructor].
    + split; [reflexivity|exact Hadd].
Qed.

(** X17.  [tab_shift_cone] leaves the inequalities of the cone's basic set as it
    found them, on every exit path, although it shifts them in place for
    the call of [isl_tab_add_ineq]; and every row it hands to that call is
    one of these inequalities with its constant lowered by the (negative)
    sum of the negative entries of a row vector: the tableau is only ever
    given tightened copies of the cone's constraints. *)
Theorem tab_shift_cone_restores (tab tab_cone : isl_tab T) (U : isl_mat)
    (bset : isl_basic_set) :
  tab_bset tab_cone = Some bset ->
  fst (fst (tab_shift_cone (Some tab) (Some tab_cone) (Some U))) = bset_ineq bset /\
  Forall (shifted_copy_of (bset_ineq bset))
    (snd (fst (tab_shift_cone (Some tab) (Some tab_cone) (Some U)))) /\
  (tab_n_unbounded tab = O ->
   tab_shift_cone (Some tab) (Some tab_cone) (Some U) = (bset_ineq bset, [], ShiftDone tab)).
Proof.
  intros Hb. unfold tab_shift_cone. rewrite Hb.
  destruct (Nat.eqb_spec (tab_n_unbounded tab) 0) as [H0|H0].
  - split; [reflexivity|]. split; [constructor|reflexivity].
  - destruct (tab_shift_cone_loop_spec tab_cone
                (isl_mat_drop_cols U 0 (usub (tab_n_var tab) (tab_n_unbounded tab)))
                (n_ineq bset) 0 tab (bset_ineq bset) []) as [H1 H2];
      [reflexivity|constructor|].
    split; [exact H1|]. split; [exact H2|]. intros H. contradiction.
Qed.

Lemma tab_equalities_rows_set_basis (b : option isl_mat) (t : isl_tab T)
    (bset : isl_basic_set) :
  forall (cons : list isl_tab_var) (i : nat),
    tab_equalities_rows cons i (set_basis b t) bset = tab_equalities_rows cons i t bset.
Proof.
  induction cons as [|c cons IH]; intros i; [reflexivity|].
  cbn [tab_equalities_rows]. rewrite IH. reflexivity.
Qed.

Lemma initial_basis_set_basis (b : option isl_mat) (t : isl_tab T) :
  initial_basis (set_basis b t) = initial_basis t.
Proof.
  unfold initial_basis, tab_equalities, tab_eq_count.
  cbn [set_basis tab_n_var tab_n_col tab_n_dead tab_empty tab_bset tab_n_con tab_con].
  destruct (tab_bset t) as [bset|]; [|reflexivity].
  rewrite tab_equalities_rows_set_basis. reflexivity.
Qed.

(** X18.  For a bounded tableau (the tableau of the recession cone has no column
    that is not dead) that has no basis yet,
    [isl_tab_set_initial_basis_with_cone] does what [isl_tab_sample] would
    do by itself: it installs [initial_basis], reports -1 exactly if that
    failed, and the sampler then runs as on the tableau left alone. *)
Theorem initial_basis_with_cone_bounded (fuel : nat) (sc : scratch undo)
    (tab tab_cone : isl_tab T) (o : isl_options) :
  tab_n_col tab_cone = tab_n_dead tab_cone ->
  tab_basis tab = None ->
  exists status tab',
    isl_tab_set_initial_basis_with_cone (Some tab) (Some tab_cone) = Ok (status, Some tab') /\
    tab_basis tab' = initial_basis tab /\
    (status = 0 <-> is_Some (initial_basis tab)) /\
    (status = 0 \/ status = -1) /\
    isl_tab_sample_trace fuel sc tab' o = isl_tab_sample_trace fuel sc tab o.
Proof.
  intros Hc Hb. unfold isl_tab_set_initial_basis_with_cone.
  rewrite Hc, Nat.eqb_refl.
  eexists _, _. split; [reflexivity|]. cbn [tab_basis set_basis].
  split; [reflexivity|].
  destruct (initial_basis tab) as [b|] eqn:Hi.
  - split; [split; [eauto|reflexivity]|]. split; [left; reflexivity|].
    unfold isl_tab_sample_trace. cbn [tab_empty tab_basis set_basis].
    rewrite Hb, Hi. reflexivity.
  - split; [split; [discriminate|intros [? ?]; discriminate]|].
    split; [right; reflexivity|].
    unfold isl_tab_sample_trace. cbn [tab_empty tab_basis set_basis].
    rewrite Hb, initial_basis_set_basis, Hi. reflexivity.
Qed.

End ShiftConeProofs.

(** ** The matrix of [plug_in] *)

Lemma usub_sub (a b : nat) :
  (b <= a)%nat -> Z.of_nat a < 2 ^ 32 -> usub a b = (a - b)%nat.
Proof.
  intros Hle Hlt. unfold usub.
  rewrite Z.mod_small by lia. lia.
Qed.

Lemma inner_product_cons (a : Z) (r x : list Z) (m : nat) :
  isl_seq_inner_product (a :: r) x (S m) = a * el x 0 + isl_seq_inner_product r (tl x) m.
Proof. reflexivity. Qed.

Lemma inner_product_unit (n k : nat) (x : list Z) :
  (k < n)%nat ->
  isl_seq_inner_product (<[k := 1]> (replicate n 0)) x n = el x k.
Proof.
  intros Hk. rewrite inner_product_insert by (rewrite ?length_replicate; lia).
  rewrite inner_product_zero_l, el_replicate_zero. lia.
Qed.

Lemma map_el_seq (x : list Z) (k n : nat) :
  length x = (k + n)%nat -> map (fun i => el x (k + i)) (seq 0 n) = drop k x.
Proof.
  revert x; induction k as [|k IH]; intros x Hlen.
  - simpl. rewrite drop_0. revert x Hlen.
    induction n as [|n IHn]; intros x Hlen.
    + destruct x; [reflexivity|discriminate].
    + destruct x as [|a x]; [discriminate|].
      cbn [seq map]. rewrite <- seq_shift, map_map.
      f_equal. apply IHn. simpl in Hlen. lia.
  - destruct x as [|a x]; [discriminate|].
    simpl drop. rewrite <- (IH x) by (simpl in Hlen; lia).
    apply map_ext. intros i. reflexivity.
Qed.

(** X12.  The matrix T that [plug_in] builds for a sample (s0, s1, ..., sk) of the
    first k coordinates of a set of total dimension [total], k <= total: it
    has 1 + total rows of 1 + total - k elements each, and T x' is the
    vector (x'0 * s0, ..., x'0 * sk, x'1, x'2, ...), the sample in the first
    coordinates and x' in the others. *)
Theorem plug_in_matrix_product (total : nat) (sample x : isl_vec) :
  (1 <= length sample <= 1 + total)%nat ->
  Z.of_nat total + 1 < 2 ^ 32 ->
  length x = mat_n_col (plug_in_matrix total sample) ->
  mat_n_col (plug_in_matrix total sample) = (2 + total - length sample)%nat /\
  length (mat_row (plug_in_matrix total sample)) = mat_n_row (plug_in_matrix total sample) /\
  Forall (fun r => length r = mat_n_col (plug_in_matrix total sample))
    (mat_row (plug_in_matrix total sample)) /\
  map (fun r => isl_seq_inner_product r x (mat_n_col (plug_in_matrix total sample)))
    (mat_row (plug_in_matrix total sample))
  = map (fun s => s * el x 0) sample ++ drop 1 x.
Proof.
  intros Hs Ht. unfold plug_in_matrix. cbn [mat_n_col mat_n_row mat_row].
  assert (H1 : usub (length sample) 1 = (length sample - 1)%nat)
    by (apply usub_sub; lia).
  rewrite H1.
  assert (H2 : usub (1 + total) (length sample - 1) = (2 + total - length sample)%nat).
  { rewrite usub_sub by lia. lia. }
  rewrite H2.
  set (n := (2 + total - length sample)%nat).
  assert (H3 : usub n 1 = (n - 1)%nat) by (apply usub_sub; lia).
  rewrite H3. intros Hx.
  split; [reflexivity|].
  split; [rewrite length_app, !length_map, length_seq; lia|].
  split.
  { apply Forall_app. split; apply List.Forall_forall; intros r Hr.
    - apply in_map_iff in Hr as (s & <- & _).
      cbn [length]. rewrite length_replicate. lia.
    - apply in_map_iff in Hr as (i & <- & _).
      rewrite length_insert, length_replicate. reflexivity. }
  rewrite map_app, !map_map. f_equal.
  - apply map_ext. intros s.
    assert (Hn : n = S (n - 1)) by lia.
    rewrite Hn at 2.
    rewrite inner_product_cons, inner_product_zero_l. lia.
  - rewrite <- (map_el_seq x 1 (n - 1)) by lia.
    apply map_ext_in. intros i Hi. apply in_seq in Hi.
    apply inner_product_unit. lia.
Qed.

(** ** Dropping the constraints that involve some dimensions *)

Lemma el_drop (p : list Z) (k j : nat) : el (drop k p) j = el p (k + j).
Proof.
  revert p; induction k as [|k IH]; intros p; [now rewrite drop_0|].
  destruct p as [|a p]; [unfold el; simpl; now destruct j|].
  simpl drop. rewrite IH. reflexivity.
Qed.

Lemma first_non_zero_range (p : list Z) (len : nat) :
  -1 <= isl_seq_first_non_zero p len < Z.of_nat len.
Proof.
  revert p; induction len as [|len IH]; intros p; cbn [isl_seq_first_non_zero]; [lia|].
  specialize (IH (tl p)).
  destruct (el p 0 =? 0); [|lia].
  destruct (Z.ltb_spec (isl_seq_first_non_zero (tl p) len) 0); lia.
Qed.

Lemma first_non_zero_none (p : list Z) (len : nat) :
  isl_seq_first_non_zero p len = -1 <-> forall j, (j < len)%nat -> el p j = 0.
Proof.
  revert p; induction len as [|len IH]; intros p; cbn [isl_seq_first_non_zero].
  - split; [intros _ j Hj; lia|reflexivity].
  - pose proof (first_non_zero_range (tl p) len) as Hr.
    destruct (Z.eqb_spec (el p 0) 0) as [H0|H0].
    + destruct (Z.ltb_spec (isl_seq_first_non_zero (tl p) len) 0) as [Hn|Hn].
      * split; [|reflexivity]. intros _ [|j] Hj; [exact H0|].
        rewrite <- el_tl. apply IH; lia.
      * split; [lia|]. intros H.
        assert (isl_seq_first_non_zero (tl p) len = -1); [|lia].
        apply IH. intros j Hj. rewrite el_tl. apply H. lia.
    + split; [lia|]. intros H. contradiction H0. apply H. lia.
Qed.

Lemma first_non_zero_some (p : list Z) (len : nat) (k : nat) :
  isl_seq_first_non_zero p len = Z.of_nat k <->
  (k < len)%nat /\ el p k <> 0 /\ forall j, (j < k)%nat -> el p j = 0.
Proof.
  revert p k; induction len as [|len IH]; intros p k; cbn [isl_seq_first_non_zero].
  - split; [lia|]. intros (H & _); lia.
  - pose proof (first_non_zero_range (tl p) len) as Hr.
    destruct (Z.eqb_spec (el p 0) 0) as [H0|H0].
    + destruct (Z.ltb_spec (isl_seq_first_non_zero (tl p) len) 0) as [Hn|Hn].
      * split; [lia|]. intros (Hk & Hnz & Hz).
        assert (Hall : isl_seq_first_non_zero (tl p) len = -1) by lia.
        rewrite first_non_zero_none in Hall.
        destruct k as [|k]; [contradiction|].
        contradiction Hnz. rewrite <- el_tl. apply Hall. lia.
      * destruct k as [|k].
        -- split; [lia|]. intros (_ & Hnz & _). contradiction.
        -- split.
           ++ intros H.
              assert (H' : isl_seq_first_non_zero (tl p) len = Z.of_nat k) by lia.
              apply IH in H' as (Hk & Hnz & Hz). rewrite el_tl in Hnz.
              split; [lia|]. split; [exact Hnz|].
              intros [|j] Hj; [exact H0|]. rewrite <- el_tl. apply Hz. lia.
           ++ intros (Hk & Hnz & Hz).
              assert (H' : isl_seq_first_non_zero (tl p) len = Z.of_nat k); [|lia].
              apply IH. split; [lia|]. rewrite el_tl. split; [exact Hnz|].
              intros j Hj. rewrite el_tl. apply Hz. lia.
    + destruct k as [|k].
      * split; [|reflexivity]. intros _. split; [lia|]. split; [exact H0|]. intros j Hj; lia.
      * split; [lia|]. intros (_ & _ & Hz). contradiction H0. apply Hz. lia.
Qed.

Lemma involves_none_spec (first n : nat) (r : list Z) :
  involves_none first n r = true <->
  isl_seq_first_non_zero (drop (1 + first) r) n = -1.
Proof.
  unfold involves_none. rewrite first_non_zero_none, forallb_forall. split.
  - intros H j Hj. rewrite el_drop. apply Z.eqb_eq, H, in_seq. lia.
  - intros H j Hj. apply in_seq in Hj. apply Z.eqb_eq. rewrite <- el_drop. apply H. lia.
Qed.

Section DropConstraints.

Context {BL : BsetLayer}.

(** What the loop needs of [isl_basic_set_drop_inequality]: it removes the
    inequality at the position and leaves those before it in place. *)
Hypothesis drop_inequality_removes : forall b pos,
  (pos < n_ineq b)%nat ->
  (take pos (bset_ineq (isl_basic_set_drop_inequality b pos)) = take pos (bset_ineq b)) /\
  (bset_ineq (isl_basic_set_drop_inequality b pos) ≡ₚ delete pos (bset_ineq b)).

Lemma drop_constraints_loop_filter (first n : nat) :
  forall (i : nat) (b : isl_basic_set),
    (i <= n_ineq b)%nat ->
    bset_ineq (drop_constraints_loop i b first n)
    ≡ₚ List.filter (involves_none first n) (take i (bset_ineq b)) ++ drop i (bset_ineq b).
Proof.
  induction i as [|i IH]; intros b Hi.
  - simpl. rewrite drop_0. reflexivity.
  - cbn [drop_constraints_loop]. unfold n_ineq in Hi.
    destruct (lookup_lt_is_Some_2 (bset_ineq b) i ltac:(lia)) as [r Hr].
    assert (Hnth : nth i (bset_ineq b) [] = r) by (apply nth_lookup_Some with (d := []) in Hr; exact Hr).
    rewrite Hnth.
    rewrite (take_S_r _ _ _ Hr), List.filter_app. cbn [List.filter].
    destruct (Z.eqb_spec (isl_seq_first_non_zero (drop (1 + first) r) n) (-1)) as [Hk|Hk].
    + rewrite (proj2 (involves_none_spec first n r) Hk).
      rewrite IH by (unfold n_ineq; lia).
      rewrite (drop_S _ _ _ Hr). rewrite <- app_assoc. reflexivity.
    + assert (Hf : involves_none first n r = false).
      { destruct (involves_none first n r) eqn:E; [|reflexivity].
        apply involves_none_spec in E. contradiction. }
      rewrite Hf, app_nil_r.
      destruct (drop_inequality_removes b i ltac:(unfold n_ineq; lia)) as [Htake Hperm].
      set (b' := isl_basic_set_drop_inequality b i) in *.
      assert (Hlen : length (bset_ineq b') = (length (bset_ineq b) - 1)%nat).
      { rewrite Hperm, length_delete by (eapply lookup_lt_is_Some_2; lia). reflexivity. }
      rewrite IH by (unfold n_ineq; lia).
      rewrite Htake. apply Permutation_app_head.
      apply (Permutation_app_inv_l (take i (bset_ineq b'))).
      rewrite take_drop, Htake, <- delete_take_drop. exact Hperm.
Qed.

(** X13.  [drop_constraints_involving] keeps exactly the inequalities in which
    the coefficients of the dimensions first, ..., first + n - 1 are all
    zero, each as often as it occurred. *)
Theorem drop_constraints_involving_keeps (b : isl_basic_set) (first n : nat) :
  bset_ineq (drop_constraints_involving b first n)
  ≡ₚ List.filter (involves_none first n) (bset_ineq b).
Proof.
  unfold drop_constraints_involving.
  rewrite drop_constraints_loop_filter by lia.
  unfold n_ineq. rewrite firstn_all, drop_all, app_nil_r. reflexivity.
Qed.

End DropConstraints.


(** ** Independent bounds *)

Section IndependentBounds.

Context {ML : MatLayer}.

Lemma independent_bounds_loop_sublist (dim : nat) :
  forall (ineqs dirs bounds : list (list Z)),
    length dirs = length bounds ->
    (length dirs <= dim)%nat ->
    exists sub,
      independent_bounds_loop ineqs dim dirs bounds = rev sub ++ bounds /\
      sublist sub (map (take (S dim)) ineqs) /\
      (length sub + length bounds <= dim)%nat.
Proof.
  induction ineqs as [|c ineqs IH]; intros dirs bounds Hlen Hle.
  - exists []. repeat split; [constructor|simpl; lia].
  - cbn [independent_bounds_loop map].
    destruct (Nat.ltb_spec (length dirs) dim) as [Hlt|Hge]; cbn [negb].
    2:{ exists []. repeat split; [apply sublist_nil_l|simpl; lia]. }
    destruct (isl_seq_first_non_zero (take dim (drop 1 c)) dim <? 0).
    { destruct (IH dirs bounds Hlen Hle) as (sub & Hs & Hsub & Hl).
      exists sub. repeat split; [exact Hs|apply sublist_cons, Hsub|exact Hl]. }
    destruct (independent_bounds_elim dirs 0 (take dim (drop 1 c))
                (isl_seq_first_non_zero (take dim (drop 1 c)) dim) dim)
      as [[r' pos'] i].
    destruct (pos' <? 0).
    { destruct (IH dirs bounds Hlen Hle) as (sub & Hs & Hsub & Hl).
      exists sub. repeat split; [exact Hs|apply sublist_cons, Hsub|exact Hl]. }
    destruct (IH (take i dirs ++ r' :: drop i dirs) (take (S dim) c :: bounds))
      as (sub & Hs & Hsub & Hl).
    + rewrite length_app. cbn [length].
      pose proof (f_equal length (take_drop i dirs)) as Htd.
      rewrite length_app in Htd. lia.
    + rewrite length_app. cbn [length].
      pose proof (f_equal length (take_drop i dirs)) as Htd.
      rewrite length_app in Htd. lia.
    + exists (take (S dim) c :: sub). split; [|split].
      * rewrite Hs. cbn [rev]. rewrite <- app_assoc. reflexivity.
      * apply sublist_skip, Hsub.
      * cbn [length] in *. lia.
Qed.

(** X14.  For a set of dimension dim >= 1, [independent_bounds] returns a matrix
    of 1 + dim columns whose first row is (1, 0, ..., 0) and whose other
    rows, at most dim of them, are inequalities of the set, in the order in
    which they occur there and beginning with the first one. *)
Theorem independent_bounds_rows (bset : isl_basic_set) :
  (1 <= isl_basic_set_n_dim bset)%nat ->
  exists sel,
    mat_row (independent_bounds bset)
    = (1 :: replicate (isl_basic_set_n_dim bset) 0) :: sel /\
    sublist sel (map (take (S (isl_basic_set_n_dim bset))) (bset_ineq bset)) /\
    head sel = head (map (take (S (isl_basic_set_n_dim bset))) (bset_ineq bset)) /\
    mat_n_row (independent_bounds bset) = S (length sel) /\
    (length sel <= isl_basic_set_n_dim bset)%nat /\
    mat_n_col (independent_bounds bset) = S (isl_basic_set_n_dim bset).
Proof.
  intros Hdim. unfold independent_bounds.
  destruct (bset_ineq bset) as [|c0 rest].
  - exists []. cbn. repeat split; [constructor|lia].
  - destruct (independent_bounds_loop_sublist (isl_basic_set_n_dim bset) rest
                [take (isl_basic_set_n_dim bset) (drop 1 c0)]
                [take (S (isl_basic_set_n_dim bset)) c0])
      as (sub & Hs & Hsub & Hl); [reflexivity|simpl; lia|].
    rewrite Hs. cbn [mat_row mat_n_row mat_n_col].
    rewrite rev_app_distr, rev_involutive. cbn [rev app].
    exists (take (S (isl_basic_set_n_dim bset)) c0 :: sub).
    repeat split.
    + cbn [map]. apply sublist_skip, Hsub.
    + rewrite length_app, length_rev. cbn [length]. lia.
    + cbn [length] in *. lia.
Qed.

End IndependentBounds.

(** ** Unit rows first *)

Lemma count_nonzero_none (p : list Z) (len : nat) :
  isl_seq_first_non_zero p len = -1 <-> count_nonzero p len = O.
Proof.
  revert p; induction len as [|len IH]; intros p;
    cbn [isl_seq_first_non_zero count_nonzero]; [tauto|].
  pose proof (first_non_zero_range (tl p) len) as Hr.
  specialize (IH (tl p)).
  destruct (el p 0 =? 0).
  - destruct (Z.ltb_spec (isl_seq_first_non_zero (tl p) len) 0).
    + split; [intros _|reflexivity]. simpl. apply IH. lia.
    + split; [lia|]. simpl. intros Hc. apply IH in Hc. lia.
  - split; [lia|]. simpl. lia.
Qed.

Lemma count_nonzero_first (p : list Z) (len k : nat) :
  isl_seq_first_non_zero p len = Z.of_nat k ->
  count_nonzero p len = S (count_nonzero (drop (S k) p) (len - k - 1)).
Proof.
  revert p k; induction len as [|len IH]; intros p k;
    cbn [isl_seq_first_non_zero count_nonzero]; [lia|].
  pose proof (first_non_zero_range (tl p) len) as Hr.
  destruct (el p 0 =? 0).
  - destruct (Z.ltb_spec (isl_seq_first_non_zero (tl p) len) 0); [lia|].
    intros Hk. destruct k as [|k]; [lia|].
    rewrite (IH (tl p) k) by lia.
    replace (S len - S k - 1)%nat with (len - k - 1)%nat by lia.
    destruct p as [|a p]; [|reflexivity].
    cbn [tl]. rewrite !drop_nil. reflexivity.
  - intros Hk. destruct k as [|k]; [|lia].
    replace (S len - 0 - 1)%nat with len by lia.
    rewrite drop_1_tl. reflexivity.
Qed.

Lemma swap_inequality_perm (l : list (list Z)) (i j : nat) :
  (j < i < length l)%nat -> swap_inequality l i j ≡ₚ l.
Proof.
  intros Hij.
  destruct (lookup_lt_is_Some_2 l i ltac:(lia)) as [x Hx].
  destruct (lookup_lt_is_Some_2 l j ltac:(lia)) as [y Hy].
  assert (Hnx : nth i l [] = x) by (apply nth_lookup_Some with (d := []) in Hx; exact Hx).
  assert (Hny : nth j l [] = y) by (apply nth_lookup_Some with (d := []) in Hy; exact Hy).
  unfold swap_inequality. rewrite Hnx, Hny.
  set (A := take j l). set (D := drop (S j) l).
  set (M := take (i - S j) D). set (C := drop (S (i - S j)) D).
  assert (HD : D = M ++ x :: C).
  { symmetry. apply take_drop_middle. unfold D. rewrite lookup_drop.
    replace (S j + (i - S j))%nat with i by lia. exact Hx. }
  assert (Hl : l = A ++ y :: M ++ x :: C).
  { rewrite <- HD. symmetry. apply take_drop_middle, Hy. }
  assert (Hsw : <[j:=x]> (<[i:=y]> l) = A ++ x :: M ++ y :: C).
  { rewrite (insert_take_drop _ j) by (rewrite length_insert; lia).
    rewrite take_insert_ge by lia.
    rewrite drop_insert_ge by lia. fold A D.
    rewrite (insert_take_drop D) by (unfold D; rewrite length_drop; lia).
    reflexivity. }
  rewrite Hsw.
  transitivity (A ++ y :: M ++ x :: C); [|now rewrite <- Hl].
  apply Permutation_app_head.
  rewrite <- !Permutation_middle. apply perm_swap.
Qed.

(** The loop only swaps. *)
Lemma hoist_unit_rows_perm (dim : nat) :
  forall (todo i j : nat) (l : list (list Z)),
    (j <= i)%nat -> (i + todo = length l)%nat ->
    hoist_unit_rows todo i j dim l ≡ₚ l.
Proof.
  induction todo as [|todo IH]; intros i j l Hji Hlen; cbn [hoist_unit_rows];
    [reflexivity|].
  destruct (_ <? 0); [apply IH; lia|].
  destruct (0 <=? _); [apply IH; lia|].
  destruct (Nat.eqb_spec i j) as [->|Hne]; [apply IH; lia|].
  assert (Hsl : length (swap_inequality l i j) = length l)
    by (unfold swap_inequality; rewrite !length_insert; reflexivity).
  rewrite IH by lia. apply swap_inequality_perm. lia.
Qed.

Lemma skew_leaves_reordered (b : isl_basic_set) :
  same_constraints_reordered b (skew_leaves b) /\
  bset_sample (skew_leaves b) = bset_sample b /\
  bset_flag_empty (skew_leaves b) = bset_flag_empty b.
Proof.
  unfold skew_leaves, same_constraints_reordered.
  repeat case_match; cbn; repeat split; try reflexivity.
  apply hoist_unit_rows_perm; [lia|reflexivity].
Qed.

(** The test by which the loop takes a row for a (multiple of a) unit row. *)
Lemma hoist_test_unit_row (dim : nat) (r : list Z) :
  Z.of_nat dim < 2 ^ 32 ->
  (if isl_seq_first_non_zero (drop 1 r) dim <? 0 then false
   else if 0 <=? isl_seq_first_non_zero
                   (drop (S (Z.to_nat (isl_seq_first_non_zero (drop 1 r) dim))) (drop 1 r))
                   (usub (usub dim (Z.to_nat (isl_seq_first_non_zero (drop 1 r) dim))) 1)
        then false else true)
  = unit_row dim r.
Proof.
  intros Hdim. unfold unit_row.
  pose proof (first_non_zero_range (drop 1 r) dim) as Hr.
  destruct (Z.ltb_spec (isl_seq_first_non_zero (drop 1 r) dim) 0) as [Hn|Hn].
  - assert (H1 : isl_seq_first_non_zero (drop 1 r) dim = -1) by lia.
    apply count_nonzero_none in H1. rewrite H1. reflexivity.
  - set (k := Z.to_nat (isl_seq_first_non_zero (drop 1 r) dim)).
    assert (Hk : isl_seq_first_non_zero (drop 1 r) dim = Z.of_nat k) by (unfold k; lia).
    rewrite (count_nonzero_first _ _ _ Hk).
    rewrite (usub_sub dim k) by lia.
    rewrite (usub_sub (dim - k) 1) by lia.
    pose proof (first_non_zero_range (drop (S k) (drop 1 r)) (dim - k - 1)) as Hr2.
    pose proof (count_nonzero_none (drop (S k) (drop 1 r)) (dim - k - 1)) as Hc.
    destruct (Z.leb_spec 0 (isl_seq_first_non_zero (drop (S k) (drop 1 r)) (dim - k - 1)))
      as [Hp|Hp].
    + destruct (count_nonzero (drop (S k) (drop 1 r)) (dim - k - 1)) eqn:E; [|reflexivity].
      destruct Hc as [_ Hc]. specialize (Hc eq_refl). lia.
    + destruct Hc as [Hc _]. rewrite Hc by lia. reflexivity.
Qed.

Lemma hoist_unit_rows_spec (dim : nat) :
  Z.of_nat dim < 2 ^ 32 ->
  forall (todo i j : nat) (l : list (list Z)),
    (j <= i)%nat -> (i + todo = length l)%nat ->
    hoist_unit_rows todo i j dim l ≡ₚ l /\
    take (j + length (List.filter (unit_row dim) (drop i l))) (hoist_unit_rows todo i j dim l)
    = take j l ++ List.filter (unit_row dim) (drop i l).
Proof.
  intros Hdim. induction todo as [|todo IH]; intros i j l Hji Hlen.
  - cbn [hoist_unit_rows]. rewrite drop_ge by lia. cbn. split; [reflexivity|].
    rewrite Nat.add_0_r, app_nil_r. reflexivity.
  - cbn [hoist_unit_rows].
    destruct (lookup_lt_is_Some_2 l i ltac:(lia)) as [x Hx].
    assert (Hnx : nth i l [] = x) by (apply nth_lookup_Some with (d := []) in Hx; exact Hx).
    rewrite Hnx.
    pose proof (hoist_test_unit_row dim x Hdim) as Ht.
    rewrite (drop_S _ _ _ Hx). cbn [List.filter].
    destruct (isl_seq_first_non_zero (drop 1 x) dim <? 0).
    { rewrite <- Ht. apply IH; lia. }
    destruct (0 <=? isl_seq_first_non_zero
                      (drop (S (Z.to_nat (isl_seq_first_non_zero (drop 1 x) dim))) (drop 1 x))
                      (usub (usub dim (Z.to_nat (isl_seq_first_non_zero (drop 1 x) dim))) 1)).
    { rewrite <- Ht. apply IH; lia. }
    rewrite <- Ht. cbn [length].
    destruct (Nat.eqb_spec i j) as [->|Hne].
    + destruct (IH (S j) (S j) l) as [Hp Htk]; [lia|lia|].
      split; [exact Hp|].
      replace (j + S (length (List.filter (unit_row dim) (drop (S j) l))))%nat
        with (S j + length (List.filter (unit_row dim) (drop (S j) l)))%nat by lia.
      rewrite Htk, (take_S_r _ _ _ Hx), <- app_assoc. reflexivity.
    + assert (Hsl : length (swap_inequality l i j) = length l)
        by (unfold swap_inequality; rewrite !length_insert; reflexivity).
      destruct (IH (S i) (S j) (swap_inequality l i j)) as [Hp Htk]; [lia|lia|].
      assert (Hd : drop (S i) (swap_inequality l i j) = drop (S i) l).
      { unfold swap_inequality. rewrite !drop_insert_lt by lia. reflexivity. }
      assert (Htj : take (S j) (swap_inequality l i j) = take j l ++ [x]).
      { assert (Hj : swap_inequality l i j !! j = Some x).
        { unfold swap_inequality. rewrite Hnx.
          apply list_lookup_insert_eq. rewrite length_insert. lia. }
        rewrite (take_S_r _ _ _ Hj). unfold swap_inequality.
        rewrite !take_insert_ge by lia. reflexivity. }
      split.
      * rewrite Hp. apply swap_inequality_perm. lia.
      * replace (j + S (length (List.filter (unit_row dim) (drop (S i) l))))%nat
          with (S j + length (List.filter (unit_row dim) (drop (S i) l)))%nat by lia.
        rewrite Hd in Htk. rewrite Htk, Htj, <- app_assoc. reflexivity.
Qed.

(** X15.  The loop of [isl_basic_set_skew_to_positive_orthant] that moves unit
    rows up only reorders the inequalities, and it leaves at the front, in
    the order in which they occurred, exactly the rows with a single
    non-zero coefficient. *)
Theorem hoist_unit_rows_front (dim : nat) (ineqs : list (list Z)) :
  Z.of_nat dim < 2 ^ 32 ->
  hoist_unit_rows (length ineqs) 0 0 dim ineqs ≡ₚ ineqs /\
  take (length (List.filter (unit_row dim) ineqs))
    (hoist_unit_rows (length ineqs) 0 0 dim ineqs)
  = List.filter (unit_row dim) ineqs.
Proof.
  intros Hdim.
  destruct (hoist_unit_rows_spec dim Hdim (length ineqs) 0 0 ineqs) as [Hp Ht]; [lia|lia|].
  rewrite drop_0 in Ht. split; [exact Hp|exact Ht].
Qed.

(** ** The interval sampler on an empty interval *)

(** X10.  On a one-dimensional set that is not flagged empty and whose
    inequalities are in the form the simplifier leaves behind (the first has
    coefficient 1 or -1, and no other bounds the variable from the same
    side), the interval sampler answers with the zero-length vector only if
    the set holds no point at all, rational or integer. *)
Theorem interval_sample_simplified_complete (b : isl_basic_set) :
  isl_basic_set_total_dim b = 1%nat ->
  isl_basic_set_fast_is_empty b = false ->
  (forall i0 rest, bset_ineq b = i0 :: rest ->
     (el i0 1 = 1 \/ el i0 1 = -1) /\
     forall i, In i rest -> el i 1 * el i0 1 <= 0) ->
  interval_sample_simplified b = Ok [] ->
  forall v, 0 < el v 0 -> ~ satisfies b v.
Proof.
  intros Hdim Hne Hnf H v Hv (Hlen & Heq & Hineq).
  unfold interval_sample_simplified in H. rewrite Hne in H.
  unfold n_eq, n_ineq, zero_sample in H. rewrite Hdim in *.
  destruct (bset_eq b) as [|e es]; cbn [length Nat.eqb Nat.ltb Nat.leb andb] in H.
  - destruct (bset_ineq b) as [|i0 rest] eqn:Hi; cbn [length Nat.eqb nth drop] in H;
      [discriminate|].
    rewrite drop_0 in H.
    destruct (Hnf i0 rest eq_refl) as [Hu Hopp].
    destruct (interval_check _ rest) eqn:Hc; [|discriminate].
    apply interval_check_spec in Hc as (i & Hin & Hneg).
    pose proof (Hineq i0 (or_introl eq_refl)) as H0.
    pose proof (Hineq i (or_intror Hin)) as H1.
    pose proof (Hopp i Hin) as Ho.
    rewrite inner_product_two in H0, H1, Hneg.
    change (el [1; if el i0 1 =? 1 then - el i0 0 else el i0 0] 0) with 1 in Hneg.
    change (el [1; if el i0 1 =? 1 then - el i0 0 else el i0 0] 1)
      with (if el i0 1 =? 1 then - el i0 0 else el i0 0) in Hneg.
    destruct Hu as [Hu|Hu]; rewrite Hu in *; cbn [Z.eqb Pos.eqb] in Hneg.
    + assert (el i 1 * (el v 1 + el i0 0 * el v 0) <= 0) by nia. nia.
    + assert (0 <= el i 1 * (el i0 0 * el v 0 - el v 1)) by nia. nia.
  - repeat case_match; discriminate.
Qed.

(** ** Sampling a singleton set *)

(** X7.  Round trip: the dispatcher on the singleton set that
    [isl_basic_set_from_vec] builds from a vector of non-zero length
    returns that vector, whatever its denominator, and leaves the set and
    the policy block as they are; no collaborator is consulted. *)
Theorem basic_set_sample_from_vec {ML : MatLayer} {BL : BsetLayer}
    {T undo : Type} {TL : TabLayer T undo}
    (fuel : nat) (sc : scratch undo) (v : isl_vec) (b : isl_basic_set)
    (bounded : bool) (o : isl_options) :
  isl_basic_set_from_vec (Some v) = Some b ->
  basic_set_sample (S fuel) sc b bounded o = (Ok (v, b), o).
Proof.
  unfold isl_basic_set_from_vec.
  destruct (Nat.eqb_spec (length v) 0) as [H0|Hlen]; [discriminate|].
  intros H. injection H as <-.
  cbn [basic_set_sample]. 
  unfold isl_basic_set_fast_is_empty, isl_basic_set_n_param, isl_basic_set_n_dim.
  cbn [bset_flag_empty bset_nparam bset_n_div bset_dim bset_sample Nat.eqb negb].
  replace (1 + (length v - 1))%nat with (length v) by lia.
  rewrite Nat.eqb_refl.
  assert (Hc : isl_basic_set_contains
                 (mk_bset 0 (length v - 1) 0 (from_vec_eqs (length v - 1) (length v - 1) v)
                    [] false false (Some v)) v = 1).
  { unfold isl_basic_set_contains, isl_basic_set_total_dim.
    cbn [bset_nparam bset_dim bset_n_div bset_eq bset_ineq forallb andb].
    replace (S (0 + (length v - 1) + 0)) with (length v) by lia.
    rewrite Nat.eqb_refl. cbn [negb].
    assert (Hall : forallb (fun e => isl_seq_inner_product v e (length v) =? 0)
                     (from_vec_eqs (length v - 1) (length v - 1) v) = true).
    { apply forallb_forall. intros e He.
      apply from_vec_eqs_In in He as (k & Hk & ->).
      apply Z.eqb_eq. rewrite inner_product_comm.
      replace (length v) with (S (length v - 1)) at 2 by lia.
      rewrite from_vec_row_product by lia. lia. }
    rewrite Hall. reflexivity. }
  rewrite Hc. reflexivity.
Qed.

(** ** The policy block across the dispatcher *)

Section PolicyDispatch.

Context {ML : MatLayer} {BL : BsetLayer} {T undo : Type} {TL : TabLayer T undo}.

Lemma keeps_options_ret {A : Type} (r : res A) : keeps_options (st_ret r).
Proof. intros o _. reflexivity. Qed.

Lemma keeps_options_bind {A B : Type} (m : St A) (k : A -> St B) :
  keeps_options m -> (forall a, keeps_options (k a)) -> keeps_options (st_bind m k).
Proof.
  intros Hm Hk o. unfold st_bind. specialize (Hm o).
  destruct (m o) as [[a| | |] o']; cbn [fst snd returned] in *;
    try (intros; auto; contradiction).
  intros Hr. specialize (Hm I). subst o'. apply Hk. exact Hr.
Qed.

Lemma keeps_options_sample_eq (bset : isl_basic_set) (recurse : isl_basic_set -> St isl_vec) :
  (forall b, keeps_options (recurse b)) -> keeps_options (sample_eq bset recurse).
Proof.
  intros Hr. unfold sample_eq.
  destruct (isl_basic_set_remove_equalities bset) as [[b Tm]|]; [|apply keeps_options_ret].
  apply keeps_options_bind; [apply Hr|].
  intros s. destruct (length s =? 0)%nat; apply keeps_options_ret.
Qed.

Lemma keeps_options_tab_sample (fuel : nat) (sc : scratch undo) (tab : isl_tab T) :
  keeps_options (isl_tab_sample fuel sc tab).
Proof. intros o. apply isl_tab_sample_restores_options. Qed.

Lemma keeps_options_sample_bounded (fuel : nat) (sc : scratch undo) :
  forall bset, keeps_options (sample_bounded fuel sc bset).
Proof.
  induction fuel as [|fuel IH]; intros bset; cbn [sample_bounded].
  - apply keeps_options_ret.
  - repeat case_match.
    all: repeat first
           [ apply keeps_options_ret | apply keeps_options_tab_sample | apply IH
           | apply keeps_options_sample_eq; intros ?
           | apply keeps_options_bind; [|intros ?] ].
Qed.

Lemma keeps_options_with_cone (fuel : nat) (sc : scratch undo)
    (bset cone : isl_basic_set) :
  keeps_options (isl_basic_set_sample_with_cone fuel sc bset cone).
Proof.
  unfold isl_basic_set_sample_with_cone.
  repeat case_match; try apply keeps_options_ret.
  all: apply keeps_options_bind; [apply keeps_options_sample_bounded|].
  all: intros r; repeat case_match; apply keeps_options_ret.
Qed.

Lemma keeps_options_gbr_sample (fuel : nat) (sc : scratch undo) (bset : isl_basic_set) :
  keeps_options (gbr_sample fuel sc bset).
Proof.
  unfold gbr_sample. repeat case_match.
  all: repeat first
         [ apply keeps_options_ret | apply keeps_options_sample_bounded
         | apply keeps_options_with_cone
         | apply keeps_options_bind; [|intros ?] ].
Qed.

Lemma keeps_options_basic_set_sample (fuel : nat) (sc : scratch undo) (bounded : bool) :
  forall bset, keeps_options (basic_set_sample fuel sc bset bounded).
Proof.
  induction fuel as [|fuel IH]; intros bset; cbn [basic_set_sample].
  - apply keeps_options_ret.
  - assert (Hrest : keeps_options
              (let bset := set_sample None bset in
               if (0 <? n_eq bset)%nat then
                 st_bind
                   (sample_eq bset (fun b =>
                      st_bind (basic_set_sample fuel sc b bounded)
                        (fun r => st_ret (Ok (fst r)))))
                   (fun s => st_ret (Ok (s, bset)))
               else if (isl_basic_set_n_dim bset =? 0)%nat
               then st_ret (Ok (zero_sample bset, bset))
               else if (isl_basic_set_n_dim bset =? 1)%nat then
                 st_ret (res_bind (interval_sample bset) (fun s => Ok (s, bset)))
               else
                 fun o =>
                   match ilp_solver o with
                   | ISL_ILP_PIP =>
                       st_ret (res_bind (pip_sample bset)
                                (fun s => Ok (s, skew_leaves bset))) o
                   | ISL_ILP_GBR =>
                       if bounded then sample_bounded (S fuel) sc bset o
                       else gbr_sample (S fuel) sc bset o
                   end)).
    { cbv zeta. repeat case_match.
      all: try (intros o; destruct (ilp_solver o)).
      all: repeat first
             [ apply keeps_options_ret | apply keeps_options_sample_bounded
             | apply keeps_options_gbr_sample | apply IH
             | apply keeps_options_sample_eq; intros ?
             | apply keeps_options_bind; [|intros ?] ]. }
    destruct (isl_basic_set_fast_is_empty bset); [apply keeps_options_ret|].
    destruct (negb (isl_basic_set_n_param bset =? 0)%nat); [apply keeps_options_ret|].
    destruct (negb (bset_n_div bset =? 0)%nat); [apply keeps_options_ret|].
    destruct (bset_sample bset) as [c|]; [|exact Hrest].
    destruct (length c =? 1 + isl_basic_set_n_dim bset)%nat; [|exact Hrest].
    destruct (isl_basic_set_contains bset c <? 0); [apply keeps_options_ret|].
    destruct (negb (isl_basic_set_contains bset c =? 0));
      [apply keeps_options_ret|exact Hrest].
Qed.

(** X5.  Whenever the dispatcher comes back to its caller, with a sample, with
    the zero-length vector or with NULL, the policy block of the context is
    what it was on entry, through every path: the equality reduction and
    its recursive call, the bounded tableau search, and the sampling along
    the recession cone. *)
Theorem basic_set_sample_restores_options (fuel : nat) (sc : scratch undo)
    (bset : isl_basic_set) (bounded : bool) (o : isl_options) :
  returned (fst (basic_set_sample fuel sc bset bounded o)) ->
  snd (basic_set_sample fuel sc bset bounded o) = o.
Proof. apply keeps_options_basic_set_sample. Qed.

End PolicyDispatch.

(** ** The set after a call of the dispatcher *)

Section CacheAfter.

Context {ML : MatLayer} {BL : BsetLayer} {T undo : Type} {TL : TabLayer T undo}.

Lemma sample_bounded_touched (fuel : nat) (sc : scratch undo) (bset b1 : isl_basic_set)
    (o o1 : isl_options) (s : isl_vec) :
  sample_bounded fuel sc bset o = (Ok (s, b1), o1) -> touched_as bset s b1.
Proof.
  destruct fuel as [|fuel]; [discriminate|].
  cbn [sample_bounded]. unfold st_bind, st_ret, res_bind.
  intros H.
  repeat case_match; simplify_eq; try (left; reflexivity).
  - right; left. split; reflexivity.
  - right; right. split; [reflexivity|].
    intros ->. discriminate.
  - right; right. split; [reflexivity|].
    intros ->. discriminate.
Qed.

Lemma gbr_sample_touched (fuel : nat) (sc : scratch undo) (bset b1 : isl_basic_set)
    (o o1 : isl_options) (s : isl_vec) :
  gbr_sample fuel sc bset o = (Ok (s, b1), o1) -> touched_as bset s b1.
Proof.
  unfold gbr_sample, st_bind, st_ret. intros H.
  repeat case_match; simplify_eq; try (left; reflexivity).
  eapply sample_bounded_touched; eassumption.
Qed.

(** X6.  After a successful call of the dispatcher on a set that is not
    flagged EMPTY, the set has the constraints it had, the inequalities
    possibly in another order: either the order is the one it was, or the
    call went through the PIP back end, which has moved the unit rows up in
    place.  Its cached sample is either absent or the vector just returned,
    and then not the zero-length one; and its EMPTY flag is set only if the
    answer was the zero-length vector. *)
Theorem basic_set_sample_cache_after (fuel : nat) (sc : scratch undo)
    (bset b1 : isl_basic_set) (bounded : bool) (o o1 : isl_options) (s : isl_vec) :
  basic_set_sample fuel sc bset bounded o = (Ok (s, b1), o1) ->
  isl_basic_set_fast_is_empty bset = false ->
  same_constraints_reordered bset b1 /\
  (same_constraints bset b1 \/
   (ilp_solver o = ISL_ILP_PIP /\ b1 = skew_leaves (set_sample None bset))) /\
  (bset_sample b1 = None \/ (bset_sample b1 = Some s /\ s <> [])) /\
  (bset_flag_empty b1 = true -> s = []).
Proof.
  destruct fuel as [|fuel]; [discriminate|].
  cbn [basic_set_sample]. intros H He. rewrite He in H.
  destruct (Nat.eqb_spec (isl_basic_set_n_param bset) 0) as [Hp|]; [|discriminate].
  destruct (Nat.eqb_spec (bset_n_div bset) 0) as [Hd|]; [|discriminate].
  cbn [negb] in H.
  assert (Hrest : forall r : St (isl_vec * isl_basic_set),
            r = (let bset := set_sample None bset in
                 if (0 <? n_eq bset)%nat then
                   st_bind
                     (sample_eq bset (fun b =>
                        st_bind (basic_set_sample fuel sc b bounded)
                          (fun r => st_ret (Ok (fst r)))))
                     (fun s => st_ret (Ok (s, bset)))
                 else if (isl_basic_set_n_dim bset =? 0)%nat
                 then st_ret (Ok (zero_sample bset, bset))
                 else if (isl_basic_set_n_dim bset =? 1)%nat then
                   st_ret (res_bind (interval_sample bset) (fun s => Ok (s, bset)))
                 else
                   fun o =>
                     match ilp_solver o with
                     | ISL_ILP_PIP =>
                         st_ret (res_bind (pip_sample bset)
                                   (fun s => Ok (s, skew_leaves bset))) o
                     | ISL_ILP_GBR =>
                         if bounded then sample_bounded (S fuel) sc bset o
                         else gbr_sample (S fuel) sc bset o
                     end) ->
            r o = (Ok (s, b1), o1) ->
            touched_as (set_sample None bset) s b1 \/
            (ilp_solver o = ISL_ILP_PIP /\ b1 = skew_leaves (set_sample None bset))).
  { clear H. intros r -> Hr. cbv zeta in Hr. unfold st_bind, st_ret, res_bind in Hr.
    destruct (0 <? n_eq (set_sample None bset))%nat.
    { left. repeat case_match; simplify_eq; left; reflexivity. }
    destruct (isl_basic_set_n_dim (set_sample None bset) =? 0)%nat.
    { left. simplify_eq. left. reflexivity. }
    destruct (isl_basic_set_n_dim (set_sample None bset) =? 1)%nat.
    { left. repeat case_match; simplify_eq; left; reflexivity. }
    destruct (ilp_solver o) eqn:Hilp.
    - left. destruct bounded.
      + eapply sample_bounded_touched; eassumption.
      + eapply gbr_sample_touched; eassumption.
    - right. split; [reflexivity|].
      destruct (pip_sample (set_sample None bset)); simplify_eq. reflexivity. }
  assert (Hfin : touched_as (set_sample None bset) s b1 \/
                 (ilp_solver o = ISL_ILP_PIP /\ b1 = skew_leaves (set_sample None bset)) ->
                 same_constraints_reordered bset b1 /\
                 (same_constraints bset b1 \/
   (ilp_solver o = ISL_ILP_PIP /\ b1 = skew_leaves (set_sample None bset))) /\
                 (bset_sample b1 = None \/ (bset_sample b1 = Some s /\ s <> [])) /\
                 (bset_flag_empty b1 = true -> s = [])).
  { unfold isl_basic_set_fast_is_empty in He.
    intros [[->|[[-> ->]|[-> Hs]]]|[Hpip ->]].
    - cbn. split; [repeat split; reflexivity|]. split; [left; repeat split|].
      split; [left; reflexivity|]. rewrite He. discriminate.
    - cbn. split; [repeat split; reflexivity|]. split; [left; repeat split|].
      split; [left; reflexivity|reflexivity].
    - cbn. split; [repeat split; reflexivity|]. split; [left; repeat split|].
      split; [right; split; [reflexivity|exact Hs]|]. rewrite He. discriminate.
    - destruct (skew_leaves_reordered (set_sample None bset)) as (Hr & Hsm & Hfl).
      split; [exact Hr|]. split; [right; split; [exact Hpip|reflexivity]|].
      split; [left; rewrite Hsm; reflexivity|].
      rewrite Hfl. cbn. rewrite He. discriminate. }
  destruct (bset_sample bset) as [c|] eqn:Hc;
    [|apply Hfin; eapply Hrest; [reflexivity|exact H]].
  destruct (Nat.eqb_spec (length c) (1 + isl_basic_set_n_dim bset)) as [Hl|];
    [|apply Hfin; eapply Hrest; [reflexivity|exact H]].
  destruct (isl_basic_set_contains bset c <? 0); [discriminate|].
  destruct (negb (isl_basic_set_contains bset c =? 0));
    [|apply Hfin; eapply Hrest; [reflexivity|exact H]].
  unfold st_ret in H. simplify_eq.
  split; [repeat split; reflexivity|]. split; [left; apply same_constraints_refl|]. split.
  - right. split; [exact Hc|]. intros ->. simpl in Hl. lia.
  - unfold isl_basic_set_fast_is_empty in He. rewrite He. discriminate.
Qed.

End CacheAfter.

(** ** The candidates of a level *)

Lemma last_snap_snoc (l : Z) (tr : list event) (e : event) :
  last_snap l (tr ++ [e])
  = match e with
    | EvSnap l' b => if l' =? l then Some b else last_snap l tr
    | _ => last_snap l tr
    end.
Proof. unfold last_snap. rewrite fold_left_app. destruct e; reflexivity. Qed.

Lemma each_from_app (P : list event -> event -> Prop) (pre a b : list event) :
  each_from P pre (a ++ b) <-> each_from P pre a /\ each_from P (pre ++ a) b.
Proof.
  revert pre; induction a as [|e a IH]; intros pre; simpl.
  - rewrite app_nil_r. tauto.
  - rewrite IH, <- app_assoc. simpl. tauto.
Qed.

Section RangeProofs.

Context {ML : MatLayer} {T undo : Type} {TL : TabLayer T undo}.

(** [step_bounds] writes [max] at the index of the level only. *)
Lemma step_bounds_frame_max (dim lv : nat) (tab : isl_tab T) (mn0 mx0 : list Z) :
  match step_bounds dim lv tab mn0 mx0 with
  | BoundsKnown _ _ mx _ | BoundsBreak _ _ mx =>
      forall j, j <> lv -> el mx j = el mx0 j
  | _ => True
  end.
Proof.
  unfold step_bounds.
  destruct (tab_basis tab) as [b|]; [|exact I].
  destruct (negb (row_in_range dim b (1 + lv))); [exact I|].
  destruct (isl_tab_min tab (mrow b (1 + lv)) 1) as [res tab1].
  assert (Hany : forall res2 : isl_lp_result, forall j, j <> lv ->
            el (<[lv := - el (match res2 with isl_lp_ok v => <[lv := v]> mx0 | _ => mx0 end) lv]>
                  (match res2 with isl_lp_ok v => <[lv := v]> mx0 | _ => mx0 end)) j
            = el mx0 j).
  { intros res2 j Hj. rewrite el_insert_ne by congruence.
    destruct res2; try reflexivity. apply el_insert_ne. congruence. }
  destruct res as [v| | |]; try exact I; cbn [negb andb].
  - destruct (isl_tab_sample_is_integer tab1); [reflexivity|].
    destruct (neg_basis_row dim lv tab1) as [tabn|]; [|exact I].
    destruct (isl_tab_min tabn _ 1) as [res2 tab2].
    destruct (neg_basis_row dim lv tab2) as [tab3|]; [|exact I].
    pose proof (Hany res2) as Hres.
    destruct res2 as [w| | |]; try exact I; cbn [negb andb].
    + destruct (isl_tab_sample_is_integer tab3); exact Hres.
    + exact Hres.
  - destruct (neg_basis_row dim lv tab1) as [tabn|]; [|exact I].
    destruct (isl_tab_min tabn _ 1) as [res2 tab2].
    destruct (neg_basis_row dim lv tab2) as [tab3|]; [|exact I].
    pose proof (Hany res2) as Hres.
    destruct res2 as [w| | |]; try exact I; cbn [negb andb]; exact Hres.
Qed.

Lemma step_pin_in_range (dim : nat) (tab : isl_tab T) (o : isl_options)
    (mn mx : list Z) (snap : list undo) (level : Z) (empty reduced : bool)
    (evs tr : list event) :
  0 <= level ->
  (forall j, 0 <= j < level ->
     exists lo, last_snap j (tr ++ evs) = Some (Some (lo, el mx (Z.to_nat j))) /\
                lo <= el mn (Z.to_nat j) <= el mx (Z.to_nat j)) ->
  each_from pin_in_range tr evs ->
  (empty = false ->
   exists lo, last_snap level (tr ++ evs) = Some (Some (lo, el mx (Z.to_nat level))) /\
              lo <= el mn (Z.to_nat level)) ->
  each_from pin_in_range tr (fst (step_pin dim tab o mn mx snap level empty reduced evs)) /\
  (forall s', snd (step_pin dim tab o mn mx snap level empty reduced evs) = Continue s' ->
     in_range s' (tr ++ fst (step_pin dim tab o mn mx snap level empty reduced evs))).
Proof.
  intros Hlevel Hlow Hevs Hcur. unfold step_pin.
  set (lv := Z.to_nat level) in *.
  assert (Hroll : forall l', each_from pin_in_range tr (evs ++ [EvRollback l'])).
  { intros l'. apply each_from_app. split; [exact Hevs|]. simpl. auto. }
  destruct (empty || (el mx lv <? el mn lv)) eqn:Hc.
  - destruct (Z.leb_spec 0 (level - 1)) as [Hge|Hlt].
    + destruct (snap !! Z.to_nat (level - 1)) as [u|]; cbn [fst snd];
        [|split; [exact Hevs|discriminate]].
      destruct (isl_tab_rollback tab u) as [tab'|]; cbn [fst snd];
        (split; [apply Hroll|]); [|discriminate].
      intros s' [= <-]. intros j Hj. cbn in *.
      rewrite app_assoc, last_snap_snoc. apply Hlow. lia.
    + cbn [fst snd]. split; [exact Hevs|].
      intros s' [= <-]. intros j Hj. cbn in *. lia.
  - apply orb_false_elim in Hc as [-> Hle]. apply Z.ltb_ge in Hle.
    destruct (Hcur eq_refl) as (lo & Hsnap & Hlo).
    assert (Hok : each_from pin_in_range tr (evs ++ [EvPin level (el mn lv)])).
    { apply each_from_app. split; [exact Hevs|]. simpl.
      split; [|exact I]. exists lo, (el mx lv). split; [exact Hsnap|lia]. }
    destruct (set_basis_const dim lv (- el mn lv) tab) as [tab1|]; cbn [fst snd];
      [|split; [exact Hevs|discriminate]].
    destruct (isl_tab_add_valid_eq tab1 _) as [tab2|]; cbn [fst snd];
      [|split; [exact Hok|discriminate]].
    destruct (set_basis_const dim lv 0 tab2) as [tab3|]; cbn [fst snd];
      [|split; [exact Hok|discriminate]].
    destruct (u32 (level + Z.of_nat (tab_n_unbounded tab3)) <? u32 (Z.of_nat dim - 1));
      cbn [fst snd]; (split; [exact Hok|]); [|discriminate].
    intros s' [= <-]. intros j Hj. cbn in *.
    rewrite app_assoc, last_snap_snoc.
    destruct (Z.eq_dec j level) as [->|Hne].
    + exists lo. fold lv. split; [exact Hsnap|lia].
    + apply Hlow. lia.
Qed.

Lemma step_in_range (dim : nat) (s : search T undo) (tr : list event) :
  0 <= s_level s ->
  in_range s tr ->
  each_from pin_in_range tr (fst (step dim s)) /\
  (forall s', snd (step dim s) = Continue s' -> in_range s' (tr ++ fst (step dim s))).
Proof.
  intros Hlevel Hin. unfold in_range in Hin. unfold step.
  set (lv := Z.to_nat (s_level s)) in *.
  destruct (negb _) eqn:Hguard; cbn [fst snd]; [split; [exact I|discriminate]|].
  apply negb_false_iff in Hguard.
  apply andb_prop in Hguard as [Hguard _]. apply andb_prop in Hguard as [Hlen Hlenx].
  apply Nat.ltb_lt in Hlen. apply Nat.ltb_lt in Hlenx.
  destruct (s_init s) eqn:Hinit.
  - pose proof (step_bounds_frame dim lv (s_tab s) (s_min s) (s_max s)) as Hframe.
    pose proof (step_bounds_frame_max dim lv (s_tab s) (s_min s) (s_max s)) as Hframex.
    destruct (step_bounds dim lv (s_tab s) (s_min s) (s_max s)) as [tab mn mx empty|tab mn mx| |];
      cbn [fst snd]; try (split; [exact I|discriminate]).
    assert (Hlow : forall e j, 0 <= j < s_level s ->
              (forall b, e <> EvSnap j b) ->
              exists lo, last_snap j (tr ++ [e]) = Some (Some (lo, el mx (Z.to_nat j))) /\
                         lo <= el mn (Z.to_nat j) <= el mx (Z.to_nat j)).
    { intros e j Hj He. rewrite last_snap_snoc.
      rewrite Hframe, Hframex by (unfold lv; lia).
      destruct e as [l|l b|l v|l]; try (apply Hin; lia).
      destruct (Z.eqb_spec l j) as [->|_]; [destruct (He b eq_refl)|apply Hin; lia]. }
    destruct (negb empty && negb (s_reduced s)
              && negb (gbr_mode_eqb (gbr (s_opt s)) ISL_GBR_NEVER)
              && (el mn lv <? el mx lv)) eqn:Hcond.
    + assert (Hev : each_from pin_in_range tr [EvReduce (s_level s)]) by (simpl; auto).
      unfold step_reduce.
      destruct (isl_tab_compute_reduced_basis _ _) as [tab2|]; cbn [fst snd];
        [|split; [exact Hev|discriminate]].
      destruct (tab_basis tab2); cbn [fst snd]; (split; [exact Hev|]); [|discriminate].
      intros s' [= <-]. intros j Hj. cbn in *.
      apply Hlow; [lia|discriminate].
    + apply step_pin_in_range.
      * exact Hlevel.
      * intros j Hj. apply Hlow; [lia|]. intros b [= He]. lia.
      * simpl. auto.
      * intros ->. exists (el mn lv).
        rewrite last_snap_snoc, Z.eqb_refl. fold lv. split; [reflexivity|lia].
  - apply step_pin_in_range.
    + exact Hlevel.
    + intros j Hj. rewrite app_nil_r.
      rewrite el_insert_ne by (unfold lv; lia). apply Hin. lia.
    + exact I.
    + intros _. rewrite app_nil_r. fold lv.
      destruct (Hin (s_level s) ltac:(lia)) as (lo & Hs & Hlo). fold lv in Hs, Hlo.
      exists lo. split; [exact Hs|].
      rewrite el_insert_eq by exact Hlen. lia.
Qed.

Lemma search_loop_in_range (fuel dim : nat) :
  forall (s : search T undo) (tr : list event),
    in_range s tr -> each_from pin_in_range tr (fst (search_loop fuel dim s)).
Proof.
  induction fuel as [|fuel IH]; intros s tr Htr.
  - simpl. destruct (s_level s <? 0); exact I.
  - rewrite search_loop_unfold.
    destruct (Z.ltb_spec (s_level s) 0) as [Hneg|Hnn]; [exact I|].
    destruct (step_in_range dim s tr Hnn Htr) as [Hev Hnext].
    destruct (step dim s) as [evs out]. cbn [fst snd] in *.
    destruct out as [s'|s'|o'|o']; cbn [fst]; try exact Hev.
    specialize (IH s' (tr ++ evs) (Hnext s' eq_refl)).
    destruct (search_loop fuel dim s') as [evs' r]. cbn [fst] in *.
    apply each_from_app. split; assumption.
Qed.

(** X3.  In the calls that a run of [isl_tab_sample] makes to the tableau
    engine, every value pinned at a level lies between the minimum and the
    maximum that were computed for the level when it was last entered (and
    recorded with its snapshot): the search never tries a candidate outside
    the range of the level, whatever the engine answers. *)
Theorem isl_tab_sample_pins_in_range (fuel : nat) (sc : scratch undo)
    (tab : isl_tab T) (o : isl_options) :
  forall pre l v post,
    fst (isl_tab_sample_trace fuel sc tab o) = pre ++ EvPin l v :: post ->
    exists lo hi, last_snap l pre = Some (Some (lo, hi)) /\ lo <= v <= hi.
Proof.
  assert (H : each_from pin_in_range [] (fst (isl_tab_sample_trace fuel sc tab o))).
  { unfold isl_tab_sample_trace.
    repeat case_match; try exact I; subst; cbn [fst].
    all: match goal with
         | H : search_loop ?f ?d ?s = (?e, _) |- _ =>
             change e with (fst (e, l0)); rewrite <- H; apply search_loop_in_range
         end.
    all: intros j Hj; cbn in Hj; lia. }
  intros pre l v post Heq. rewrite Heq in H.
  apply each_from_app in H as [_ H]. simpl in H. apply H.
Qed.

End RangeProofs.

(** ** Termination of the search *)

Section Termination.

Context {ML : MatLayer} {T undo : Type} {TL : TabLayer T undo}.

Lemma halts_done (dim : nat) (s : search T undo) : s_level s < 0 -> halts dim s.
Proof.
  intros Hl. exists O. intros s'. simpl.
  destruct (Z.ltb_spec (s_level s) 0); [discriminate|lia].
Qed.

Lemma halts_step (dim : nat) (s : search T undo) :
  (forall s', snd (step dim s) = Continue s' -> halts dim s') -> halts dim s.
Proof.
  intros H.
  destruct (Z.ltb_spec (s_level s) 0) as [Hneg|Hnn]; [apply halts_done, Hneg|].
  destruct (step dim s) as [evs out] eqn:Hs. cbn [snd] in H.
  destruct out as [s1|s1|o1|o1].
  - destruct (H s1 eq_refl) as [fuel Hf]. exists (S fuel). intros s'.
    rewrite search_loop_unfold, Hs.
    destruct (Z.ltb_spec (s_level s) 0); [lia|].
    specialize (Hf s'). destruct (search_loop fuel dim s1) as [evs' r]. exact Hf.
  - exists 1%nat. intros s'. rewrite search_loop_unfold, Hs.
    destruct (s_level s <? 0); discriminate.
  - exists 1%nat. intros s'. rewrite search_loop_unfold, Hs.
    destruct (s_level s <? 0); discriminate.
  - exists 1%nat. intros s'. rewrite search_loop_unfold, Hs.
    destruct (s_level s <? 0); discriminate.
Qed.

Lemma step_bounds_length (dim lv : nat) (tab : isl_tab T) (mn0 mx0 : list Z) :
  match step_bounds dim lv tab mn0 mx0 with
  | BoundsKnown _ mn mx _ | BoundsBreak _ mn mx =>
      length mn = length mn0 /\ length mx = length mx0
  | _ => True
  end.
Proof.
  unfold step_bounds.
  destruct (tab_basis tab) as [b|]; [|exact I].
  destruct (negb (row_in_range dim b (1 + lv))); [exact I|].
  destruct (isl_tab_min tab (mrow b (1 + lv)) 1) as [res tab1].
  destruct res as [v| | |]; try exact I; cbn [negb andb].
  - destruct (isl_tab_sample_is_integer tab1);
      [rewrite length_insert; split; reflexivity|].
    destruct (neg_basis_row dim lv tab1) as [tabn|]; [|exact I].
    destruct (isl_tab_min tabn _ 1) as [res2 tab2].
    destruct (neg_basis_row dim lv tab2) as [tab3|]; [|exact I].
    destruct res2 as [w| | |]; try exact I; cbn [negb andb].
    + destruct (isl_tab_sample_is_integer tab3);
        rewrite !length_insert; split; reflexivity.
    + rewrite !length_insert; split; reflexivity.
  - destruct (neg_basis_row dim lv tab1) as [tabn|]; [|exact I].
    destruct (isl_tab_min tabn _ 1) as [res2 tab2].
    destruct (neg_basis_row dim lv tab2) as [tab3|]; [|exact I].
    destruct res2 as [w| | |]; try exact I; cbn [negb andb];
      rewrite ?length_insert; split; reflexivity.
Qed.

Lemma step_pin_shape (dim : nat) (tab : isl_tab T) (o : isl_options)
    (mn mx : list Z) (snap : list undo) (level : Z) (empty reduced : bool)
    (evs : list event) (s' : search T undo) :
  snd (step_pin dim tab o mn mx snap level empty reduced evs) = Continue s' ->
  s_min s' = mn /\ s_max s' = mx /\
  ((s_level s' = level - 1 /\ s_init s' = false)
   \/ (s_level s' = level + 1 /\ s_init s' = true /\
       el mn (Z.to_nat level) <= el mx (Z.to_nat level))).
Proof.
  unfold step_pin.
  destruct (empty || (el mx (Z.to_nat level) <? el mn (Z.to_nat level))) eqn:Hc.
  - repeat case_match; cbn [snd]; try discriminate; intros [= <-]; cbn.
    all: split; [reflexivity|]; split; [reflexivity|]; left; split; reflexivity.
  - apply orb_false_elim in Hc as [_ Hle]. apply Z.ltb_ge in Hle.
    repeat case_match; cbn [snd]; try discriminate; intros [= <-]; cbn.
    all: split; [reflexivity|]; split; [reflexivity|]; right.
    all: split; [reflexivity|]; split; [reflexivity|exact Hle].
Qed.

(** What an iteration that does not end the loop leaves behind. *)
Lemma step_shape (dim : nat) (s s' : search T undo) :
  0 <= s_level s ->
  snd (step dim s) = Continue s' ->
  (Z.to_nat (s_level s) < length (s_min s))%nat /\
  length (s_min s') = length (s_min s) /\
  (forall j : nat, Z.of_nat j < s_level s ->
     el (s_min s') j = el (s_min s) j /\ el (s_max s') j = el (s_max s) j) /\
  ((s_level s' = s_level s /\ s_init s' = true /\ s_reduced s' = true /\
    s_init s = true /\ s_reduced s = false)
   \/ (s_level s' = s_level s - 1 /\ s_init s' = false)
   \/ (s_level s' = s_level s + 1 /\ s_init s' = true /\
       el (s_min s') (Z.to_nat (s_level s)) <= el (s_max s') (Z.to_nat (s_level s)) /\
       (s_init s = false ->
        el (s_min s') (Z.to_nat (s_level s)) = el (s_min s) (Z.to_nat (s_level s)) + 1 /\
        el (s_max s') (Z.to_nat (s_level s)) = el (s_max s) (Z.to_nat (s_level s))))).
Proof.
  intros Hlevel. unfold step.
  set (lv := Z.to_nat (s_level s)) in *.
  destruct (negb _) eqn:Hguard; cbn [snd]; [discriminate|].
  apply negb_false_iff in Hguard.
  apply andb_prop in Hguard as [Hguard _]. apply andb_prop in Hguard as [Hlen _].
  apply Nat.ltb_lt in Hlen.
  destruct (s_init s) eqn:Hinit.
  - pose proof (step_bounds_frame dim lv (s_tab s) (s_min s) (s_max s)) as Hf.
    pose proof (step_bounds_frame_max dim lv (s_tab s) (s_min s) (s_max s)) as Hfx.
    pose proof (step_bounds_length dim lv (s_tab s) (s_min s) (s_max s)) as Hl.
    destruct (step_bounds dim lv (s_tab s) (s_min s) (s_max s)) as [tab mn mx empty|tab mn mx| |];
      cbn [snd]; try discriminate.
    destruct Hl as [Hl1 Hl2].
    assert (Hbelow : forall j : nat, Z.of_nat j < s_level s ->
              el mn j = el (s_min s) j /\ el mx j = el (s_max s) j).
    { intros j Hj. split; [apply Hf|apply Hfx]; unfold lv; lia. }
    destruct (negb empty && negb (s_reduced s)
              && negb (gbr_mode_eqb (gbr (s_opt s)) ISL_GBR_NEVER)
              && (el mn lv <? el mx lv)) eqn:Hcond.
    + apply andb_prop in Hcond as [Hcond _]. apply andb_prop in Hcond as [Hcond _].
      apply andb_prop in Hcond as [_ Hnr]. apply negb_true_iff in Hnr.
      unfold step_reduce.
      repeat case_match; cbn [snd]; try discriminate; intros [= <-]; cbn.
      all: split; [exact Hlen|]; split; [exact Hl1|]; split; [exact Hbelow|].
      all: left; auto.
    + intros Hs. apply step_pin_shape in Hs as (Hm & Hx & Hk).
      rewrite Hm, Hx. split; [exact Hlen|]. split; [exact Hl1|]. split; [exact Hbelow|].
      right. destruct Hk as [Hk|(H1 & H2 & H3)]; [left; exact Hk|right].
      split; [exact H1|]. split; [exact H2|]. split; [exact H3|]. discriminate.
  - intros Hs. apply step_pin_shape in Hs as (Hm & Hx & Hk).
    rewrite Hm, Hx. split; [exact Hlen|]. split; [apply length_insert|].
    split.
    { intros j Hj. split; [|reflexivity]. apply el_insert_ne. unfold lv. lia. }
    right. destruct Hk as [Hk|(H1 & H2 & H3)]; [left; exact Hk|right].
    split; [exact H1|]. split; [exact H2|]. split; [exact H3|].
    intros _. split; [|reflexivity]. fold lv. apply el_insert_eq, Hlen.
Qed.

Lemma resumes_agree (dim : nat) (L : Z) (s0 s1 : search T undo) :
  length (s_min s1) = length (s_min s0) ->
  (forall j : nat, Z.of_nat j <= L ->
     el (s_min s1) j = el (s_min s0) j /\ el (s_max s1) j = el (s_max s0) j) ->
  resumes dim L s0 -> resumes dim L s1.
Proof.
  intros Hlen Hag Hr s' Hl Hi Hlen' Hag'.
  apply Hr; [exact Hl|exact Hi|congruence|].
  intros j Hj. destruct (Hag j Hj) as [H1 H2]. destruct (Hag' j Hj) as [H3 H4].
  split; congruence.
Qed.

(** The descent into the levels above [L] being known to halt, the search
    halts from every state that tries the next candidate at level [L]: by
    induction on the number of candidates left. *)
Lemma halts_next_candidate (dim k : nat) :
  (forall s2 : search T undo,
     0 <= s_level s2 -> s_init s2 = true ->
     (length (s_min s2) - Z.to_nat (s_level s2) <= k)%nat ->
     resumes dim (s_level s2 - 1) s2 -> halts dim s2) ->
  forall (r : nat) (s : search T undo),
    0 <= s_level s -> s_init s = false ->
    (length (s_min s) - Z.to_nat (s_level s) <= S k)%nat ->
    el (s_max s) (Z.to_nat (s_level s)) - el (s_min s) (Z.to_nat (s_level s)) <= Z.of_nat r ->
    resumes dim (s_level s - 1) s ->
    halts dim s.
Proof.
  intros Hdesc. induction r as [|r IH]; intros s Hlevel Hinit Hk Hr Hres.
  all: apply halts_step; intros s' Hs.
  all: destruct (step_shape dim s s' Hlevel Hs) as (Hlt & Hlen & Hbelow & Hcase).
  all: destruct Hcase as [(_ & _ & _ & Hi & _)|[(Hl & Hi)|(Hl & Hi & Hle & Hnext)]];
    [congruence| |].
  - apply Hres; [exact Hl|exact Hi|exact Hlen|].
    intros j Hj. apply Hbelow. lia.
  - destruct (Hnext Hinit) as [Hmn Hmx]. lia.
  - apply Hres; [exact Hl|exact Hi|exact Hlen|].
    intros j Hj. apply Hbelow. lia.
  - destruct (Hnext Hinit) as [Hmn Hmx].
    apply Hdesc; [lia|exact Hi|rewrite Hl, Hlen; lia|].
    rewrite Hl. replace (s_level s + 1 - 1) with (s_level s) by lia.
    intros s'' Hl'' Hi'' Hlen'' Hag''.
    assert (Hat : el (s_min s'') (Z.to_nat (s_level s)) = el (s_min s') (Z.to_nat (s_level s))
                  /\ el (s_max s'') (Z.to_nat (s_level s)) = el (s_max s') (Z.to_nat (s_level s)))
      by (apply Hag''; lia).
    destruct Hat as [Hat1 Hat2].
    apply IH.
    + lia.
    + exact Hi''.
    + rewrite Hl'', Hlen'', Hlen. exact Hk.
    + rewrite Hl'', Hat1, Hat2, Hmn, Hmx. lia.
    + rewrite Hl''. apply (resumes_agree dim _ s); [congruence| |exact Hres].
      intros j Hj. destruct (Hag'' j ltac:(lia)) as [H1 H2].
      destruct (Hbelow j ltac:(lia)) as [H3 H4]. split; congruence.
Qed.

(** From a state that is not about to reduce the basis: the iteration
    backtracks, or pins a value and descends. *)
Lemma halts_after_bounds (dim k : nat) (s : search T undo) :
  (forall s2 : search T undo,
     0 <= s_level s2 -> s_init s2 = true ->
     (length (s_min s2) - Z.to_nat (s_level s2) <= k)%nat ->
     resumes dim (s_level s2 - 1) s2 -> halts dim s2) ->
  0 <= s_level s ->
  (length (s_min s) - Z.to_nat (s_level s) <= S k)%nat ->
  resumes dim (s_level s - 1) s ->
  forall s', snd (step dim s) = Continue s' ->
    s_level s' <> s_level s ->
    halts dim s'.
Proof.
  intros Hdesc Hlevel Hk Hres s' Hs Hne.
  destruct (step_shape dim s s' Hlevel Hs) as (Hlt & Hlen & Hbelow & Hcase).
  destruct Hcase as [(Hl & _)|[(Hl & Hi)|(Hl & Hi & Hle & Hnext)]]; [congruence| |].
  - apply Hres; [exact Hl|exact Hi|exact Hlen|].
    intros j Hj. apply Hbelow. lia.
  - apply Hdesc; [lia|exact Hi|rewrite Hl, Hlen; lia|].
    rewrite Hl. replace (s_level s + 1 - 1) with (s_level s) by lia.
    intros s'' Hl'' Hi'' Hlen'' Hag''.
    apply (halts_next_candidate dim k Hdesc
             (Z.to_nat (el (s_max s'') (Z.to_nat (s_level s''))
                        - el (s_min s'') (Z.to_nat (s_level s''))))).
    + lia.
    + exact Hi''.
    + rewrite Hl'', Hlen'', Hlen. exact Hk.
    + lia.
    + rewrite Hl''. apply (resumes_agree dim _ s); [congruence| |exact Hres].
      intros j Hj. destruct (Hag'' j ltac:(lia)) as [H1 H2].
      destruct (Hbelow j ltac:(lia)) as [H3 H4]. split; congruence.
Qed.

(** The search halts from every state that enters a level, whatever the
    engine answers: by induction on the number of levels above. *)
Lemma halts_enter (dim k : nat) :
  forall s : search T undo,
    0 <= s_level s -> s_init s = true ->
    (length (s_min s) - Z.to_nat (s_level s) <= k)%nat ->
    resumes dim (s_level s - 1) s -> halts dim s.
Proof.
  induction k as [|k IH]; intros s Hlevel Hinit Hk Hres.
  - apply halts_step. intros s' Hs.
    destruct (step_shape dim s s' Hlevel Hs) as (Hlt & _). lia.
  - apply halts_step. intros s' Hs.
    destruct (Z.eq_dec (s_level s') (s_level s)) as [Hsame|Hne];
      [|apply (halts_after_bounds dim k s IH Hlevel Hk Hres s' Hs Hne)].
    (* the basis was reduced: the level is entered again *)
    destruct (step_shape dim s s' Hlevel Hs) as (Hlt & Hlen & Hbelow & Hcase).
    destruct Hcase as [(Hl & Hi & Hr & _)|[(Hl & _)|(Hl & _)]]; [|lia|lia].
    assert (Hres' : resumes dim (s_level s' - 1) s').
    { rewrite Hl. apply (resumes_agree dim _ s); [exact Hlen| |exact Hres].
      intros j Hj. apply Hbelow. lia. }
    apply halts_step. intros s'' Hs'.
    apply (halts_after_bounds dim k s' IH); [lia|rewrite Hl, Hlen; exact Hk|exact Hres'|exact Hs'|].
    destruct (step_shape dim s' s'' ltac:(lia) Hs') as (_ & _ & _ & Hcase).
    destruct Hcase as [(_ & _ & _ & _ & Hr')|[(Hl' & _)|(Hl' & _)]]; [congruence|lia|lia].
Qed.

(** Some number of iterations of the search loop brings [isl_tab_sample]
    to its end. *)
Lemma isl_tab_sample_halts (sc : scratch undo) (tab : isl_tab T)
    (o : isl_options) :
  exists fuel, fst (isl_tab_sample fuel sc tab o) <> OutOfFuel.
Proof.
  unfold isl_tab_sample, isl_tab_sample_trace.
  destruct (tab_empty tab); [exists O; discriminate|].
  set (tab1 := match tab_basis tab with
               | Some _ => tab
               | None => set_basis (initial_basis tab) tab
               end).
  destruct (tab_basis tab1) as [b|]; [|exists O; discriminate].
  destruct (negb (mat_n_row b =? tab_n_var tab1 + 1)%nat); [exists O; discriminate|].
  destruct (negb (mat_n_col b =? tab_n_var tab1 + 1)%nat); [exists O; discriminate|].
  destruct (tab_n_unbounded tab1 =? tab_n_var tab1)%nat.
  { exists O. destruct (isl_tab_get_sample_value tab1) as [v|]; cbn; [|discriminate].
    destruct (round_in_basis tab1 v); discriminate. }
  destruct (isl_tab_extend_cons tab1 (tab_n_var tab1 + 1)) as [tab2|];
    [|exists O; discriminate].
  set (s0 := mk_search tab2 o (alloc_array (min0 sc) (tab_n_var tab1))
               (alloc_array (max0 sc) (tab_n_var tab1))
               (alloc_array (snap0 sc) (tab_n_var tab1)) 0 true false).
  destruct (halts_enter (tab_n_var tab1) (length (s_min s0)) s0) as [fuel Hf].
  - cbn. lia.
  - reflexivity.
  - cbn. lia.
  - intros s' Hl _ _ _. apply halts_done. cbn in Hl. lia.
  - exists fuel. destruct (search_loop fuel (tab_n_var tab1) s0) as [evs out] eqn:Hs.
    cbn [snd fst] in *. unfold search_finish.
    destruct out as [s1|o1|o1|s1]; [| | |destruct (Hf s1 eq_refl)].
    + destruct (0 <=? s_level s1); [|discriminate].
      destruct (isl_tab_get_sample_value (s_tab s1)) as [v|]; [|discriminate].
      destruct (negb (tab_n_unbounded (s_tab s1) =? 0)%nat && negb (el v 0 =? 1));
        [|discriminate].
      cbn. destruct (round_in_basis (s_tab s1) v); discriminate.
    + discriminate.
    + discriminate.
Qed.

(** X1.  Termination.  Whatever the tableau engine answers, [isl_tab_sample]
    comes to an end: some number of iterations of the search loop
    suffices, and no larger budget changes the outcome.  At each level the
    candidates between the computed minimum and maximum are finitely many,
    the basis is reduced at most once per entry, and the levels are
    at most as many as the arrays [min], [max] and [snap] have elements. *)
Theorem isl_tab_sample_terminates (sc : scratch undo) (tab : isl_tab T)
    (o : isl_options) :
  exists fuel, forall fuel', (fuel <= fuel')%nat ->
    fst (isl_tab_sample fuel' sc tab o) <> OutOfFuel /\
    isl_tab_sample fuel' sc tab o = isl_tab_sample fuel sc tab o.
Proof.
  destruct (isl_tab_sample_halts sc tab o) as [fuel Hf].
  exists fuel. intros fuel' Hle.
  rewrite (isl_tab_sample_more_fuel fuel fuel' sc tab o Hf Hle).
  split; [exact Hf|reflexivity].
Qed.

End Termination.

(** ** Memory safety of the search *)

Section NoFault.

Context {ML : MatLayer} {T undo : Type} {TL : TabLayer T undo}.

Variable dim : nat.

Hypothesis engine_frame : engine_keeps_frame TL dim.

Lemma length_seq_neg_range (p : list Z) (first len : nat) :
  length (seq_neg_range p first len) = length p.
Proof.
  unfold seq_neg_range.
  rewrite !length_app, length_map, !length_take, !length_drop. lia.
Qed.

Lemma row_in_range_set_mrow (b : isl_mat) (k : nat) (r : list Z) (i : nat) :
  (1 + dim <= length r)%nat ->
  row_in_range dim b i = true ->
  row_in_range dim (set_mrow b k r) i = true.
Proof.
  intros Hr. unfold row_in_range, set_mrow. cbn [mat_row].
  destruct (mat_row b !! i) as [r0|] eqn:Hi; [|discriminate]. intros H0.
  destruct (Nat.eq_dec k i) as [->|Hne].
  - rewrite list_lookup_insert_eq by (eapply lookup_lt_Some; exact Hi).
    apply Nat.leb_le. exact Hr.
  - rewrite list_lookup_insert_ne by exact Hne. rewrite Hi. exact H0.
Qed.

Lemma row_in_range_mrow (b : isl_mat) (i : nat) :
  row_in_range dim b i = true ->
  mat_row b !! i = Some (mrow b i) /\ (1 + dim <= length (mrow b i))%nat.
Proof.
  unfold row_in_range, mrow. destruct (mat_row b !! i) as [r|] eqn:Hi; [|discriminate].
  intros H. apply Nat.leb_le in H.
  rewrite (nth_lookup_Some _ _ [] _ Hi). split; [reflexivity|exact H].
Qed.

Lemma neg_basis_row_frame (lv : nat) (t : isl_tab T) :
  (lv < dim)%nat -> basis_in_range dim t ->
  exists t', neg_basis_row dim lv t = Some t' /\
             tab_n_unbounded t' = tab_n_unbounded t /\ basis_in_range dim t'.
Proof.
  intros Hlv (b & Hb & Hrows). unfold neg_basis_row. rewrite Hb.
  rewrite (Hrows (1 + lv)%nat) by lia. cbn [negb].
  eexists. split; [reflexivity|]. split; [reflexivity|].
  eexists. split; [reflexivity|]. intros i Hi.
  apply row_in_range_set_mrow; [|apply Hrows, Hi].
  rewrite length_seq_neg_range. apply row_in_range_mrow, Hrows. lia.
Qed.

Lemma set_basis_const_frame (lv : nat) (c : Z) (t : isl_tab T) :
  (lv < dim)%nat -> basis_in_range dim t ->
  exists t' b' r',
    set_basis_const dim lv c t = Some t' /\
    tab_n_unbounded t' = tab_n_unbounded t /\ basis_in_range dim t' /\
    tab_basis t' = Some b' /\ mat_row b' !! (1 + lv)%nat = Some r' /\
    mrow b' (1 + lv) = r' /\ el r' 0 = c.
Proof.
  intros Hlv (b & Hb & Hrows). unfold set_basis_const. rewrite Hb.
  rewrite (Hrows (1 + lv)%nat) by lia. cbn [negb].
  assert (Hin : row_in_range dim b (1 + lv) = true) by (apply Hrows; lia).
  destruct (row_in_range_mrow b (1 + lv) Hin) as [Hl Hlen].
  assert (Hnew : mat_row (set_mrow b (1 + lv) (<[O := c]> (mrow b (1 + lv))))
                   !! (1 + lv)%nat = Some (<[O := c]> (mrow b (1 + lv)))).
  { unfold set_mrow. cbn [mat_row].
    apply list_lookup_insert_eq. eapply lookup_lt_Some. exact Hl. }
  eexists _, _, _. split; [reflexivity|]. split; [reflexivity|].
  split; [|split; [reflexivity|split; [exact Hnew|split]]].
  - eexists. split; [reflexivity|]. intros i Hi.
    apply row_in_range_set_mrow; [|apply Hrows, Hi].
    rewrite length_insert. exact Hlen.
  - unfold mrow. apply (nth_lookup_Some _ _ [] _ Hnew).
  - apply el_insert_eq. lia.
Qed.

Lemma step_bounds_in_bounds (lv : nat) (tab : isl_tab T) (mn0 mx0 : list Z) :
  (lv < dim)%nat -> basis_in_range dim tab ->
  match step_bounds dim lv tab mn0 mx0 with
  | BoundsKnown t _ _ _ | BoundsBreak t _ _ =>
      basis_in_range dim t /\ tab_n_unbounded t = tab_n_unbounded tab
  | BoundsError => True
  | BoundsCrash => False
  end.
Proof.
  intros Hlv Hb. destruct engine_frame as (Fmin & _).
  unfold step_bounds. pose proof Hb as (b & Hbb & Hrows). rewrite Hbb.
  rewrite (Hrows (1 + lv)%nat) by lia. cbn [negb].
  pose proof (Fmin tab (mrow b (1 + lv)) 1) as [Fb Fn].
  destruct (isl_tab_min tab (mrow b (1 + lv)) 1) as [res tab1]. cbn [snd] in *.
  assert (Hb1 : basis_in_range dim tab1) by (apply Fb, Hb).
  destruct (neg_basis_row_frame lv tab1 Hlv Hb1) as (tabn & Hn & Fnn & Hbn).
  assert (Hrest :
    match
      (let rown := match tab_basis tabn with Some b0 => mrow b0 (1 + lv) | None => [] end in
       isl_tab_min tabn rown 1)
    with
    | (res2, tab2) =>
        exists tab3, neg_basis_row dim lv tab2 = Some tab3 /\
                     basis_in_range dim tab3 /\
                     tab_n_unbounded tab3 = tab_n_unbounded tab
    end).
  { cbv zeta.
    pose proof (Fmin tabn (match tab_basis tabn with
                           | Some b0 => mrow b0 (1 + lv) | None => [] end) 1)
      as [Fb2 Fn2].
    destruct (isl_tab_min tabn _ 1) as [res2 tab2]. cbn [snd] in *.
    destruct (neg_basis_row_frame lv tab2 Hlv (Fb2 Hbn)) as (tab3 & H3 & Fn3 & Hb3).
    exists tab3. split; [exact H3|]. split; [exact Hb3|congruence]. }
  cbv zeta in Hrest.
  destruct res as [v| | |]; try exact I; cbn [negb andb].
  - destruct (isl_tab_sample_is_integer tab1); [split; [exact Hb1|exact Fn]|].
    rewrite Hn.
    destruct (isl_tab_min tabn _ 1) as [res2 tab2].
    destruct Hrest as (tab3 & H3 & Hb3 & Hn3). rewrite H3.
    destruct res2 as [w| | |]; try exact I; cbn [negb andb].
    + destruct (isl_tab_sample_is_integer tab3); split; assumption.
    + split; assumption.
  - rewrite Hn.
    destruct (isl_tab_min tabn _ 1) as [res2 tab2].
    destruct Hrest as (tab3 & H3 & Hb3 & Hn3). rewrite H3.
    destruct res2 as [w| | |]; try exact I; cbn [negb andb]; split; assumption.
Qed.

Lemma step_pin_in_bounds (nu : nat) (tab : isl_tab T) (o : isl_options)
    (mn mx : list Z) (snap : list undo) (level : Z) (empty reduced : bool)
    (evs : list event) :
  (nu <= dim)%nat -> Z.of_nat dim < 2 ^ 31 ->
  0 <= level < Z.of_nat dim ->
  basis_in_range dim tab -> tab_n_unbounded tab = nu ->
  length mn = dim -> length mx = dim -> length snap = dim ->
  match step_pin dim tab o mn mx snap level empty reduced evs with
  | (_, Continue s') => in_bounds dim nu s'
  | (evs', Crash _) => ends_in_failed_pin TL dim evs'
  | _ => True
  end.
Proof.
  intros Hnu Hdim Hlevel Hb Hn Hl1 Hl2 Hl3.
  destruct engine_frame as (_ & Fadd & Froll & _).
  unfold step_pin.
  destruct (empty || (el mx (Z.to_nat level) <? el mn (Z.to_nat level))).
  - destruct (Z.leb_spec 0 (level - 1)) as [Hge|Hlt].
    + destruct (lookup_lt_is_Some_2 snap (Z.to_nat (level - 1)) ltac:(lia)) as [u Hu].
      rewrite Hu.
      destruct (isl_tab_rollback tab u) as [tab'|] eqn:Hr; [|exact I].
      destruct (Froll _ _ _ Hr) as [Fb Fn].
      unfold in_bounds; cbn. repeat split; auto; try congruence; lia.
    + unfold in_bounds; cbn. repeat split; auto; lia.
  - destruct (set_basis_const_frame (Z.to_nat level) (- el mn (Z.to_nat level)) tab
                ltac:(lia) Hb)
      as (tab1 & b1 & r1 & H1 & Fn1 & Hb1 & Hbb1 & Hr1 & Hm1 & He1).
    rewrite H1, Hbb1, Hm1.
    destruct (isl_tab_add_valid_eq tab1 r1) as [tab2|] eqn:Ha.
    2:{ exists evs, level, (el mn (Z.to_nat level)), tab1, b1, r1.
        split; [reflexivity|]. split; [exact Hlevel|]. split; [exact Hb1|].
        split; [exact Hbb1|]. split; [exact Hr1|]. split; [exact He1|exact Ha]. }
    destruct (Fadd _ _ _ Ha) as [Fb2 Fn2].
    destruct (set_basis_const_frame (Z.to_nat level) 0 tab2 ltac:(lia) (Fb2 Hb1))
      as (tab3 & b3 & r3 & H3 & Fn3 & Hb3 & _).
    rewrite H3.
    assert (Hnu3 : tab_n_unbounded tab3 = nu) by congruence.
    rewrite Hnu3.
    destruct (Z.ltb_spec (u32 (level + Z.of_nat nu)) (u32 (Z.of_nat dim - 1))) as [Hlt|_];
      [|exact I].
    unfold u32 in Hlt.
    assert (H32 : 2 ^ 32 = 2 * 2 ^ 31) by reflexivity.
    rewrite !Z.mod_small in Hlt by lia.
    unfold in_bounds; cbn. repeat split; auto; lia.
Qed.

Lemma step_in_bounds (nu : nat) (s : search T undo) :
  (nu <= dim)%nat -> Z.of_nat dim < 2 ^ 31 ->
  0 <= s_level s -> in_bounds dim nu s ->
  match step dim s with
  | (_, Continue s') => in_bounds dim nu s'
  | (evs, Crash _) => ends_in_failed_pin TL dim evs
  | _ => True
  end.
Proof.
  intros Hnu Hdim Hlevel (Hb & Hn & Hl1 & Hl2 & Hl3 & Hlt).
  destruct engine_frame as (_ & _ & _ & Fred & _).
  unfold step.
  set (lv := Z.to_nat (s_level s)).
  assert (Hlvd : (lv < dim)%nat) by (unfold lv; lia).
  assert (Hg : (lv <? length (s_min s))%nat && (lv <? length (s_max s))%nat
               && (lv <? length (s_snap s))%nat = true).
  { rewrite Hl1, Hl2, Hl3.
    assert (Hlv : (lv <? dim)%nat = true) by (apply Nat.ltb_lt; exact Hlvd).
    rewrite Hlv. reflexivity. }
  rewrite Hg. cbn [negb].
  destruct (s_init s).
  - pose proof (step_bounds_in_bounds lv (s_tab s) (s_min s) (s_max s) Hlvd Hb) as Hsb.
    pose proof (step_bounds_length dim lv (s_tab s) (s_min s) (s_max s)) as Hlen.
    destruct (step_bounds dim lv (s_tab s) (s_min s) (s_max s)) as [tab mn mx empty|tab mn mx| |];
      try exact I; [|contradiction].
    destruct Hsb as [Hbt Hnt]. destruct Hlen as [Hlm Hlx].
    destruct (negb empty && negb (s_reduced s)
              && negb (gbr_mode_eqb (gbr (s_opt s)) ISL_GBR_NEVER)
              && (el mn lv <? el mx lv)).
    + unfold step_reduce.
      destruct (isl_tab_compute_reduced_basis _ _) as [tab2|] eqn:Hr; [|exact I].
      destruct (tab_basis tab2) eqn:Hb2; [|exact I].
      apply Fred in Hr. destruct Hr as [Hkeep Hnu2]. cbn in Hnu2.
      unfold in_bounds; cbn.
      repeat split; try congruence.
      apply Hkeep; [|rewrite Hb2; eauto].
      destruct Hbt as (b0 & Hb0 & Hrows0). exists b0. split; [exact Hb0|exact Hrows0].
    + apply step_pin_in_bounds; try assumption; try congruence; try lia.
      rewrite length_insert. exact Hl3.
  - apply step_pin_in_bounds; try assumption; try lia.
    rewrite length_insert. exact Hl1.
Qed.

Lemma search_loop_in_bounds (nu fuel : nat) :
  (nu <= dim)%nat -> Z.of_nat dim < 2 ^ 31 ->
  forall s : search T undo,
    in_bounds dim nu s ->
    forall o, snd (search_loop fuel dim s) = LoopCrash o ->
      ends_in_failed_pin TL dim (fst (search_loop fuel dim s)).
Proof.
  intros Hnu Hdim. induction fuel as [|fuel IH]; intros s Hs o.
  - simpl. destruct (s_level s <? 0); discriminate.
  - rewrite search_loop_unfold.
    destruct (Z.ltb_spec (s_level s) 0) as [Hneg|Hnn]; [discriminate|].
    pose proof (step_in_bounds nu s Hnu Hdim Hnn Hs) as Hstep.
    destruct (step dim s) as [evs out].
    destruct out as [s'|s'|o'|o']; cbn [snd fst]; try discriminate.
    + specialize (IH s' Hstep o).
      destruct (search_loop fuel dim s') as [evs' r]. cbn [snd fst] in *.
      intros Hc.
      destruct (IH Hc)
        as (pre & l & v & t & b & r' & -> & Hl & Hbr & Hbt & Hrow & Hel & Hnone).
      exists (evs ++ pre), l, v, t, b, r'.
      split; [apply app_assoc|]. split; [exact Hl|]. split; [exact Hbr|].
      split; [exact Hbt|]. split; [exact Hrow|]. split; [exact Hel|exact Hnone].
    + intros _. exact Hstep.
Qed.

(** A well-formed square matrix of 1 + [dim] rows has the rows that the
    search reads. *)
Lemma well_formed_in_range (t : isl_tab T) (b : isl_mat) :
  tab_basis t = Some b -> mat_well_formed b ->
  mat_n_row b = (dim + 1)%nat -> mat_n_col b = (dim + 1)%nat ->
  basis_in_range dim t.
Proof.
  intros Hb [Hrows Hcols] Hr Hc. exists b. split; [exact Hb|].
  intros i Hi. unfold row_in_range.
  destruct (lookup_lt_is_Some_2 (mat_row b) i ltac:(lia)) as [r Hri].
  rewrite Hri. apply Nat.leb_le.
  rewrite List.Forall_forall in Hcols.
  rewrite (Hcols r) by (apply list_elem_of_In; eapply list_elem_of_lookup_2; exact Hri).
  lia.
Qed.


End NoFault.

(** ** Where the answer of the search comes from *)

Section AnswerInvariant.

Context {ML : MatLayer} {T undo : Type} {TL : TabLayer T undo}.

Variable P : isl_tab T -> Prop.
Variable Q : undo -> Prop.

Hypothesis engine_inv : engine_invariant TL P Q.

Lemma neg_basis_row_invariant (dim lv : nat) (t t' : isl_tab T) :
  P t -> neg_basis_row dim lv t = Some t' -> P t'.
Proof.
  destruct engine_inv as (_ & _ & _ & _ & _ & _ & Hb & _).
  unfold neg_basis_row. intros Ht H.
  destruct (tab_basis t); [|discriminate].
  destruct (negb (row_in_range _ _ _)); [discriminate|].
  injection H as <-. apply Hb, Ht.
Qed.

Lemma set_basis_const_invariant (dim lv : nat) (c : Z) (t t' : isl_tab T) :
  P t -> set_basis_const dim lv c t = Some t' -> P t'.
Proof.
  destruct engine_inv as (_ & _ & _ & _ & _ & _ & Hb & _).
  unfold set_basis_const. intros Ht H.
  destruct (tab_basis t); [|discriminate].
  destruct (negb (row_in_range _ _ _)); [discriminate|].
  injection H as <-. apply Hb, Ht.
Qed.

Lemma step_bounds_invariant (dim lv : nat) (tab : isl_tab T) (mn0 mx0 : list Z) :
  P tab ->
  match step_bounds dim lv tab mn0 mx0 with
  | BoundsKnown t _ _ _ | BoundsBreak t _ _ => P t
  | _ => True
  end.
Proof.
  destruct engine_inv as (Hmin & _). intros Ht. unfold step_bounds.
  destruct (tab_basis tab) as [b|]; [|exact I].
  destruct (negb (row_in_range dim b (1 + lv))) eqn:Hrow; [exact I|].
  pose proof (Hmin tab (mrow b (1 + lv)) 1 Ht) as H1.
  destruct (isl_tab_min tab (mrow b (1 + lv)) 1) as [res tab1]. cbn [snd] in H1.
  assert (Hrest : forall e : bool,
            match
              (if negb e && isl_tab_sample_is_integer tab1
               then BoundsBreak tab1
                      (match res with isl_lp_ok v => <[lv := v]> mn0 | _ => mn0 end) mx0
               else
                 match neg_basis_row dim lv tab1 with
                 | None => BoundsCrash
                 | Some tabn =>
                     let rown :=
                       match tab_basis tabn with Some b => mrow b (1 + lv) | None => [] end in
                     let '(res2, tab2) := isl_tab_min tabn rown 1 in
                     let mx := match res2 with isl_lp_ok v => <[lv := v]> mx0 | _ => mx0 end in
                     match neg_basis_row dim lv tab2 with
                     | None => BoundsCrash
                     | Some tab3 =>
                         let mx := <[lv := - el mx lv]> mx in
                         let empty := match res2 with isl_lp_empty => true | _ => e end in
                         match res2 with
                         | isl_lp_unbounded | isl_lp_error => BoundsError
                         | _ =>
                             if negb empty && isl_tab_sample_is_integer tab3
                             then BoundsBreak tab3
                                    (match res with isl_lp_ok v => <[lv := v]> mn0 | _ => mn0 end)
                                    mx
                             else BoundsKnown tab3
                                    (match res with isl_lp_ok v => <[lv := v]> mn0 | _ => mn0 end)
                                    mx empty
                         end
                     end
                 end)
            with
            | BoundsKnown t _ _ _ | BoundsBreak t _ _ => P t
            | _ => True
            end).
  { intros e.
    destruct (negb e && isl_tab_sample_is_integer tab1); [exact H1|].
    destruct (neg_basis_row dim lv tab1) as [tabn|] eqn:Hn; [|exact I].
    pose proof (neg_basis_row_invariant _ _ _ _ H1 Hn) as H2.
    cbv zeta.
    pose proof (Hmin tabn (match tab_basis tabn with
                           | Some b0 => mrow b0 (1 + lv) | None => [] end) 1 H2) as H3.
    destruct (isl_tab_min tabn _ 1) as [res2 tab2]. cbn [snd] in H3.
    destruct (neg_basis_row dim lv tab2) as [tab3|] eqn:Hn2; [|exact I].
    pose proof (neg_basis_row_invariant _ _ _ _ H3 Hn2) as H4.
    destruct res2; try exact I.
    - destruct (negb e && isl_tab_sample_is_integer tab3); exact H4.
    - cbn [negb andb]. exact H4. }
  destruct res as [v| | |]; try exact I.
  - exact (Hrest false).
  - exact (Hrest true).
Qed.

Lemma step_pin_invariant (dim : nat) (tab : isl_tab T) (o : isl_options)
    (mn mx : list Z) (snap : list undo) (level : Z) (empty reduced : bool)
    (evs : list event) :
  0 <= level -> P tab -> kept_below Q snap (level + 1) ->
  match snd (step_pin dim tab o mn mx snap level empty reduced evs) with
  | Continue s' | Break s' => search_invariant P Q s'
  | _ => True
  end.
Proof.
  destruct engine_inv as (_ & Hadd & _ & Hroll & _).
  intros Hlevel Ht Hsnap. unfold step_pin.
  destruct (empty || (el mx (Z.to_nat level) <? el mn (Z.to_nat level))).
  - destruct (Z.leb_spec 0 (level - 1)) as [Hge|Hlt].
    + destruct (Hsnap (Z.to_nat (level - 1)) ltac:(lia)) as (u & Hu & HQ).
      rewrite Hu.
      destruct (isl_tab_rollback tab u) as [tab'|] eqn:Hr; cbn [snd]; [|exact I].
      split; cbn.
      * exact (Hroll _ _ _ Ht HQ Hr).
      * intros j Hj. apply Hsnap. lia.
    + cbn [snd]. split; cbn; [exact Ht|]. intros j Hj. lia.
  - destruct (set_basis_const _ _ _ tab) as [tab1|] eqn:H1; cbn [snd]; [|exact I].
    pose proof (set_basis_const_invariant _ _ _ _ _ Ht H1) as Ht1.
    destruct (isl_tab_add_valid_eq tab1 _) as [tab2|] eqn:H2; cbn [snd]; [|exact I].
    pose proof (Hadd _ _ _ Ht1 H2) as Ht2.
    destruct (set_basis_const _ _ 0 tab2) as [tab3|] eqn:H3; cbn [snd]; [|exact I].
    pose proof (set_basis_const_invariant _ _ _ _ _ Ht2 H3) as Ht3.
    destruct (u32 (level + Z.of_nat (tab_n_unbounded tab3)) <? u32 (Z.of_nat dim - 1));
      cbn [snd]; (split; cbn; [exact Ht3|]).
    + exact Hsnap.
    + intros j Hj. apply Hsnap. lia.
Qed.

Lemma step_invariant (dim : nat) (s : search T undo) :
  0 <= s_level s -> search_invariant P Q s ->
  match snd (step dim s) with
  | Continue s' | Break s' => search_invariant P Q s'
  | _ => True
  end.
Proof.
  destruct engine_inv as (_ & _ & Hsnapq & _ & Hred & _ & _ & Hzero).
  intros Hlevel [Ht Hsnap]. unfold step.
  set (lv := Z.to_nat (s_level s)) in *.
  destruct (negb _) eqn:Hguard; cbn [snd]; [exact I|].
  apply negb_false_iff in Hguard.
  apply andb_prop in Hguard as [_ Hlen]. apply Nat.ltb_lt in Hlen.
  destruct (s_init s) eqn:Hinit.
  - pose proof (step_bounds_invariant dim lv (s_tab s) (s_min s) (s_max s) Ht) as Hb.
    destruct (step_bounds dim lv (s_tab s) (s_min s) (s_max s))
      as [tab mn mx empty|tab mn mx| |]; cbn [snd]; try exact I.
    + destruct (negb empty && negb (s_reduced s)
                && negb (gbr_mode_eqb (gbr (s_opt s)) ISL_GBR_NEVER)
                && (el mn lv <? el mx lv)).
      * unfold step_reduce.
        destruct (isl_tab_compute_reduced_basis _ _) as [tab2|] eqn:Hr; cbn [snd];
          [|exact I].
        destruct (tab_basis tab2); cbn [snd]; [|exact I].
        split; cbn; [|exact Hsnap].
        exact (Hred _ _ _ (Hzero _ _ Hb) Hr).
      * apply step_pin_invariant; [exact Hlevel|exact Hb|].
        intros j Hj. destruct (Nat.eq_dec j lv) as [->|Hne].
        -- exists (isl_tab_snap tab). split; [|apply Hsnapq, Hb].
           apply list_lookup_insert_eq, Hlen.
        -- rewrite list_lookup_insert_ne by congruence. apply Hsnap. unfold lv in Hne. lia.
    + split; cbn; [exact Hb|exact Hsnap].
  - apply step_pin_invariant; [exact Hlevel|exact Ht|exact Hsnap].
Qed.

Lemma search_loop_invariant (dim fuel : nat) :
  forall s s' : search T undo,
    search_invariant P Q s ->
    snd (search_loop fuel dim s) = LoopDone s' -> P (s_tab s').
Proof.
  induction fuel as [|fuel IH]; intros s s' Hs.
  - simpl. destruct (s_level s <? 0); cbn [snd]; [|discriminate].
    intros [= <-]. apply Hs.
  - rewrite search_loop_unfold.
    destruct (Z.ltb_spec (s_level s) 0) as [Hneg|Hnn]; cbn [snd].
    { intros [= <-]. apply Hs. }
    pose proof (step_invariant dim s Hnn Hs) as Hstep.
    destruct (step dim s) as [evs out]. cbn [snd] in *.
    destruct out as [s1|s1|o1|o1]; cbn [snd]; try discriminate.
    + specialize (IH s1 s' Hstep).
      destruct (search_loop fuel dim s1) as [evs' r]. cbn [snd] in *. exact IH.
    + intros [= <-]. apply Hstep.
Qed.

(** The answer of [isl_tab_sample], with the place it is read at: the
    sample value of a tableau with [P], rounded in the basis only when the
    tableau has unbounded directions or had nothing else from the start. *)
Lemma isl_tab_sample_answer_from (fuel : nat) (sc : scratch undo)
    (tab : isl_tab T) (o o' : isl_options) (v : isl_vec) :
  P tab ->
  isl_tab_sample fuel sc tab o = (Ok v, o') ->
  v <> [] ->
  exists t, P t /\
    (isl_tab_get_sample_value t = Some v \/
     exists s, isl_tab_get_sample_value t = Some s /\ round_in_basis t s = Some v /\
               (tab_n_unbounded t <> O \/ tab_n_unbounded t = tab_n_var t)).
Proof.
  destruct engine_inv as (_ & _ & _ & _ & _ & Hext & Hbasis & _).
  intros Ht H Hne. unfold isl_tab_sample, isl_tab_sample_trace in H.
  destruct (tab_empty tab); [cbn in H; injection H as <- _; contradiction|].
  set (tab1 := match tab_basis tab with
               | Some _ => tab
               | None => set_basis (initial_basis tab) tab
               end) in *.
  assert (Ht1 : P tab1) by (unfold tab1; destruct (tab_basis tab); [exact Ht|apply Hbasis, Ht]).
  destruct (tab_basis tab1) as [b|]; [|discriminate].
  destruct (negb (mat_n_row b =? tab_n_var tab1 + 1)%nat); [discriminate|].
  destruct (negb (mat_n_col b =? tab_n_var tab1 + 1)%nat); [discriminate|].
  destruct (Nat.eqb_spec (tab_n_unbounded tab1) (tab_n_var tab1)) as [Hall|_].
  { destruct (isl_tab_get_sample_value tab1) as [s|] eqn:Hs; [|discriminate].
    cbn in H. destruct (round_in_basis tab1 s) as [r|] eqn:Hr; [|discriminate].
    cbn in H. injection H as <- _. exists tab1. split; [exact Ht1|]. right.
    exists s. split; [exact Hs|]. split; [exact Hr|]. right. exact Hall. }
  destruct (isl_tab_extend_cons tab1 (tab_n_var tab1 + 1)) as [tab2|] eqn:He;
    [|discriminate].
  pose proof (Hext _ _ _ Ht1 He) as Ht2.
  set (s0 := mk_search tab2 o (alloc_array (min0 sc) (tab_n_var tab1))
               (alloc_array (max0 sc) (tab_n_var tab1))
               (alloc_array (snap0 sc) (tab_n_var tab1)) 0 true false) in *.
  assert (H0 : search_invariant P Q s0).
  { split; [exact Ht2|]. intros j Hj. cbn in Hj. lia. }
  pose proof (search_loop_invariant (tab_n_var tab1) fuel s0) as Hloop.
  destruct (search_loop fuel (tab_n_var tab1) s0) as [evs out]. cbn [snd] in *.
  unfold search_finish in H.
  destruct out as [s1|o1|o1|s1]; try discriminate.
  specialize (Hloop s1 H0 eq_refl).
  destruct (0 <=? s_level s1); [|injection H as <- _; contradiction].
  destruct (isl_tab_get_sample_value (s_tab s1)) as [s|] eqn:Hs; [|discriminate].
  destruct (Nat.eqb_spec (tab_n_unbounded (s_tab s1)) 0) as [Hz|Hnz]; cbn [negb andb] in H.
  - injection H as <- _. exists (s_tab s1). split; [exact Hloop|]. left. exact Hs.
  - destruct (negb (el s 0 =? 1)).
    + destruct (round_in_basis (s_tab s1) s) as [r|] eqn:Hr; [|discriminate].
      cbn in H. injection H as <- _. exists (s_tab s1). split; [exact Hloop|]. right.
      exists s. split; [exact Hs|]. split; [exact Hr|]. left. exact Hnz.
    + injection H as <- _. exists (s_tab s1). split; [exact Hloop|]. left. exact Hs.
Qed.

(** X24.  The answer of [isl_tab_sample] comes from the engine: a vector of
    non-zero length that it returns is the sample value of a tableau that
    the engine's operations have led to (or that value rounded in the
    basis of that tableau, when there are unbounded directions), so that
    every invariant of the engine holds of the tableau it is read from. *)
Theorem isl_tab_sample_answer_invariant (fuel : nat) (sc : scratch undo)
    (tab : isl_tab T) (o o' : isl_options) (v : isl_vec) :
  P tab ->
  isl_tab_sample fuel sc tab o = (Ok v, o') ->
  v <> [] ->
  exists t, P t /\
    (isl_tab_get_sample_value t = Some v \/
     exists s, isl_tab_get_sample_value t = Some s /\ round_in_basis t s = Some v).
Proof.
  intros Ht H Hne.
  destruct (isl_tab_sample_answer_from fuel sc tab o o' v Ht H Hne) as (t & HP & Hv).
  exists t. split; [exact HP|].
  destruct Hv as [Hv|(s & Hs & Hr & _)]; [left; exact Hv|right; eauto].
Qed.

End AnswerInvariant.

(** ** The second call of the dispatcher *)

Section Stored.

Context {ML : MatLayer} {BL : BsetLayer} {T undo : Type} {TL : TabLayer T undo}.

(** A sample that [sample_bounded] leaves stored in a set that had none is
    the answer of the tableau search on the tableau of that set. *)
Lemma sample_bounded_stored (fuel : nat) (sc : scratch undo) (bset b1 : isl_basic_set)
    (o o1 : isl_options) (s : isl_vec) :
  sample_bounded fuel sc bset o = (Ok (s, b1), o1) ->
  bset_sample bset = None ->
  bset_sample b1 = Some s ->
  b1 = set_sample (Some s) bset /\ s <> [] /\
  exists tab0 tab1 tab2,
    isl_tab_from_basic_set bset = Some tab0 /\
    isl_tab_track_bset tab0 bset = Some tab1 /\
    (if bset_flag_no_implicit bset then Some tab1
     else isl_tab_detect_implicit_equalities tab1) = Some tab2 /\
    isl_tab_sample fuel sc tab2 o = (Ok s, o1).
Proof.
  destruct fuel as [|fuel]; [discriminate|].
  cbn [sample_bounded]. unfold st_bind, st_ret, res_bind.
  intros H Hnone Hsome.
  assert (Hno : forall x, (Ok (x, bset), o) = (Ok (s, b1), o1) -> False).
  { intros x Hx. injection Hx as _ <- _. congruence. }
  destruct (isl_basic_set_fast_is_empty bset); [exfalso; eapply Hno; exact H|].
  destruct (isl_basic_set_total_dim bset =? 0)%nat; [exfalso; eapply Hno; exact H|].
  destruct (isl_basic_set_total_dim bset =? 1)%nat.
  { destruct (interval_sample bset); simplify_eq; congruence. }
  destruct (0 <? n_eq bset)%nat.
  { destruct (sample_eq bset _ o) as [[x| | |] ox]; simplify_eq; congruence. }
  destruct (isl_tab_from_basic_set bset) as [tab0|] eqn:H0; [|discriminate].
  destruct (tab_empty tab0).
  { simplify_eq. cbn in Hsome. congruence. }
  destruct (isl_tab_track_bset tab0 bset) as [tab1|] eqn:H1; [|discriminate].
  destruct (if bset_flag_no_implicit bset then Some tab1
            else isl_tab_detect_implicit_equalities tab1) as [tab2|] eqn:H2;
    [|discriminate].
  destruct (isl_tab_sample (S fuel) sc tab2 o) as [[x| | |] ox] eqn:H3; try discriminate.
  injection H as -> <- ->.
  destruct (Nat.ltb_spec 0 (length s)) as [Hlen|Hlen]; [|congruence].
  split; [reflexivity|]. split; [intros ->; simpl in Hlen; lia|].
  exists tab0, tab1, tab2. repeat split; assumption.
Qed.

(** The same of [gbr_sample]. *)
Lemma gbr_sample_stored (fuel : nat) (sc : scratch undo) (bset b1 : isl_basic_set)
    (o o1 : isl_options) (s : isl_vec) :
  gbr_sample fuel sc bset o = (Ok (s, b1), o1) ->
  bset_sample bset = None ->
  bset_sample b1 = Some s ->
  sample_bounded fuel sc bset o = (Ok (s, b1), o1).
Proof.
  unfold gbr_sample, st_bind, st_ret. intros H Hnone Hsome.
  destruct (isl_basic_set_recession_cone bset) as [cone|]; [|discriminate].
  destruct (n_eq cone <? isl_basic_set_total_dim bset)%nat; [|exact H].
  destruct (isl_basic_set_sample_with_cone fuel sc bset cone o) as [[x| | |] ox];
    simplify_eq; congruence.
Qed.

(** The dispatcher answers from a cached sample that passes the containment
    test, whatever else it is given. *)
Lemma basic_set_sample_cache_hit (fuel : nat) (sc : scratch undo) (b : isl_basic_set)
    (bounded : bool) (o : isl_options) (s : isl_vec) :
  isl_basic_set_fast_is_empty b = false ->
  isl_basic_set_n_param b = O -> bset_n_div b = O ->
  bset_sample b = Some s ->
  0 < isl_basic_set_contains b s ->
  length s = (1 + isl_basic_set_n_dim b)%nat /\
  basic_set_sample (S fuel) sc b bounded o = (Ok (s, b), o).
Proof.
  intros He Hp Hd Hs Hc.
  assert (Hlen : length s = (1 + isl_basic_set_n_dim b)%nat).
  { unfold isl_basic_set_contains, isl_basic_set_total_dim in Hc.
    unfold isl_basic_set_n_param in Hp. rewrite Hp, Hd in Hc.
    destruct (Nat.eqb_spec (S (0 + bset_dim b + 0)) (length s)) as [Hl|]; cbn [negb] in Hc;
      [|lia].
    unfold isl_basic_set_n_dim. lia. }
  split; [exact Hlen|].
  cbn [basic_set_sample]. rewrite He, Hp, Hd, Hs. cbn [Nat.eqb negb].
  rewrite Hlen, Nat.eqb_refl.
  destruct (Z.ltb_spec (isl_basic_set_contains b s) 0); [lia|].
  destruct (Z.eqb_spec (isl_basic_set_contains b s) 0); [lia|].
  reflexivity.
Qed.

End Stored.

Section CachedAgain.

Context {ML : MatLayer} {BL : BsetLayer} {T undo : Type} {TL : TabLayer T undo}.

Variable P : isl_tab T -> Prop.
Variable Q : undo -> Prop.

(** C5, as amended.  Let a first call of the dispatcher on a basic set B
    have succeeded with a non-empty sample s and have left s cached in B:
    either it answered from the cache itself, or the bounded tableau
    sampler found s and stored it (after the zero- and one-dimensional, the
    equality-reducing, the unbounded and the PIP path the cache is empty).
    Let the tableau engine of that call keep an invariant, from the tableau
    it builds of B (the cache cleared, as the dispatcher leaves it) onwards,
    under which the tableau has no unbounded direction and a sample value
    the engine reports is a point of B.  Then s passes the test of the
    cache, with 1 + dim elements and within B, and a second call on B
    returns s again and leaves the set as it is, whatever its
    collaborators, its budget and its options: no tableau is built and no
    search is run. *)
Theorem basic_set_sample_cached_again
    (fuel : nat) (sc : scratch undo) (bset b1 : isl_basic_set) (bounded : bool)
    (o o1 : isl_options) (s : isl_vec) :
  engine_invariant TL P Q ->
  engine_sound_on TL (set_sample None bset) P ->
  basic_set_sample fuel sc bset bounded o = (Ok (s, b1), o1) ->
  s <> [] ->
  bset_sample b1 = Some s ->
  (length s = (1 + isl_basic_set_n_dim b1)%nat /\ 0 < isl_basic_set_contains b1 s) /\
  forall (ML' : MatLayer) (BL' : BsetLayer) (T' undo' : Type) (TL' : TabLayer T' undo')
         (fuel' : nat) (sc' : scratch undo') (bounded' : bool) (o2 : isl_options),
    basic_set_sample (ML := ML') (BL := BL') (TL := TL') (S fuel') sc' b1 bounded' o2
    = (Ok (s, b1), o2).
Proof.
  intros Hinv (Hfrom & Htrack & Hdetect & Hshape & Hpoint) H Hne Hsome.
  assert (Hgoal : isl_basic_set_fast_is_empty b1 = false ->
                  isl_basic_set_n_param b1 = O -> bset_n_div b1 = O ->
                  0 < isl_basic_set_contains b1 s ->
                  (length s = (1 + isl_basic_set_n_dim b1)%nat /\
                   0 < isl_basic_set_contains b1 s) /\
                  forall (ML' : MatLayer) (BL' : BsetLayer) (T' undo' : Type)
                         (TL' : TabLayer T' undo') (fuel' : nat) (sc' : scratch undo')
                         (bounded' : bool) (o2 : isl_options),
                    basic_set_sample (ML := ML') (BL := BL') (TL := TL') (S fuel') sc' b1
                      bounded' o2
                    = (Ok (s, b1), o2)).
  { intros He Hp Hd Hc. split.
    - split; [|exact Hc].
      apply (basic_set_sample_cache_hit (TL := TL) 0 sc b1 bounded o s He Hp Hd Hsome Hc).
    - intros ML' BL' T' undo' TL' fuel' sc' bounded' o2.
      apply (basic_set_sample_cache_hit (ML := ML') (BL := BL') (TL := TL')
               fuel' sc' b1 bounded' o2 s He Hp Hd Hsome Hc). }
  destruct fuel as [|fuel]; [discriminate|].
  cbn [basic_set_sample] in H.
  destruct (isl_basic_set_fast_is_empty bset) eqn:He.
  { unfold st_ret, empty_sample in H. injection H as <- _ _. contradiction. }
  destruct (Nat.eqb_spec (isl_basic_set_n_param bset) 0) as [Hp|]; [|discriminate].
  destruct (Nat.eqb_spec (bset_n_div bset) 0) as [Hd|]; [|discriminate].
  cbn [negb] in H.
  assert (Hrest : forall r : St (isl_vec * isl_basic_set),
            r = (let bset := set_sample None bset in
                 if (0 <? n_eq bset)%nat then
                   st_bind
                     (sample_eq bset (fun b =>
                        st_bind (basic_set_sample fuel sc b bounded)
                          (fun r => st_ret (Ok (fst r)))))
                     (fun s => st_ret (Ok (s, bset)))
                 else if (isl_basic_set_n_dim bset =? 0)%nat
                 then st_ret (Ok (zero_sample bset, bset))
                 else if (isl_basic_set_n_dim bset =? 1)%nat then
                   st_ret (res_bind (interval_sample bset) (fun s => Ok (s, bset)))
                 else
                   fun o =>
                     match ilp_solver o with
                     | ISL_ILP_PIP =>
                         st_ret (res_bind (pip_sample bset)
                                   (fun s => Ok (s, skew_leaves bset))) o
                     | ISL_ILP_GBR =>
                         if bounded then sample_bounded (S fuel) sc bset o
                         else gbr_sample (S fuel) sc bset o
                     end) ->
            r o = (Ok (s, b1), o1) ->
            sample_bounded (S fuel) sc (set_sample None bset) o = (Ok (s, b1), o1)).
  { clear H Hgoal. intros r -> Hr. cbv zeta in Hr. unfold st_bind, st_ret, res_bind in Hr.
    destruct (0 <? n_eq (set_sample None bset))%nat.
    { destruct (sample_eq (set_sample None bset) _ o) as [[x| | |] ox]; simplify_eq;
      cbn in Hsome; discriminate. }
    destruct (isl_basic_set_n_dim (set_sample None bset) =? 0)%nat.
    { simplify_eq; cbn in Hsome; discriminate. }
    destruct (isl_basic_set_n_dim (set_sample None bset) =? 1)%nat.
    { destruct (interval_sample (set_sample None bset)); simplify_eq;
      cbn in Hsome; discriminate. }
    destruct (ilp_solver o).
    - destruct bounded; [exact Hr|].
      apply gbr_sample_stored; [exact Hr|reflexivity|exact Hsome].
    - destruct (pip_sample (set_sample None bset)); simplify_eq.
      destruct (skew_leaves_reordered (set_sample None bset)) as (_ & Hsm & _).
      rewrite Hsm in Hsome. cbn in Hsome. discriminate. }
  assert (Hfound : sample_bounded (S fuel) sc (set_sample None bset) o = (Ok (s, b1), o1) ->
                   isl_basic_set_fast_is_empty b1 = false /\
                   isl_basic_set_n_param b1 = O /\ bset_n_div b1 = O /\
                   0 < isl_basic_set_contains b1 s).
  { intros Hsb.
    destruct (sample_bounded_stored _ _ _ _ _ _ _ Hsb eq_refl Hsome)
      as (Hb1 & _ & tab0 & tab1 & tab2 & H0 & H1 & H2 & H3).
    assert (HP2 : P tab2).
    { pose proof (Htrack _ _ (Hfrom _ H0) H1) as HP1.
      destruct (bset_flag_no_implicit (set_sample None bset));
        [injection H2 as <-; exact HP1|exact (Hdetect _ _ HP1 H2)]. }
    destruct (isl_tab_sample_answer_from P Q Hinv _ _ _ _ _ _ HP2 H3 Hne)
      as (t & HPt & Hv).
    destruct (Hshape t HPt) as [Hnu Hnv].
    assert (Hget : isl_tab_get_sample_value t = Some s).
    { destruct Hv as [Hv|(x & _ & _ & [Hx|Hx])]; [exact Hv|contradiction|congruence]. }
    pose proof (Hpoint t s HPt Hget Hne) as Hc.
    subst b1. split; [exact He|]. split; [exact Hp|]. split; [exact Hd|]. exact Hc. }
  assert (Hfin : forall r : St (isl_vec * isl_basic_set),
            r = (let bset := set_sample None bset in
                 if (0 <? n_eq bset)%nat then
                   st_bind
                     (sample_eq bset (fun b =>
                        st_bind (basic_set_sample fuel sc b bounded)
                          (fun r => st_ret (Ok (fst r)))))
                     (fun s => st_ret (Ok (s, bset)))
                 else if (isl_basic_set_n_dim bset =? 0)%nat
                 then st_ret (Ok (zero_sample bset, bset))
                 else if (isl_basic_set_n_dim bset =? 1)%nat then
                   st_ret (res_bind (interval_sample bset) (fun s => Ok (s, bset)))
                 else
                   fun o =>
                     match ilp_solver o with
                     | ISL_ILP_PIP =>
                         st_ret (res_bind (pip_sample bset)
                                   (fun s => Ok (s, skew_leaves bset))) o
                     | ISL_ILP_GBR =>
                         if bounded then sample_bounded (S fuel) sc bset o
                         else gbr_sample (S fuel) sc bset o
                     end) ->
            r o = (Ok (s, b1), o1) ->
            isl_basic_set_fast_is_empty b1 = false /\
            isl_basic_set_n_param b1 = O /\ bset_n_div b1 = O /\
            0 < isl_basic_set_contains b1 s).
  { intros r Hr Hro. apply Hfound. exact (Hrest r Hr Hro). }
  assert (Hend : isl_basic_set_fast_is_empty b1 = false /\
                 isl_basic_set_n_param b1 = O /\ bset_n_div b1 = O /\
                 0 < isl_basic_set_contains b1 s).
  { destruct (bset_sample bset) as [c|] eqn:Hc;
      [|eapply Hfin; [reflexivity|exact H]].
    destruct (Nat.eqb_spec (length c) (1 + isl_basic_set_n_dim bset)) as [Hl|];
      [|eapply Hfin; [reflexivity|exact H]].
    destruct (Z.ltb_spec (isl_basic_set_contains bset c) 0); [discriminate|].
    destruct (Z.eqb_spec (isl_basic_set_contains bset c) 0); cbn [negb] in H;
      [eapply Hfin; [reflexivity|exact H]|].
    unfold st_ret in H. injection H as <- <- _.
    repeat split; try assumption. lia. }
  destruct Hend as (He1 & Hp1 & Hd1 & Hc1).
  exact (Hgoal He1 Hp1 Hd1 Hc1).
Qed.

End CachedAgain.

(** ** Termination of the dispatcher *)

Section DispatchTermination.

Context {ML : MatLayer} {BL : BsetLayer} {T undo : Type} {TL : TabLayer T undo}.

Lemma sample_bounded_halts_noeq (sc : scratch undo) (b : isl_basic_set) (o : isl_options) :
  (0 <? n_eq b)%nat = false \/ (isl_basic_set_total_dim b <= 1)%nat ->
  halts_from (fun f => sample_bounded f sc b) o.
Proof.
  intros Hne.
  assert (Hone : forall r : res (isl_vec * isl_basic_set), r <> OutOfFuel ->
            (forall f, sample_bounded (S f) sc b o = (r, o)) ->
            halts_from (fun f => sample_bounded f sc b) o).
  { intros r Hr H. exists 1%nat. intros [|f] Hf; [lia|]. rewrite H. exact Hr. }
  destruct (isl_basic_set_fast_is_empty b) eqn:He.
  { apply (Hone (Ok (empty_sample b, b))); [discriminate|].
    intros f. cbn [sample_bounded]. rewrite He. reflexivity. }
  destruct (Nat.eqb_spec (isl_basic_set_total_dim b) 0) as [H0|H0].
  { apply (Hone (Ok (zero_sample b, b))); [discriminate|].
    intros f. cbn [sample_bounded]. rewrite He.
    destruct (Nat.eqb_spec (isl_basic_set_total_dim b) 0); [reflexivity|contradiction]. }
  destruct (Nat.eqb_spec (isl_basic_set_total_dim b) 1) as [H1|H1].
  { apply (Hone (res_bind (interval_sample b) (fun s => Ok (s, b)))).
    - unfold interval_sample, interval_sample_simplified.
      repeat case_match; discriminate.
    - intros f. cbn [sample_bounded]. rewrite He.
      destruct (Nat.eqb_spec (isl_basic_set_total_dim b) 0); [contradiction|].
      destruct (Nat.eqb_spec (isl_basic_set_total_dim b) 1); [reflexivity|contradiction]. }
  destruct Hne as [Hne|Hle]; [|lia].
  assert (Hbody : forall f, sample_bounded (S f) sc b o =
            match isl_tab_from_basic_set b with
            | None => st_ret Null o
            | Some tab =>
                if tab_empty tab then st_ret (Ok ([], set_flag_empty b)) o
                else
                  match isl_tab_track_bset tab b with
                  | None => st_ret Null o
                  | Some tab =>
                      match (if bset_flag_no_implicit b then Some tab
                             else isl_tab_detect_implicit_equalities tab) with
                      | None => st_ret Null o
                      | Some tab =>
                          st_bind (isl_tab_sample (S f) sc tab) (fun sample =>
                            st_ret (Ok (sample,
                                        if Nat.ltb 0 (length sample)
                                        then set_sample (Some sample) b
                                        else b))) o
                      end
                  end
            end).
  { intros f. cbn [sample_bounded]. rewrite He, Hne.
    destruct (Nat.eqb_spec (isl_basic_set_total_dim b) 0); [contradiction|].
    destruct (Nat.eqb_spec (isl_basic_set_total_dim b) 1); [contradiction|].
    repeat case_match; reflexivity. }
  destruct (isl_tab_from_basic_set b) as [tab|];
    [|exists 1%nat; intros [|f] Hf; [lia|rewrite Hbody; discriminate]].
  destruct (tab_empty tab);
    [exists 1%nat; intros [|f] Hf; [lia|rewrite Hbody; discriminate]|].
  destruct (isl_tab_track_bset tab b) as [tab1|];
    [|exists 1%nat; intros [|f] Hf; [lia|rewrite Hbody; discriminate]].
  destruct (if bset_flag_no_implicit b then Some tab1
            else isl_tab_detect_implicit_equalities tab1) as [tab2|];
    [|exists 1%nat; intros [|f] Hf; [lia|rewrite Hbody; discriminate]].
  destruct (isl_tab_sample_halts sc tab2 o) as [F HF0].
  assert (HF : forall fuel', (F <= fuel')%nat ->
            fst (isl_tab_sample fuel' sc tab2 o) <> OutOfFuel /\ True).
  { intros fuel' Hle.
    rewrite (isl_tab_sample_more_fuel F fuel' sc tab2 o HF0 Hle).
    split; [exact HF0|exact I]. }
  exists (S F). intros [|f] Hf; [lia|]. rewrite Hbody.
  destruct (HF (S f) ltac:(lia)) as [Hnof _].
  unfold st_bind, st_ret.
  destruct (isl_tab_sample (S f) sc tab2 o) as [[s| | |] o']; cbn [fst] in *;
    try discriminate. contradiction.
Qed.

Lemma halts_from_const {A : Type} (m : nat -> St A) (o : isl_options) (r : res A) :
  r <> OutOfFuel -> (forall f, fst (m (S f) o) = r) -> halts_from m o.
Proof.
  intros Hr H. exists 1%nat. intros [|f] Hf; [lia|]. rewrite H. exact Hr.
Qed.

Lemma interval_sample_no_fuel (b : isl_basic_set) : interval_sample b <> OutOfFuel.
Proof.
  unfold interval_sample, interval_sample_simplified.
  repeat case_match; discriminate.
Qed.

Hypothesis remove_equalities_complete : forall b b' Tm,
  isl_basic_set_remove_equalities b = Some (b', Tm) -> n_eq b' = O.

Lemma sample_bounded_halts (sc : scratch undo) (b : isl_basic_set) (o : isl_options) :
  halts_from (fun f => sample_bounded f sc b) o.
Proof.
  destruct (Nat.ltb_spec 0 (n_eq b)) as [Hpos|Hz];
    [|apply sample_bounded_halts_noeq; left; apply Nat.ltb_ge; exact Hz].
  destruct (le_lt_dec (isl_basic_set_total_dim b) 1) as [Hle|Hgt];
    [apply sample_bounded_halts_noeq; right; exact Hle|].
  destruct (isl_basic_set_fast_is_empty b) eqn:He.
  { apply (halts_from_const _ o (Ok (empty_sample b, b))); [discriminate|].
    intros f. cbn [sample_bounded]. rewrite He. reflexivity. }
  assert (Hbody : forall f, sample_bounded (S f) sc b o =
            st_bind
              (sample_eq b (fun b' =>
                 st_bind (sample_bounded f sc b') (fun r => st_ret (Ok (fst r)))))
              (fun s => st_ret (Ok (s, b))) o).
  { intros f. cbn [sample_bounded]. rewrite He.
    destruct (Nat.eqb_spec (isl_basic_set_total_dim b) 0); [lia|].
    destruct (Nat.eqb_spec (isl_basic_set_total_dim b) 1); [lia|].
    destruct (Nat.ltb_spec 0 (n_eq b)); [reflexivity|lia]. }
  unfold sample_eq in Hbody.
  destruct (isl_basic_set_remove_equalities b) as [[b' Tm]|] eqn:Hr.
  - destruct (sample_bounded_halts_noeq sc b' o) as [F HF].
    { left. rewrite (remove_equalities_complete _ _ _ Hr). reflexivity. }
    exists (S F). intros [|f] Hf; [lia|]. rewrite Hbody.
    specialize (HF f ltac:(lia)). unfold st_bind, st_ret.
    destruct (sample_bounded f sc b' o) as [[r| | |] o']; cbn [fst] in *;
      try discriminate; [|contradiction].
    destruct (length (fst r) =? 0)%nat; cbn; [discriminate|].
    destruct (isl_mat_vec_product Tm (fst r)); cbn; discriminate.
  - exists 1%nat. intros [|f] Hf; [lia|]. rewrite Hbody. discriminate.
Qed.

Lemma round_up_in_cone_no_fuel (v : option isl_vec) (cone : option isl_basic_set)
    (U : option isl_mat) :
  round_up_in_cone v cone U <> OutOfFuel /\ round_up_in_cone v cone U <> Fault.
Proof.
  unfold round_up_in_cone, of_option. repeat case_match; split; discriminate.
Qed.

Lemma with_cone_halts (sc : scratch undo) (b cone : isl_basic_set) (o : isl_options) :
  halts_from (fun f => isl_basic_set_sample_with_cone f sc b cone) o.
Proof.
  unfold halts_from, isl_basic_set_sample_with_cone.
  destruct (isl_mat_left_hermite _ 0) as [[[H U] Q]|]; [|exists O; discriminate].
  match goal with
  | |- context [match ?bounded with Some _ => _ | None => st_ret Null end] =>
      destruct bounded as [bd|]; [|exists O; discriminate]
  end.
  destruct (sample_bounded_halts sc bd o) as [F HF].
  exists F. intros f Hf. specialize (HF f Hf). unfold st_bind, st_ret.
  destruct (sample_bounded f sc bd o) as [[r| | |] o']; cbn [fst] in *;
    try discriminate; [|contradiction].
  destruct (length (fst r) =? 0)%nat; cbn [fst]; [discriminate|].
  match goal with
  | |- context [round_up_in_cone ?a ?b ?c] =>
      destruct (round_up_in_cone_no_fuel a b c) as [H1 H2];
      destruct (round_up_in_cone a b c) as [cs| | |]; try contradiction
  end.
  - destruct (vec_concat (Some (fst r)) (Some cs)) as [w|]; cbn; [|discriminate].
    destruct (isl_mat_vec_product (isl_mat_lin_to_aff U) w); cbn; discriminate.
  - cbn. discriminate.
Qed.

Lemma gbr_sample_halts (sc : scratch undo) (b : isl_basic_set) (o : isl_options) :
  halts_from (fun f => gbr_sample f sc b) o.
Proof.
  unfold gbr_sample.
  destruct (isl_basic_set_recession_cone b) as [cone|]; [|exists O; discriminate].
  destruct (n_eq cone <? isl_basic_set_total_dim b)%nat; [|apply sample_bounded_halts].
  destruct (with_cone_halts sc b cone o) as [F HF].
  exists F. intros f Hf. specialize (HF f Hf). unfold st_bind, st_ret.
  destruct (isl_basic_set_sample_with_cone f sc b cone o) as [[r| | |] o'];
    cbn [fst] in *; try discriminate. contradiction.
Qed.

Lemma pip_sample_no_fuel (b : isl_basic_set) : pip_sample b <> OutOfFuel.
Proof.
  unfold pip_sample, of_option, res_bind.
  destruct (isl_basic_set_skew_to_positive_orthant b) as [[b' Tm]| | |] eqn:Hs;
    try discriminate.
  - repeat case_match; discriminate.
  - unfold isl_basic_set_skew_to_positive_orthant in Hs.
    repeat case_match; discriminate.
Qed.

(** The dispatcher on a set, the recursive call on the set without its
    equalities being known to halt. *)
Lemma basic_set_sample_halts_if (sc : scratch undo) (b : isl_basic_set) (bounded : bool)
    (o : isl_options) :
  (forall b' Tm, (0 < n_eq b)%nat ->
     isl_basic_set_remove_equalities (set_sample None b) = Some (b', Tm) ->
     halts_from (fun f => basic_set_sample f sc b' bounded) o) ->
  halts_from (fun f => basic_set_sample f sc b bounded) o.
Proof.
  intros Hrec.
  assert (Hrest : exists F, forall f, (F <= f)%nat ->
            fst ((let bset := set_sample None b in
                  if (0 <? n_eq bset)%nat then
                    st_bind
                      (sample_eq bset (fun b0 =>
                         st_bind (basic_set_sample f sc b0 bounded)
                           (fun r => st_ret (Ok (fst r)))))
                      (fun s => st_ret (Ok (s, bset)))
                  else if (isl_basic_set_n_dim bset =? 0)%nat
                  then st_ret (Ok (zero_sample bset, bset))
                  else if (isl_basic_set_n_dim bset =? 1)%nat then
                    st_ret (res_bind (interval_sample bset) (fun s => Ok (s, bset)))
                  else
                    fun o =>
                      match ilp_solver o with
                      | ISL_ILP_PIP =>
                          st_ret (res_bind (pip_sample bset)
                                (fun s => Ok (s, skew_leaves bset))) o
                      | ISL_ILP_GBR =>
                          if bounded then sample_bounded (S f) sc bset o
                          else gbr_sample (S f) sc bset o
                      end) o) <> OutOfFuel).
  { cbv zeta.
    destruct (Nat.ltb_spec 0 (n_eq (set_sample None b))) as [Hpos|_].
    { unfold sample_eq.
      destruct (isl_basic_set_remove_equalities (set_sample None b)) as [[b' Tm]|] eqn:Hr;
        [|exists O; discriminate].
      destruct (Hrec b' Tm Hpos eq_refl) as [F HF].
      exists F. intros f Hf. specialize (HF f Hf). unfold st_bind, st_ret.
      destruct (basic_set_sample f sc b' bounded o) as [[r| | |] o']; cbn [fst] in *;
        try discriminate; [|contradiction].
      destruct (length (fst r) =? 0)%nat; cbn; [discriminate|].
      destruct (isl_mat_vec_product Tm (fst r)); cbn; discriminate. }
    destruct (isl_basic_set_n_dim (set_sample None b) =? 0)%nat; [exists O; discriminate|].
    destruct (isl_basic_set_n_dim (set_sample None b) =? 1)%nat.
    { exists O. intros f _. cbn.
      pose proof (interval_sample_no_fuel (set_sample None b)) as Hi.
      destruct (interval_sample (set_sample None b)); try discriminate. contradiction. }
    destruct (ilp_solver o).
    - destruct bounded.
      + destruct (sample_bounded_halts sc (set_sample None b) o) as [F HF].
        exists F. intros f Hf. apply HF. lia.
      + destruct (gbr_sample_halts sc (set_sample None b) o) as [F HF].
        exists F. intros f Hf. apply HF. lia.
    - exists O. intros f _. cbn.
      pose proof (pip_sample_no_fuel (set_sample None b)) as Hi.
      destruct (pip_sample (set_sample None b)); try discriminate. contradiction. }
  destruct Hrest as [F HF]. exists (S F). intros [|f] Hf; [lia|].
  specialize (HF f ltac:(lia)).
  cbn [basic_set_sample].
  destruct (isl_basic_set_fast_is_empty b); [discriminate|].
  destruct (negb (isl_basic_set_n_param b =? 0)%nat); [discriminate|].
  destruct (negb (bset_n_div b =? 0)%nat); [discriminate|].
  destruct (bset_sample b) as [c|]; [|exact HF].
  destruct (length c =? 1 + isl_basic_set_n_dim b)%nat; [|exact HF].
  destruct (isl_basic_set_contains b c <? 0); [discriminate|].
  destruct (negb (isl_basic_set_contains b c =? 0)); [discriminate|exact HF].
Qed.


End DispatchTermination.

(** ** Samples of maps *)

Section MapSamplerProofs.

Context {ML : MatLayer} {BL : BsetLayer} {T undo : Type} {TL : TabLayer T undo}
        {PL : MapLayer}.

Lemma keeps_options_basic_map_sample (fuel : nat) (sc : scratch undo)
    (bmap : option isl_basic_map) :
  keeps_options (isl_basic_map_sample fuel sc bmap).
Proof.
  unfold isl_basic_map_sample.
  destruct bmap as [bmap|]; [|apply keeps_options_ret].
  destruct (isl_basic_map_underlying_set bmap) as [bset|]; [|apply keeps_options_ret].
  apply keeps_options_bind; [apply keeps_options_basic_set_sample|].
  intros r. repeat case_match; apply keeps_options_ret.
Qed.

Lemma isl_map_sample_loop_spec (fuel : nat) (sc : scratch undo) (o : isl_options) :
  forall (ps : list isl_basic_map) (found : option isl_basic_map) (o' : isl_options),
    isl_map_sample_loop fuel sc ps o = (Ok found, o') ->
    o' = o /\
    match found with
    | Some s =>
        exists pre p post,
          ps = pre ++ p :: post /\
          isl_basic_map_sample fuel sc (Some p) o = (Ok s, o) /\
          bmap_flag_empty s = false /\
          Forall (fun q => exists e, isl_basic_map_sample fuel sc (Some q) o = (Ok e, o) /\
                                     bmap_flag_empty e = true) pre
    | None =>
        Forall (fun q => exists e, isl_basic_map_sample fuel sc (Some q) o = (Ok e, o) /\
                                   bmap_flag_empty e = true) ps
    end.
Proof.
  induction ps as [|p ps IH]; intros found o' H.
  - cbn in H. injection H as <- <-. split; [reflexivity|constructor].
  - cbn [isl_map_sample_loop] in H. unfold st_bind in H.
    pose proof (keeps_options_basic_map_sample fuel sc (Some p) o) as Hk.
    destruct (isl_basic_map_sample fuel sc (Some p) o) as [[s| | |] o1] eqn:Hp;
      try discriminate.
    cbn [fst snd returned] in Hk. specialize (Hk I). subst o1.
    destruct (bmap_flag_empty s) eqn:Hf; cbn [negb] in H.
    + destruct (IH found o' H) as [-> Hrest]. split; [reflexivity|].
      destruct found as [s'|].
      * destruct Hrest as (pre & q & post & -> & Hq & Hfq & Hpre).
        exists (p :: pre), q, post. split; [reflexivity|]. split; [exact Hq|].
        split; [exact Hfq|]. constructor; [|exact Hpre]. eauto.
      * constructor; [|exact Hrest]. eauto.
    + unfold st_ret in H. injection H as <- <-. split; [reflexivity|].
      exists [], p, ps. split; [reflexivity|]. split; [exact Hp|].
      split; [exact Hf|constructor].
Qed.

(** X19.  [isl_map_sample] answers with the sample of the first basic map of the
    map whose sample is not flagged EMPTY, every basic map before it having
    been sampled with an EMPTY result; when every basic map of the map has
    an EMPTY sample (in particular when the map has none), the answer is
    what [isl_basic_map_empty_like_map] makes of the map.  The policy block
    is left as it was. *)
Theorem isl_map_sample_first (fuel : nat) (sc : scratch undo) (map : isl_map)
    (o o' : isl_options) (s : isl_basic_map) :
  isl_map_sample fuel sc (Some map) o = (Ok s, o') ->
  o' = o /\
  ((exists pre p post,
      map_p map = pre ++ p :: post /\
      isl_basic_map_sample fuel sc (Some p) o = (Ok s, o) /\
      bmap_flag_empty s = false /\
      Forall (fun q => exists e, isl_basic_map_sample fuel sc (Some q) o = (Ok e, o) /\
                                 bmap_flag_empty e = true) pre)
   \/ (isl_basic_map_empty_like_map map = Some s /\
       Forall (fun q => exists e, isl_basic_map_sample fuel sc (Some q) o = (Ok e, o) /\
                                  bmap_flag_empty e = true) (map_p map))).
Proof.
  unfold isl_map_sample, st_bind. intros H.
  destruct (isl_map_sample_loop fuel sc (map_p map) o) as [[found| | |] o1] eqn:Hl;
    try discriminate.
  destruct (isl_map_sample_loop_spec fuel sc o _ _ _ Hl) as [-> Hspec].
  destruct found as [s'|]; unfold st_ret in H.
  - injection H as <- <-. split; [reflexivity|]. left. exact Hspec.
  - destruct (isl_basic_map_empty_like_map map) as [e|] eqn:He; [|discriminate].
    injection H as <- <-. split; [reflexivity|]. right. split; [reflexivity|exact Hspec].
Qed.

(** X20.  An error in sampling a basic map is not skipped: if the basic maps
    before some basic map have EMPTY samples and that one cannot be
    sampled, [isl_map_sample] returns NULL, whatever the basic maps after
    it hold. *)
Theorem isl_map_sample_error (fuel : nat) (sc : scratch undo)
    (pre post : list isl_basic_map) (p : isl_basic_map) (o : isl_options) :
  Forall (fun q => exists e, isl_basic_map_sample fuel sc (Some q) o = (Ok e, o) /\
                             bmap_flag_empty e = true) pre ->
  isl_basic_map_sample fuel sc (Some p) o = (Null, o) ->
  isl_map_sample fuel sc (Some (mk_map (pre ++ p :: post))) o = (Null, o).
Proof.
  intros Hpre Hp. unfold isl_map_sample, st_bind. cbn [map_p].
  assert (Hl : isl_map_sample_loop fuel sc (pre ++ p :: post) o = (Null, o)).
  { induction Hpre as [|q pre (e & Hq & He) _ IH]; cbn [app isl_map_sample_loop].
    - unfold st_bind. rewrite Hp. reflexivity.
    - unfold st_bind. rewrite Hq, He. cbn [negb]. exact IH. }
  rewrite Hl. reflexivity.
Qed.

End MapSamplerProofs.

(** ** Schedule constraints *)

Section ScheduleProofs.

Context {uset umap iset space : Type} {UL : UnionLayer uset umap iset space}.

Variable edge_order : list isl_edge_type.

Lemma isl_edge_type_eqb_spec (a b : isl_edge_type) :
  isl_edge_type_eqb a b = true <-> a = b.
Proof. destruct a, b; cbn; split; congruence. Qed.

Lemma existsb_edge (t : isl_edge_type) (l : list isl_edge_type) :
  In t l -> existsb (isl_edge_type_eqb t) l = true.
Proof.
  intros H. apply existsb_exists. exists t. split; [exact H|].
  apply isl_edge_type_eqb_spec. reflexivity.
Qed.

Lemma set_constraint_complete (type : isl_edge_type) (c : umap)
    (sc : isl_schedule_constraints uset umap iset) :
  sc_complete sc -> sc_complete (set_constraint type (Some c) sc).
Proof.
  intros (Hd & Hc & Hall). split; [exact Hd|]. split; [exact Hc|].
  intros t. cbn. destruct (isl_edge_type_eqb type t); [eauto|apply Hall].
Qed.

Lemma apply_loop_spec (umap0 : option umap) :
  forall (types : list isl_edge_type) (sc sc' : isl_schedule_constraints uset umap iset),
    apply_loop types umap0 sc = Some sc' ->
    sc_domain sc' = sc_domain sc /\ sc_context sc' = sc_context sc /\
    (forall t, In t types -> is_Some (sc_constraint sc' t)) /\
    (forall t, ~ In t types -> sc_constraint sc' t = sc_constraint sc t) /\
    (List.NoDup types -> forall t, In t types ->
       sc_constraint sc' t = apply (sc_constraint sc t) umap0 (may_be_tagged t)).
Proof.
  induction types as [|i types IH]; intros sc sc' H.
  - injection H as <-. repeat split; try tauto; intros t []; contradiction.
  - cbn [apply_loop] in H.
    destruct (apply (sc_constraint sc i) umap0 (may_be_tagged i)) as [c|] eqn:Ha;
      [|discriminate].
    destruct (IH _ _ H) as (Hd & Hc & Hin & Hout & Hnd). cbn in Hd, Hc.
    split; [exact Hd|]. split; [exact Hc|].
    assert (Hset : forall t, i <> t ->
              sc_constraint (set_constraint i (Some c) sc) t = sc_constraint sc t).
    { intros t Hne. cbn. destruct (isl_edge_type_eqb i t) eqn:E; [|reflexivity].
      apply isl_edge_type_eqb_spec in E. contradiction. }
    assert (Hself : sc_constraint (set_constraint i (Some c) sc) i = Some c).
    { cbn. destruct (isl_edge_type_eqb i i) eqn:E; [reflexivity|].
      assert (isl_edge_type_eqb i i = true) by (apply isl_edge_type_eqb_spec; reflexivity).
      congruence. }
    split; [|split].
    + intros t [<-|Ht]; [|apply Hin, Ht].
      destruct (in_dec isl_edge_type_eq_dec i types) as [Hi|Hi];
        [apply Hin, Hi|].
      rewrite (Hout i Hi), Hself. eauto.
    + intros t Ht. rewrite Hout by (intros Hi; apply Ht; right; exact Hi).
      apply Hset. intros ->. apply Ht. left. reflexivity.
    + intros Hnodup t Ht. inversion Hnodup as [|? ? Hni Hnd']; subst.
      destruct Ht as [<-|Ht].
      * rewrite (Hout i Hni), Hself. symmetry. exact Ha.
      * rewrite (Hnd Hnd' t Ht). rewrite Hset; [reflexivity|].
        intros ->. contradiction.
Qed.

Section Complete.

Hypothesis edge_order_complete : forall t, In t edge_order.

(** X21.  Every object that the constructor, the copy, the setters,
    [isl_schedule_constraints_add] or [isl_schedule_constraints_apply] hand
    out has a domain, a context and constraints of every kind: a failure of
    a collaborator makes the function return NULL instead of an object with
    a NULL field.  On such an object no getter returns NULL and
    [isl_schedule_constraints_n_map] and [isl_schedule_constraints_copy] do
    not dereference NULL. *)
Theorem sc_built_complete (sc : isl_schedule_constraints uset umap iset) :
  sc_built edge_order sc ->
  sc_complete sc /\
  is_Some (isl_schedule_constraints_get_domain (Some sc)) /\
  is_Some (isl_schedule_constraints_get_context (Some sc)) /\
  (forall t, is_Some (isl_schedule_constraints_get (Some sc) t)) /\
  isl_schedule_constraints_n_map edge_order (Some sc) <> Fault /\
  exists sc', isl_schedule_constraints_copy edge_order (Some sc) = Ok sc' /\
              sc_domain sc' = sc_domain sc /\ sc_context sc' = sc_context sc /\
              forall t, sc_constraint sc' t = sc_constraint sc t.
Proof.
  intros Hb.
  assert (Hc : sc_complete sc).
  { induction Hb as [d sc H|sc sc' _ IH H|sc context sc' _ IH H|sc type c sc' _ IH H
                     |sc c1 c2 sc' _ IH H|sc type c sc' _ IH H|sc u sc' _ IH H].
    - unfold isl_schedule_constraints_on_domain in H.
      destruct d as [d|]; [|discriminate].
      destruct (isl_union_map_empty _) as [e|].
      + destruct (fold_left _ edge_order (Some d)) as [d'|]; [|discriminate].
        destruct (isl_set_universe _) as [u|]; [|discriminate].
        injection H as <-. split; [cbn; eauto|]. split; [cbn; eauto|].
        intros t. cbn [sc_constraint].
        rewrite (existsb_edge t edge_order (edge_order_complete t)). eauto.
      + assert (Hn : fold_left (fun (dom : option uset) (_ : isl_edge_type) => @None uset)
                       edge_order (Some d) = None).
        { pose proof (edge_order_complete isl_edge_validity) as Hin.
          destruct edge_order as [|e0 rest]; [destruct Hin|].
          cbn [fold_left]. clear. induction rest as [|r rest IH]; [reflexivity|exact IH]. }
        rewrite Hn in H. discriminate.
    - unfold isl_schedule_constraints_copy in H.
      destruct IH as (Hd & Hx & Hall).
      destruct (sc_domain sc) eqn:E1; [|discriminate].
      destruct (sc_context sc) eqn:E2; [|discriminate].
      destruct (forallb _ edge_order); [|discriminate].
      injection H as <-. split; [cbn; eauto|]. split; [cbn; eauto|].
      intros t. cbn [sc_constraint].
      rewrite (existsb_edge t edge_order (edge_order_complete t)). apply Hall.
    - unfold isl_schedule_constraints_set_context in H.
      destruct context as [x|]; [|discriminate]. injection H as <-.
      destruct IH as (Hd & _ & Hall). split; [exact Hd|]. split; [cbn; eauto|exact Hall].
    - unfold isl_schedule_constraints_set in H.
      destruct c as [c|]; [|discriminate]. injection H as <-.
      apply set_constraint_complete, IH.
    - unfold isl_schedule_constraints_set_conditional_validity,
        isl_schedule_constraints_set in H.
      destruct c1 as [c1|]; [|discriminate]. destruct c2 as [c2|]; [|discriminate].
      injection H as <-. apply set_constraint_complete, set_constraint_complete, IH.
    - unfold isl_schedule_constraints_add in H.
      destruct c as [c|]; [|discriminate].
      destruct (isl_union_map_union _ _) as [c'|]; [|discriminate].
      injection H as <-. apply set_constraint_complete, IH.
    - unfold isl_schedule_constraints_apply in H.
      destruct u as [u|]; [|discriminate].
      destruct (apply_loop edge_order (Some u) sc) as [sc1|] eqn:Hl; [|discriminate].
      destruct (isl_union_set_apply _ _) as [d|]; [|discriminate].
      injection H as <-.
      destruct (apply_loop_spec _ _ _ _ Hl) as (_ & Hx & Hin & _).
      destruct IH as (_ & Hctx & _).
      split; [cbn; eauto|]. split; [cbn; rewrite Hx; exact Hctx|].
      intros t. cbn. apply Hin, edge_order_complete. }
  split; [exact Hc|]. destruct Hc as (Hd & Hx & Hall).
  split; [exact Hd|]. split; [exact Hx|]. split; [exact Hall|].
  split; [discriminate|].
  unfold isl_schedule_constraints_copy.
  destruct Hd as [d Hd], Hx as [x Hx]. rewrite Hd, Hx.
  assert (Hf : forallb (fun t => match sc_constraint sc t with Some _ => true | None => false end)
                 edge_order = true).
  { apply forallb_forall. intros t _. destruct (Hall t) as [c ->]. reflexivity. }
  rewrite Hf. eexists. split; [reflexivity|]. cbn.
  split; [reflexivity|]. split; [reflexivity|].
  intros t. rewrite (existsb_edge t edge_order (edge_order_complete t)). reflexivity.
Qed.

End Complete.

(** X22.  Setting and getting.  [isl_schedule_constraints_set] fails exactly if
    it is handed a NULL object or NULL constraints; otherwise a getter of
    the kind that was set returns the new constraints, every other getter
    what it returned before, and the domain and the context stay. *)
Theorem isl_schedule_constraints_get_set (sc : option (isl_schedule_constraints uset umap iset))
    (type : isl_edge_type) (c : option umap) :
  (isl_schedule_constraints_set sc type c = None <-> sc = None \/ c = None) /\
  forall sc0 c0, sc = Some sc0 -> c = Some c0 ->
    let sc' := isl_schedule_constraints_set sc type c in
    isl_schedule_constraints_get sc' type = Some c0 /\
    (forall t, t <> type ->
       isl_schedule_constraints_get sc' t = isl_schedule_constraints_get sc t) /\
    isl_schedule_constraints_get_domain sc' = isl_schedule_constraints_get_domain sc /\
    isl_schedule_constraints_get_context sc' = isl_schedule_constraints_get_context sc.
Proof.
  split.
  - unfold isl_schedule_constraints_set.
    destruct sc as [sc|], c as [c|]; split; try tauto; try discriminate.
    intros [H|H]; discriminate.
  - intros sc0 c0 -> ->. cbn.
    assert (Hrefl : isl_edge_type_eqb type type = true)
      by (apply isl_edge_type_eqb_spec; reflexivity).
    rewrite Hrefl. split; [reflexivity|]. split; [|split; reflexivity].
    intros t Hne. destruct (isl_edge_type_eqb type t) eqn:E; [|reflexivity].
    apply isl_edge_type_eqb_spec in E. congruence.
Qed.

(** [isl_schedule_constraints_set_conditional_validity] fails exactly if
    the object, the condition or the validity constraints are NULL;
    otherwise it replaces the constraints of the kinds condition and
    conditional validity, and those two only. *)
Lemma isl_schedule_constraints_conditional_validity
    (sc : option (isl_schedule_constraints uset umap iset)) (condition validity : option umap) :
  (isl_schedule_constraints_set_conditional_validity sc condition validity = None <->
   sc = None \/ condition = None \/ validity = None) /\
  forall sc0 c1 c2, sc = Some sc0 -> condition = Some c1 -> validity = Some c2 ->
    let sc' := isl_schedule_constraints_set_conditional_validity sc condition validity in
    isl_schedule_constraints_get_conditional_validity_condition sc' = Some c1 /\
    isl_schedule_constraints_get_conditional_validity sc' = Some c2 /\
    isl_schedule_constraints_get_validity sc' = isl_schedule_constraints_get_validity sc /\
    isl_schedule_constraints_get_coincidence sc' = isl_schedule_constraints_get_coincidence sc /\
    isl_schedule_constraints_get_proximity sc' = isl_schedule_constraints_get_proximity sc /\
    isl_schedule_constraints_get_domain sc' = isl_schedule_constraints_get_domain sc /\
    isl_schedule_constraints_get_context sc' = isl_schedule_constraints_get_context sc.
Proof.
  split.
  - unfold isl_schedule_constraints_set_conditional_validity, isl_schedule_constraints_set.
    destruct sc as [sc|], condition as [c1|], validity as [c2|];
      split; try tauto; try discriminate.
    all: intros [H|[H|H]]; discriminate.
  - intros sc0 c1 c2 -> -> ->. cbn. repeat split.
Qed.

(** X23.  [isl_schedule_constraints_apply], when the enumeration names every
    kind once: the constraints of every kind are replaced by their image
    under the map on both sides, those of the kinds that may be tagged
    (condition and conditional validity) united with the image of the
    wrapped relations; the domain is replaced by its image and the context
    stays. *)
Theorem isl_schedule_constraints_apply_each (sc sc' : isl_schedule_constraints uset umap iset)
    (umap0 : umap) :
  List.NoDup edge_order -> (forall t, In t edge_order) ->
  isl_schedule_constraints_apply edge_order (Some sc) (Some umap0) = Some sc' ->
  (forall t,
     sc_constraint sc' t
     = if may_be_tagged t
       then isl_union_map_union
              (isl_union_map_apply_range
                 (isl_union_map_apply_domain (sc_constraint sc t) (Some umap0)) (Some umap0))
              (apply_factor_domain (sc_constraint sc t) (Some umap0))
       else isl_union_map_apply_range
              (isl_union_map_apply_domain (sc_constraint sc t) (Some umap0)) (Some umap0)) /\
  sc_domain sc' = isl_union_set_apply (sc_domain sc) (Some umap0) /\
  sc_context sc' = sc_context sc.
Proof.
  intros Hnd Hall H. unfold isl_schedule_constraints_apply in H.
  destruct (apply_loop edge_order (Some umap0) sc) as [sc1|] eqn:Hl; [|discriminate].
  destruct (apply_loop_spec _ _ _ _ Hl) as (Hd & Hx & _ & _ & Heach).
  destruct (isl_union_set_apply (sc_domain sc1) (Some umap0)) as [d|] eqn:Hu; [|discriminate].
  injection H as <-. cbn [sc_constraint sc_domain sc_context].
  split; [|split; [rewrite <- Hd; symmetry; exact Hu|exact Hx]].
  intros t. rewrite (Heach Hnd t (Hall t)). unfold apply.
  destruct (may_be_tagged t); reflexivity.
Qed.

End ScheduleProofs.

(** * Runs on concrete sets *)

(** The diamond under the policy ONCE: the reduction fires at level 0, x = 1
    is pinned, and the search stops at level 1 on the integer vertex (1, 1). *)
Example diamond_trace :
  isl_tab_sample_trace (ML := Planar.mat_layer) (TL := Planar.tab_layer) 20
    Planar.stale (Planar.tableau Planar.diamond) (Planar.options ISL_GBR_ONCE)
  = ([EvReduce 0; EvSnap 0 (Some (1, 2)); EvPin 0 1],
     (Ok [1; 1; 1], Planar.options ISL_GBR_ONCE)).
Proof. vm_compute. reflexivity. Qed.

(** The strip: x = 1 is pinned and leaves no integer y, the search rolls
    back and pins x = 2. *)
Example strip_trace :
  isl_tab_sample_trace (ML := Planar.mat_layer) (TL := Planar.tab_layer) 20
    Planar.stale (Planar.tableau Planar.strip) (Planar.options ISL_GBR_NEVER)
  = ([EvSnap 0 (Some (1, 2)); EvPin 0 1; EvSnap 1 (Some (1, 0));
      EvRollback 0; EvPin 0 2],
     (Ok [1; 2; 1], Planar.options ISL_GBR_NEVER)).
Proof. vm_compute. reflexivity. Qed.

(** The sliver holds no integer point: the zero-length vector. *)
Example sliver_trace :
  isl_tab_sample_trace (ML := Planar.mat_layer) (TL := Planar.tab_layer) 20
    Planar.stale (Planar.tableau Planar.sliver) (Planar.options ISL_GBR_ALWAYS)
  = ([EvSnap 0 (Some (1, 0))], (Ok [], Planar.options ISL_GBR_ALWAYS)).
Proof. vm_compute. reflexivity. Qed.

(** C4 as stated fails: on the triangle with vertices (1/2, 1/2), (3, 1)
    and (1, 2) the search stops at level 0, before any value is pinned,
    because the vertex at which x is largest is integer; it returns
    (3, 1), although the set holds the integer point (1, 2), whose
    coordinate in the direction of level 0 is smaller. *)
Lemma isl_tab_sample_lowest_counterexample :
  isl_tab_sample_trace (ML := Planar.mat_layer) (TL := Planar.tab_layer) 20
    Planar.stale (Planar.tableau Planar.triangle) (Planar.options ISL_GBR_ALWAYS)
  = ([], (Ok [1; 3; 1], Planar.options ISL_GBR_ALWAYS)) /\
  integer_point Planar.triangle [1; 1; 2] /\
  el [1; 1; 2] 1 < el [1; 3; 1] 1.
Proof.
  split; [vm_compute; reflexivity|].
  split; [|vm_compute; reflexivity].
  split; [reflexivity|]. split; [reflexivity|].
  split.
  - intros e [].
  - intros i [<-|[<-|[<-|[]]]]; vm_compute; discriminate.
Qed.

(** The error path: when the basis reduction fails on the diamond under the
    policy ONCE, the sampler returns NULL after the reduction was tried. *)
Example diamond_failing_reduction_trace :
  isl_tab_sample_trace (ML := Planar.mat_layer) (TL := Planar.failing_gbr_tab_layer) 20
    Planar.stale (Planar.tableau Planar.diamond) (Planar.options ISL_GBR_ONCE)
  = ([EvReduce 0], (Null, Planar.options ISL_GBR_ONCE)).
Proof. vm_compute. reflexivity. Qed.

(** The order of the inequalities after the PIP back end: the unit row
    x >= 0 has moved in front of x + y >= 2. *)
Example skew_leaves_moves_unit_row :
  bset_ineq (skew_leaves (Planar.plain 2 [[-2; 1; 1]; [0; 1; 0]]))
  = [[0; 1; 0]; [-2; 1; 1]].
Proof. vm_compute. reflexivity. Qed.

(** A basis without rows: when the basis reduction leaves one on the
    diamond, the next read of [tab->basis->row[1 + level]] is out of range,
    and the policy block stays as the reduction left it. *)
Example diamond_rowless_reduction_trace :
  isl_tab_sample_trace (ML := Planar.mat_layer) (TL := Planar.rowless_gbr_tab_layer) 20
    Planar.stale (Planar.tableau Planar.diamond) (Planar.options ISL_GBR_ONCE)
  = ([EvReduce 0], (Fault, Planar.options ISL_GBR_NEVER)).
Proof. vm_compute. reflexivity. Qed.

(** The policy ONCE on the diamond: the reduction fires and leaves NEVER
    behind, and the caller finds ONCE again, on the successful path and on
    the error path. *)
Lemma isl_tab_sample_restores_gbr_witness :
  gbr (snd (isl_tab_sample (ML := Planar.mat_layer) (TL := Planar.tab_layer) 20
              Planar.stale (Planar.tableau Planar.diamond) (Planar.options ISL_GBR_ONCE)))
  = ISL_GBR_ONCE /\
  gbr (snd (isl_tab_sample (ML := Planar.mat_layer) (TL := Planar.failing_gbr_tab_layer) 20
              Planar.stale (Planar.tableau Planar.diamond) (Planar.options ISL_GBR_ONCE)))
  = ISL_GBR_ONCE /\
  gbr (out_opt (snd (step_reduce (TL := Planar.tab_layer) (Planar.tableau Planar.diamond)
                       (Planar.options ISL_GBR_ONCE) [1; 0] [2; 0] [] 0)))
  = ISL_GBR_NEVER.
Proof.
  destruct (isl_tab_sample_restores_gbr (ML := Planar.mat_layer) (TL := Planar.tab_layer)
              20 Planar.stale (Planar.tableau Planar.diamond) (Planar.options ISL_GBR_ONCE))
    as [H1 H2].
  destruct (isl_tab_sample_restores_gbr (ML := Planar.mat_layer)
              (TL := Planar.failing_gbr_tab_layer)
              20 Planar.stale (Planar.tableau Planar.diamond) (Planar.options ISL_GBR_ONCE))
    as [H3 _].
  split; [|split].
  - apply H1. vm_compute. exact I.
  - apply H3. vm_compute. exact I.
  - apply H2. reflexivity.
Defined.

(** Two runs on the strip, the second with other stale array contents and a
    larger budget. *)
Lemma isl_tab_sample_deterministic_witness :
  isl_tab_sample (ML := Planar.mat_layer) (TL := Planar.tab_layer) 30 Planar.stale'
    (Planar.tableau Planar.strip)
    (snd (isl_tab_sample (ML := Planar.mat_layer) (TL := Planar.tab_layer) 20
            Planar.stale (Planar.tableau Planar.strip) (Planar.options ISL_GBR_ONCE)))
  = isl_tab_sample (ML := Planar.mat_layer) (TL := Planar.tab_layer) 20 Planar.stale
      (Planar.tableau Planar.strip) (Planar.options ISL_GBR_ONCE).
Proof.
  apply (isl_tab_sample_deterministic (ML := Planar.mat_layer) (TL := Planar.tab_layer)).
  - vm_compute. exact I.
  - lia.
Defined.

(** C5 as stated fails: the first call on the interval 3 <= x <= 5 succeeds
    with the sample 3 and leaves the cache of the set empty, so that the
    second call cannot answer from the cache: it runs the interval sampler
    again (and fails when the simplifier does). *)
Lemma basic_set_sample_not_cached_counterexample :
  basic_set_sample (ML := Planar.mat_layer) (BL := Planar.bset_layer)
    (TL := Planar.tab_layer) 2 Planar.stale Planar.interval false
    (Planar.options ISL_GBR_ALWAYS)
  = (Ok ([1; 3], Planar.interval), Planar.options ISL_GBR_ALWAYS) /\
  bset_sample Planar.interval = None /\
  basic_set_sample (ML := Planar.mat_layer) (BL := Planar.failing_bset_layer)
    (TL := Planar.tab_layer) 2 Planar.stale Planar.interval false
    (Planar.options ISL_GBR_ALWAYS)
  = (Null, Planar.options ISL_GBR_ALWAYS).
Proof. repeat split. Qed.

(** The engine's part in C5: with an engine that reports a point outside
    the diamond, the first call stores (9, 9) in the set, the test of the
    cache fails in the second call, and the search runs again, to another
    answer. *)
Example basic_set_sample_unsound_engine_recomputes :
  basic_set_sample (ML := Planar.mat_layer) (BL := Planar.bset_layer)
    (TL := Planar.unsound_tab_layer) 20 Planar.stale Planar.diamond true
    (Planar.options ISL_GBR_ONCE)
  = (Ok ([1; 9; 9], set_sample (Some [1; 9; 9]) Planar.diamond),
     Planar.options ISL_GBR_ONCE) /\
  isl_basic_set_contains (set_sample (Some [1; 9; 9]) Planar.diamond) [1; 9; 9] = 0 /\
  basic_set_sample (ML := Planar.mat_layer) (BL := Planar.bset_layer)
    (TL := Planar.tab_layer) 20 Planar.stale
    (set_sample (Some [1; 9; 9]) Planar.diamond) true (Planar.options ISL_GBR_ONCE)
  = (Ok ([1; 1; 1], set_sample (Some [1; 1; 1]) Planar.diamond),
     Planar.options ISL_GBR_ONCE).
Proof. repeat split. Qed.

(** ** Runs of the further properties *)

(** The engine whose pinning fails keeps the frame of the tableau. *)
Lemma failing_pin_engine_keeps_frame (dim : nat) :
  engine_keeps_frame Planar.failing_pin_tab_layer dim.
Proof.
  unfold engine_keeps_frame, keeps_frame. cbn.
  split; [|split; [|split; [|split]]].
  - intros t f d. unfold Planar.min. destruct (Planar.vertices _); cbn; tauto.
  - intros t r t' H. discriminate.
  - intros t u t' H. injection H as <-. cbn. tauto.
  - intros o t t' H. injection H as <-. tauto.
  - intros t n t' H. injection H as <-. tauto.
Qed.


(** On the strip the value 2 is pinned at level 0 after the rollback,
    within the bounds 1 and 2 that the snapshot of the level recorded. *)
Lemma isl_tab_sample_pins_in_range_witness :
  exists lo hi,
    last_snap 0 [EvSnap 0 (Some (1, 2)); EvPin 0 1; EvSnap 1 (Some (1, 0)); EvRollback 0]
    = Some (Some (lo, hi)) /\ lo <= 2 <= hi.
Proof.
  apply (isl_tab_sample_pins_in_range (ML := Planar.mat_layer) (TL := Planar.tab_layer)
           20 Planar.stale (Planar.tableau Planar.strip) (Planar.options ISL_GBR_NEVER)
           [EvSnap 0 (Some (1, 2)); EvPin 0 1; EvSnap 1 (Some (1, 0)); EvRollback 0]
           0 2 []).
  vm_compute. reflexivity.
Defined.

Lemma bounded_remove_equalities_complete (b b' : isl_basic_set) (Tm : isl_mat) :
  isl_basic_set_remove_equalities (BsetLayer := Planar.bounded_bset_layer) b = Some (b', Tm) ->
  n_eq b' = O.
Proof.
  cbn. destruct (Nat.eqb_spec (n_eq b) 0) as [H0|]; [|discriminate].
  intros H. injection H as <- _. exact H0.
Qed.


(** The diamond under the policy ONCE, sampled through the recession cone:
    the caller finds ONCE again. *)
Lemma basic_set_sample_restores_options_witness :
  snd (basic_set_sample (ML := Planar.mat_layer) (BL := Planar.bounded_bset_layer)
         (TL := Planar.tab_layer) 20 Planar.stale Planar.diamond false
         (Planar.options ISL_GBR_ONCE))
  = Planar.options ISL_GBR_ONCE.
Proof.
  apply (basic_set_sample_restores_options (ML := Planar.mat_layer)
           (BL := Planar.bounded_bset_layer) (TL := Planar.tab_layer)).
  vm_compute. exact I.
Defined.

(** The diamond after a call under the GBR back end: the constraints are
    the same, in the same order, and the cached sample is the answer
    (1, 1). *)
Lemma basic_set_sample_cache_after_witness :
  same_constraints_reordered Planar.diamond
    (set_sample (Some [1; 1; 1]) Planar.diamond) /\
  (same_constraints Planar.diamond (set_sample (Some [1; 1; 1]) Planar.diamond) \/
   (ilp_solver (Planar.options ISL_GBR_ONCE) = ISL_ILP_PIP /\
    set_sample (Some [1; 1; 1]) Planar.diamond
    = skew_leaves (set_sample None Planar.diamond))) /\
  (bset_sample (set_sample (Some [1; 1; 1]) Planar.diamond) = None \/
   (bset_sample (set_sample (Some [1; 1; 1]) Planar.diamond) = Some [1; 1; 1] /\
    [1; 1; 1] <> [])) /\
  (bset_flag_empty (set_sample (Some [1; 1; 1]) Planar.diamond) = true -> [1; 1; 1] = []).
Proof.
  apply (basic_set_sample_cache_after (ML := Planar.mat_layer)
           (BL := Planar.bounded_bset_layer) (TL := Planar.tab_layer)
           20 Planar.stale Planar.diamond (set_sample (Some [1; 1; 1]) Planar.diamond)
           false (Planar.options ISL_GBR_ONCE) (Planar.options ISL_GBR_ONCE) [1; 1; 1]).
  - vm_compute. reflexivity.
  - reflexivity.
Defined.

(** The rational point (1/2, 3/2): the dispatcher returns it from the
    singleton set, with collaborators that all fail. *)
Lemma basic_set_sample_from_vec_witness :
  exists b,
    isl_basic_set_from_vec (Some [2; 1; 3]) = Some b /\
    basic_set_sample (ML := Planar.mat_layer) (BL := Planar.failing_bset_layer)
      (TL := Planar.tab_layer) 1 Planar.stale b false (Planar.options ISL_GBR_ALWAYS)
    = (Ok ([2; 1; 3], b), Planar.options ISL_GBR_ALWAYS).
Proof.
  eexists. split; [reflexivity|].
  apply (basic_set_sample_from_vec (ML := Planar.mat_layer)
           (BL := Planar.failing_bset_layer) (TL := Planar.tab_layer)).
  reflexivity.
Defined.

(** The diamond, sampled as a bounded set. *)
Lemma basic_set_sample_bounded_caches_witness :
  bset_sample (set_sample (Some [1; 1; 1]) Planar.diamond) = Some [1; 1; 1].
Proof.
  apply (basic_set_sample_bounded_caches (ML := Planar.mat_layer)
           (BL := Planar.bset_layer) (TL := Planar.tab_layer)
           20 Planar.stale Planar.diamond (set_sample (Some [1; 1; 1]) Planar.diamond)
           (Planar.options ISL_GBR_ONCE) (Planar.options ISL_GBR_ONCE) [1; 1; 1]).
  - vm_compute. reflexivity.
  - reflexivity.
  - reflexivity.
  - reflexivity.
  - simpl. lia.
  - reflexivity.
  - simpl. lia.
Defined.

(** The interval 3 <= x <= 5: the answer 3 is an integer point of it. *)
Lemma interval_sample_simplified_sound_witness :
  integer_point Planar.interval [1; 3].
Proof.
  apply (interval_sample_simplified_sound Planar.interval [1; 3]).
  - reflexivity.
  - intros i [<-|[<-|[]]]; [left|right]; reflexivity.
  - reflexivity.
  - discriminate.
Defined.

(** The empty interval 3 <= x <= 2: the answer is the zero-length vector,
    and 3 is no point of the set. *)
Lemma interval_sample_simplified_complete_witness :
  interval_sample_simplified (Planar.plain 1 [[-3; 1]; [2; -1]]) = Ok [] /\
  ~ satisfies (Planar.plain 1 [[-3; 1]; [2; -1]]) [1; 3].
Proof.
  split; [reflexivity|].
  apply (interval_sample_simplified_complete (Planar.plain 1 [[-3; 1]; [2; -1]])).
  - reflexivity.
  - reflexivity.
  - intros i0 rest H. injection H as <- <-.
    split; [left; reflexivity|].
    intros i [<-|[]]. vm_compute. discriminate.
  - reflexivity.
  - reflexivity.
Defined.

(** The wedge x >= y, 2 y >= x, shifted to the point (1/2, 3/2). *)
Lemma shift_cone_unit_box_witness :
  exists shift,
    shift_cone (BL := Planar.bset_layer) (Some Planar.wedge) (Some [2; 1; 3])
    = isl_basic_set_finalize (BsetLayer := Planar.bset_layer) shift /\
    bset_eq shift = [] /\ n_ineq shift = n_ineq Planar.wedge /\
    isl_basic_set_total_dim shift = isl_basic_set_total_dim Planar.wedge /\
    unit_box_inside shift Planar.wedge [2; 1; 3].
Proof.
  apply (shift_cone_unit_box (BL := Planar.bset_layer) Planar.wedge [2; 1; 3]);
    reflexivity.
Defined.

(** The sample x = 3 of the first of two coordinates, plugged in at the
    point y = 5. *)
Lemma plug_in_matrix_product_witness :
  mat_n_col (plug_in_matrix 2 [1; 3]) = 2%nat /\
  length (mat_row (plug_in_matrix 2 [1; 3])) = mat_n_row (plug_in_matrix 2 [1; 3]) /\
  Forall (fun r => length r = mat_n_col (plug_in_matrix 2 [1; 3]))
    (mat_row (plug_in_matrix 2 [1; 3])) /\
  map (fun r => isl_seq_inner_product r [1; 5] (mat_n_col (plug_in_matrix 2 [1; 3])))
    (mat_row (plug_in_matrix 2 [1; 3]))
  = [1; 3; 5].
Proof.
  apply (plug_in_matrix_product 2 [1; 3] [1; 5]).
  - simpl. lia.
  - vm_compute. reflexivity.
  - reflexivity.
Defined.
Lemma planar_drop_inequality_removes (b : isl_basic_set) (pos : nat) :
  (pos < n_ineq b)%nat ->
  (take pos (bset_ineq (isl_basic_set_drop_inequality (BsetLayer := Planar.bset_layer) b pos))
   = take pos (bset_ineq b)) /\
  (bset_ineq (isl_basic_set_drop_inequality (BsetLayer := Planar.bset_layer) b pos)
   ≡ₚ delete pos (bset_ineq b)).
Proof.
  intros Hpos. cbn [isl_basic_set_drop_inequality Planar.bset_layer set_ineq bset_ineq].
  split.
  - rewrite take_app_le by (rewrite length_take; unfold n_ineq in Hpos; lia).
    rewrite take_take. f_equal. lia.
  - rewrite delete_take_drop. reflexivity.
Qed.

Lemma drop_constraints_involving_keeps_witness :
  bset_ineq (drop_constraints_involving (BL := Planar.bset_layer)
               (Planar.plain 3 [[0; 1; 0; 2]; [5; 0; 1; 0]; [1; 1; 1; 0]; [0; 0; 0; 1]]) 2 1)
  ≡ₚ [[5; 0; 1; 0]; [1; 1; 1; 0]].
Proof.
  apply (drop_constraints_involving_keeps (BL := Planar.bset_layer)
           planar_drop_inequality_removes
           (Planar.plain 3 [[0; 1; 0; 2]; [5; 0; 1; 0]; [1; 1; 1; 0]; [0; 0; 0; 1]]) 2 1).
Defined.

(** The bounds selected on the diamond. *)
Lemma independent_bounds_rows_witness :
  exists sel,
    mat_row (independent_bounds (ML := Planar.mat_layer) Planar.diamond)
    = (1 :: replicate (isl_basic_set_n_dim Planar.diamond) 0) :: sel /\
    sublist sel (map (take (S (isl_basic_set_n_dim Planar.diamond)))
                   (bset_ineq Planar.diamond)) /\
    head sel = head (map (take (S (isl_basic_set_n_dim Planar.diamond)))
                       (bset_ineq Planar.diamond)) /\
    mat_n_row (independent_bounds (ML := Planar.mat_layer) Planar.diamond)
    = S (length sel) /\
    (length sel <= isl_basic_set_n_dim Planar.diamond)%nat /\
    mat_n_col (independent_bounds (ML := Planar.mat_layer) Planar.diamond)
    = S (isl_basic_set_n_dim Planar.diamond).
Proof.
  apply (independent_bounds_rows (ML := Planar.mat_layer) Planar.diamond).
  simpl. lia.
Defined.

(** Four inequalities on two variables, of which the second and the third
    are unit rows. *)
Lemma hoist_unit_rows_front_witness :
  hoist_unit_rows 4 0 0 2 [[0; 1; 1]; [3; 0; 1]; [1; 1; 0]; [0; 2; -1]]
  ≡ₚ [[0; 1; 1]; [3; 0; 1]; [1; 1; 0]; [0; 2; -1]] /\
  take 2 (hoist_unit_rows 4 0 0 2 [[0; 1; 1]; [3; 0; 1]; [1; 1; 0]; [0; 2; -1]])
  = [[3; 0; 1]; [1; 1; 0]].
Proof.
  apply (hoist_unit_rows_front 2 [[0; 1; 1]; [3; 0; 1]; [1; 1; 0]; [0; 2; -1]]).
  vm_compute. reflexivity.
Defined.

(** The diamond with one unbounded direction declared, and the wedge as the
    cone: the first inequality of the wedge is handed over with its
    constant lowered by one, and the wedge is left as it was. *)
Lemma tab_shift_cone_restores_witness :
  snd (fst (tab_shift_cone (ML := Planar.mat_layer) (CL := Planar.cone_layer)
              (Some (set_n_unbounded 1 (Planar.tableau Planar.diamond)))
              (Some Planar.wedge_tableau) (Some (Planar.identity 2))))
  = [[-1; 1; -1]] /\
  fst (fst (tab_shift_cone (ML := Planar.mat_layer) (CL := Planar.cone_layer)
              (Some (set_n_unbounded 1 (Planar.tableau Planar.diamond)))
              (Some Planar.wedge_tableau) (Some (Planar.identity 2))))
  = bset_ineq Planar.wedge /\
  Forall (shifted_copy_of (bset_ineq Planar.wedge))
    (snd (fst (tab_shift_cone (ML := Planar.mat_layer) (CL := Planar.cone_layer)
                 (Some (set_n_unbounded 1 (Planar.tableau Planar.diamond)))
                 (Some Planar.wedge_tableau) (Some (Planar.identity 2))))) /\
  (tab_n_unbounded (set_n_unbounded 1 (Planar.tableau Planar.diamond)) = O ->
   tab_shift_cone (ML := Planar.mat_layer) (CL := Planar.cone_layer)
     (Some (set_n_unbounded 1 (Planar.tableau Planar.diamond)))
     (Some Planar.wedge_tableau) (Some (Planar.identity 2))
   = (bset_ineq Planar.wedge, [], ShiftDone (set_n_unbounded 1 (Planar.tableau Planar.diamond)))).
Proof.
  split; [vm_compute; reflexivity|].
  apply (tab_shift_cone_restores (ML := Planar.mat_layer) (CL := Planar.cone_layer)
           (set_n_unbounded 1 (Planar.tableau Planar.diamond)) Planar.wedge_tableau
           (Planar.identity 2) Planar.wedge).
  reflexivity.
Defined.

(** The diamond with the tableau of the zero-dimensional cone. *)
Lemma initial_basis_with_cone_bounded_witness :
  exists status tab',
    isl_tab_set_initial_basis_with_cone (ML := Planar.mat_layer) (CL := Planar.cone_layer)
      (Some (Planar.tableau Planar.diamond)) (Some Planar.point_cone_tableau)
    = Ok (status, Some tab') /\
    tab_basis tab' = initial_basis (ML := Planar.mat_layer) (Planar.tableau Planar.diamond) /\
    (status = 0 <->
     is_Some (initial_basis (ML := Planar.mat_layer) (Planar.tableau Planar.diamond))) /\
    (status = 0 \/ status = -1) /\
    isl_tab_sample_trace (ML := Planar.mat_layer) (TL := Planar.tab_layer) 20 Planar.stale
      tab' (Planar.options ISL_GBR_ONCE)
    = isl_tab_sample_trace (ML := Planar.mat_layer) (TL := Planar.tab_layer) 20 Planar.stale
        (Planar.tableau Planar.diamond) (Planar.options ISL_GBR_ONCE).
Proof.
  apply (initial_basis_with_cone_bounded (ML := Planar.mat_layer) (TL := Planar.tab_layer)
           (CL := Planar.cone_layer) 20 Planar.stale (Planar.tableau Planar.diamond)
           Planar.point_cone_tableau (Planar.options ISL_GBR_ONCE)); reflexivity.
Defined.

(** The map of two pieces: the sliver has an EMPTY sample, and the answer is
    the sample of the diamond, the point (1, 1). *)
Lemma isl_map_sample_first_witness :
  exists s,
    isl_map_sample (ML := Planar.mat_layer) (BL := Planar.bounded_bset_layer)
      (TL := Planar.tab_layer) (PL := Planar.map_layer) 20 Planar.stale
      (Some Planar.two_pieces) (Planar.options ISL_GBR_ONCE)
    = (Ok s, Planar.options ISL_GBR_ONCE) /\
    bmap_sample s = Some [1; 1; 1] /\
    (Planar.options ISL_GBR_ONCE = Planar.options ISL_GBR_ONCE /\
     ((exists pre p post,
         map_p Planar.two_pieces = pre ++ p :: post /\
         isl_basic_map_sample (ML := Planar.mat_layer) (BL := Planar.bounded_bset_layer)
           (TL := Planar.tab_layer) (PL := Planar.map_layer) 20 Planar.stale (Some p)
           (Planar.options ISL_GBR_ONCE)
         = (Ok s, Planar.options ISL_GBR_ONCE) /\
         bmap_flag_empty s = false /\
         Forall (fun q => exists e,
                   isl_basic_map_sample (ML := Planar.mat_layer)
                     (BL := Planar.bounded_bset_layer) (TL := Planar.tab_layer)
                     (PL := Planar.map_layer) 20 Planar.stale (Some q)
                     (Planar.options ISL_GBR_ONCE)
                   = (Ok e, Planar.options ISL_GBR_ONCE) /\
                   bmap_flag_empty e = true) pre)
      \/ (isl_basic_map_empty_like_map (MapLayer := Planar.map_layer) Planar.two_pieces
          = Some s /\
          Forall (fun q => exists e,
                    isl_basic_map_sample (ML := Planar.mat_layer)
                      (BL := Planar.bounded_bset_layer) (TL := Planar.tab_layer)
                      (PL := Planar.map_layer) 20 Planar.stale (Some q)
                      (Planar.options ISL_GBR_ONCE)
                    = (Ok e, Planar.options ISL_GBR_ONCE) /\
                    bmap_flag_empty e = true) (map_p Planar.two_pieces)))).
Proof.
  eexists. split; [vm_compute; reflexivity|]. split; [reflexivity|].
  apply (isl_map_sample_first (ML := Planar.mat_layer) (BL := Planar.bounded_bset_layer)
           (TL := Planar.tab_layer) (PL := Planar.map_layer) 20 Planar.stale
           Planar.two_pieces).
  vm_compute. reflexivity.
Defined.

(** When the overlying basic map cannot be built, the error on the diamond
    is returned, after the sliver and whatever follows. *)
Lemma isl_map_sample_error_witness :
  isl_map_sample (ML := Planar.mat_layer) (BL := Planar.bounded_bset_layer)
    (TL := Planar.tab_layer) (PL := Planar.failing_map_layer) 20 Planar.stale
    (Some (mk_map ([Planar.relation (bset_ineq Planar.sliver)]
                   ++ Planar.relation (bset_ineq Planar.diamond)
                   :: [Planar.relation (bset_ineq Planar.strip)])))
    (Planar.options ISL_GBR_ONCE)
  = (Null, Planar.options ISL_GBR_ONCE).
Proof.
  apply (isl_map_sample_error (ML := Planar.mat_layer) (BL := Planar.bounded_bset_layer)
           (TL := Planar.tab_layer) (PL := Planar.failing_map_layer)).
  - constructor; [|constructor]. eexists. split; vm_compute; reflexivity.
  - vm_compute. reflexivity.
Defined.

Lemma planar_vertices_feasible (rs : list (list Z)) (v : isl_vec) :
  In v (Planar.vertices rs) -> Planar.feasible rs v = true.
Proof.
  unfold Planar.vertices. intros H.
  apply list_elem_of_In, list_elem_of_omap in H as (p & _ & Hp).
  destruct (Planar.crossing (fst p) (snd p)) as [w|]; [|discriminate].
  destruct (Planar.feasible rs w) eqn:Hf; [|discriminate].
  injection Hp as <-. exact Hf.
Qed.

Lemma planar_argmin_In (f : list Z) (vs : list isl_vec) :
  forall best, In (Planar.argmin f best vs) (best :: vs).
Proof.
  induction vs as [|v vs IH]; intros best; cbn [Planar.argmin]; [left; reflexivity|].
  destruct (_ <? _).
  - right. apply IH.
  - destruct (IH best) as [H|H]; [left; exact H|right; right; exact H].
Qed.

Lemma planar_feasible_incl (d rs : list (list Z)) (v : isl_vec) :
  (forall r, In r d -> In r rs) ->
  Planar.feasible rs v = true -> Planar.feasible d v = true.
Proof.
  unfold Planar.feasible. rewrite !forallb_forall. intros Hincl H r Hr.
  apply H, Hincl, Hr.
Qed.

(** The reference engine keeps the constraints of a set in its tableau and
    its sample point within the set. *)
Lemma planar_engine_invariant (b : isl_basic_set) :
  engine_invariant Planar.tab_layer
    (fun t => Planar.within b (tab_core t)) (Planar.within b).
Proof.
  unfold engine_invariant, Planar.within. cbn.
  split; [|split; [|split; [|split; [|split; [|split; [|split]]]]]].
  - intros t f d [Hin Hf]. unfold Planar.min.
    destruct (Planar.vertices (Planar.rows (tab_core t))) as [|v vs] eqn:Hv; cbn;
      [split; assumption|].
    split; [exact Hin|].
    apply (planar_feasible_incl _ (Planar.rows (tab_core t))); [exact Hin|].
    apply planar_vertices_feasible. rewrite Hv. apply planar_argmin_In.
  - intros t r t' [Hin Hf] H. unfold Planar.add_valid_eq in H. injection H as <-. cbn.
    split; [intros r' Hr'; apply in_or_app; left; apply Hin, Hr'|].
    destruct (Planar.vertices _) as [|v vs] eqn:Hv; [exact Hf|].
    apply (planar_feasible_incl _ (Planar.rows (tab_core t) ++ [r; map Z.opp r])).
    + intros r' Hr'. apply in_or_app. left. apply Hin, Hr'.
    + apply planar_vertices_feasible. rewrite Hv. left. reflexivity.
  - intros t H. exact H.
  - intros t u t' _ Hu H. injection H as <-. exact Hu.
  - intros o t t' Ht H. injection H as <-. exact Ht.
  - intros t n t' Ht H. injection H as <-. exact Ht.
  - intros t bs Ht. exact Ht.
  - intros t n Ht. exact Ht.
Qed.

(** The strip: the answer (2, 1) is the sample value of a tableau that
    holds the constraints of the strip and whose sample point satisfies
    them. *)
Lemma isl_tab_sample_answer_invariant_witness :
  exists t,
    Planar.within Planar.strip (tab_core t) /\
    (isl_tab_get_sample_value (TabLayer := Planar.tab_layer) t = Some [1; 2; 1] \/
     exists s, isl_tab_get_sample_value (TabLayer := Planar.tab_layer) t = Some s /\
               round_in_basis (ML := Planar.mat_layer) t s = Some [1; 2; 1]).
Proof.
  apply (isl_tab_sample_answer_invariant (ML := Planar.mat_layer) (TL := Planar.tab_layer)
           (fun t => Planar.within Planar.strip (tab_core t)) (Planar.within Planar.strip)
           (planar_engine_invariant Planar.strip)
           20 Planar.stale (Planar.tableau Planar.strip)
           (Planar.options ISL_GBR_NEVER) (Planar.options ISL_GBR_NEVER) [1; 2; 1]).
  - split; [intros r Hr; exact Hr|vm_compute; reflexivity].
  - vm_compute. reflexivity.
  - discriminate.
Defined.

Lemma planar_vertices_length (rs : list (list Z)) (v : isl_vec) :
  In v (Planar.vertices rs) -> length v = 3%nat.
Proof.
  unfold Planar.vertices. intros H.
  apply list_elem_of_In, list_elem_of_omap in H as (p & _ & Hp).
  unfold Planar.crossing in Hp.
  destruct (_ =? 0); [discriminate|].
  destruct (Planar.feasible rs _); [|discriminate].
  injection Hp as <-. reflexivity.
Qed.

(** The reference engine keeps a tableau of the plane sound for a set. *)
Lemma planar_sound_engine_invariant (b : isl_basic_set) :
  engine_invariant Planar.tab_layer (Planar.sound b) (Planar.placed b).
Proof.
  unfold engine_invariant, Planar.sound, Planar.placed, Planar.within. cbn.
  split; [|split; [|split; [|split; [|split; [|split; [|split]]]]]].
  - intros t f d [[[Hin Hf] Hlen] Hrest]. unfold Planar.min.
    destruct (Planar.vertices (Planar.rows (tab_core t))) as [|v vs] eqn:Hv; cbn;
      [split; [split; [split; [exact Hin|exact Hf]|exact Hlen]|exact Hrest]|].
    assert (Hw : In (Planar.argmin f v vs) (Planar.vertices (Planar.rows (tab_core t))))
      by (rewrite Hv; apply planar_argmin_In).
    split; [|exact Hrest]. split; [split; [exact Hin|]|].
    + apply (planar_feasible_incl _ (Planar.rows (tab_core t))); [exact Hin|].
      apply planar_vertices_feasible, Hw.
    + right. exact (planar_vertices_length _ _ Hw).
  - intros t r t' [[[Hin Hf] Hlen] Hrest] H. unfold Planar.add_valid_eq in H.
    injection H as <-. cbn.
    split; [|exact Hrest]. split; [split|].
    + intros r' Hr'. apply in_or_app. left. apply Hin, Hr'.
    + destruct (Planar.vertices _) as [|v vs] eqn:Hv; [exact Hf|].
      apply (planar_feasible_incl _ (Planar.rows (tab_core t) ++ [r; map Z.opp r])).
      * intros r' Hr'. apply in_or_app. left. apply Hin, Hr'.
      * apply planar_vertices_feasible. rewrite Hv. left. reflexivity.
    + destruct (Planar.vertices _) as [|v vs] eqn:Hv; [exact Hlen|].
      right. apply (planar_vertices_length (Planar.rows (tab_core t) ++ [r; map Z.opp r])).
      rewrite Hv. left. reflexivity.
  - intros t [H _]. exact H.
  - intros t u t' [_ Hrest] Hu H. injection H as <-. cbn. split; [exact Hu|exact Hrest].
  - intros o t t' Ht H. injection H as <-. exact Ht.
  - intros t n t' Ht H. injection H as <-. exact Ht.
  - intros t bs Ht. exact Ht.
  - intros t n Ht. exact Ht.
Qed.

Lemma planar_feasible_contains (b : isl_basic_set) (v : isl_vec) :
  isl_basic_set_total_dim b = 2%nat -> bset_eq b = [] ->
  length v = 3%nat -> Planar.feasible (bset_ineq b) v = true ->
  0 < isl_basic_set_contains b v.
Proof.
  intros Hd He Hl Hf. unfold isl_basic_set_contains. rewrite Hd, Hl, He. cbn [Nat.eqb negb forallb andb].
  assert (Hall : forallb (fun i => 0 <=? isl_seq_inner_product v i 3) (bset_ineq b) = true).
  { unfold Planar.feasible in Hf. rewrite forallb_forall in *. intros r Hr.
    rewrite inner_product_comm. apply Hf, Hr. }
  rewrite Hall. lia.
Qed.

(** The reference engine is sound on the diamond. *)
Lemma planar_sound_on_diamond :
  engine_sound_on Planar.tab_layer (set_sample None Planar.diamond)
    (Planar.sound Planar.diamond).
Proof.
  unfold engine_sound_on.
  split; [|split; [|split; [|split]]].
  - intros t H. vm_compute in H. injection H as <-.
    split; [split; [split|]|split; reflexivity].
    + intros r Hr. exact Hr.
    + vm_compute. reflexivity.
    + right. reflexivity.
  - intros t t' Ht H. cbn in H. injection H as <-. exact Ht.
  - intros t t' Ht H. cbn in H. injection H as <-. exact Ht.
  - intros t (_ & Hnu & Hnv). split; [exact Hnu|]. rewrite Hnv. discriminate.
  - intros t v ([[_ Hf] Hlen] & _) Hv Hne. cbn in Hv.
    destruct (Planar.point (tab_core t)) as [|x p] eqn:Hp; [discriminate|].
    injection Hv as <-.
    destruct Hlen as [Hlen|Hlen]; [discriminate|].
    apply planar_feasible_contains; [reflexivity|reflexivity|exact Hlen|exact Hf].
Qed.

(** The diamond, sampled as a bounded set: the first call stores (1, 1) in
    the set, and a second call returns it from there, whatever it is given
    to work with. *)
Lemma basic_set_sample_cached_again_witness :
  (length [1; 1; 1]
   = S (isl_basic_set_n_dim (set_sample (Some [1; 1; 1]) Planar.diamond)) /\
   0 < isl_basic_set_contains (set_sample (Some [1; 1; 1]) Planar.diamond) [1; 1; 1]) /\
  forall (ML' : MatLayer) (BL' : BsetLayer) (T' undo' : Type) (TL' : TabLayer T' undo')
         (fuel' : nat) (sc' : scratch undo') (bounded' : bool) (o2 : isl_options),
    basic_set_sample (ML := ML') (BL := BL') (TL := TL') (S fuel') sc'
      (set_sample (Some [1; 1; 1]) Planar.diamond) bounded' o2
    = (Ok ([1; 1; 1], set_sample (Some [1; 1; 1]) Planar.diamond), o2).
Proof.
  apply (basic_set_sample_cached_again (ML := Planar.mat_layer) (BL := Planar.bset_layer)
           (TL := Planar.tab_layer) (Planar.sound Planar.diamond)
           (Planar.placed Planar.diamond)
           20 Planar.stale Planar.diamond (set_sample (Some [1; 1; 1]) Planar.diamond)
           true (Planar.options ISL_GBR_ONCE) (Planar.options ISL_GBR_ONCE) [1; 1; 1]
           (planar_sound_engine_invariant Planar.diamond) planar_sound_on_diamond).
  - vm_compute. reflexivity.
  - discriminate.
  - reflexivity.
Defined.

#[local] Existing Instance Finite.union_layer.

Lemma finite_edge_order_complete (t : isl_edge_type) : In t Finite.edge_order.
Proof. destruct t; simpl; tauto. Qed.

Lemma finite_edge_order_NoDup : List.NoDup Finite.edge_order.
Proof.
  repeat constructor; simpl; intuition discriminate.
Qed.

(** The constraints on the domain {1, 2} with the validity constraint
    1 -> 2 added. *)
Lemma sc_built_complete_witness :
  exists sc,
    isl_schedule_constraints_add (UL := Finite.union_layer)
      (isl_schedule_constraints_on_domain (UL := Finite.union_layer) Finite.edge_order
         (Some [1; 2]))
      isl_edge_validity (Some [(1, 2)])
    = Some sc /\
    (sc_complete sc /\
     is_Some (isl_schedule_constraints_get_domain (Some sc)) /\
     is_Some (isl_schedule_constraints_get_context (Some sc)) /\
     (forall t, is_Some (isl_schedule_constraints_get (Some sc) t)) /\
     isl_schedule_constraints_n_map (UL := Finite.union_layer) Finite.edge_order (Some sc)
     <> Fault /\
     exists sc',
       isl_schedule_constraints_copy Finite.edge_order (Some sc) = Ok sc' /\
       sc_domain sc' = sc_domain sc /\ sc_context sc' = sc_context sc /\
       forall t, sc_constraint sc' t = sc_constraint sc t).
Proof.
  eexists. split; [reflexivity|].
  apply (sc_built_complete (UL := Finite.union_layer) Finite.edge_order
           finite_edge_order_complete).
  eapply (built_add _ _ isl_edge_validity (Some [(1, 2)])).
  - eapply (built_on_domain _ (Some [1; 2])). cbv. reflexivity.
  - reflexivity.
Defined.

(** The validity constraint 1 -> 2 and the condition 2 -> 1 under the map
    1 -> 10, 2 -> 20. *)
Lemma isl_schedule_constraints_apply_each_witness :
  exists sc sc',
    isl_schedule_constraints_set_conditional_validity
      (isl_schedule_constraints_set_validity
         (isl_schedule_constraints_on_domain (UL := Finite.union_layer) Finite.edge_order
            (Some [1; 2]))
         (Some [(1, 2)]))
      (Some [(2, 1)]) (Some [])
    = Some sc /\
    isl_schedule_constraints_apply (UL := Finite.union_layer) Finite.edge_order (Some sc)
      (Some [(1, 10); (2, 20)])
    = Some sc' /\
    isl_schedule_constraints_get_validity (Some sc') = Some [(10, 20)] /\
    isl_schedule_constraints_get_conditional_validity_condition (Some sc') = Some [(20, 10)] /\
    isl_schedule_constraints_get_domain (Some sc') = Some [10; 20] /\
    ((forall t,
        sc_constraint sc' t
        = if may_be_tagged t
          then isl_union_map_union
                 (isl_union_map_apply_range
                    (isl_union_map_apply_domain (sc_constraint sc t)
                       (Some [(1, 10); (2, 20)])) (Some [(1, 10); (2, 20)]))
                 (apply_factor_domain (sc_constraint sc t) (Some [(1, 10); (2, 20)]))
          else isl_union_map_apply_range
                 (isl_union_map_apply_domain (sc_constraint sc t)
                    (Some [(1, 10); (2, 20)])) (Some [(1, 10); (2, 20)])) /\
     sc_domain sc' = isl_union_set_apply (sc_domain sc) (Some [(1, 10); (2, 20)]) /\
     sc_context sc' = sc_context sc).
Proof.
  eexists. eexists. split; [reflexivity|]. split; [reflexivity|].
  split; [reflexivity|]. split; [reflexivity|]. split; [reflexivity|].
  apply (isl_schedule_constraints_apply_each (UL := Finite.union_layer) Finite.edge_order
           _ _ [(1, 10); (2, 20)] finite_edge_order_NoDup finite_edge_order_complete).
  reflexivity.
Defined.
